(** * envm: environment-variable manager -- shallow embedding and properties

    The development follows the modules of the repository:

    - [Js], [Re]  the JavaScript built-ins the sources lean on (string
                  methods, stable sort, the Date Time String Format) and
                  the regular expressions they are called with;
    - [PathUtils] src/path-utils.mjs ([split], [join], [unique], [validate]);
    - [Backup]    src/backup.mjs ([list], [createBackup], [purge]);
    - [Async]     the settlement of [async] functions, as a state and error
                  monad over the world a module touches;
    - [Posix]     src/platform/posix.mjs;
    - [Win]       src/platform/win.mjs, over any registry tool;
    - [Restore]   src/backup.mjs ([restore]), over either platform module;
    - [RegSim], [Fixtures]  a small registry and worlds to run the code on;
    - [PurgeSpec], [Spec]   the vocabulary of the statements;
    - [EnvSpec], [PathSpec], [BackupSpec], [RegistrySpec], [PosixSpec],
      [QuerySpec] the vocabulary of the further properties.

    The properties come after the definitions: retention ([purge]),
    reference expansion ([getExpanded]), mutation ([set], [unset]) and the
    path-segment helpers; then the laws of the path utilities and of the
    helpers for PATH-like variables, of [createBackup] and [restore], of
    [purge], of the session scope, of the registry commands, of the files
    the POSIX adapter rewrites and of the reading of a registry query.

    Strings are sequences of 8-bit code units; the character classes are
    those of ECMAScript restricted to that range, and letters are the
    ASCII ones.  A promise is modelled by its settlement: an [async]
    function is a state transformer that either returns a value or throws
    (rejects).  [process.env] is the table of the variables of the process
    on top of the properties that every object inherits: a name that no
    variable has may still give such a property ([process_env]). *)

From stdpp Require Import gmap strings.
From Stdlib Require Import String Ascii List ZArith NArith Lia Bool Arith Sorted Permutation.
From Stdlib Require OrderedTypeEx DecimalString.
Import ListNotations.

(* ------------------------------------------------------------------ *)
(** ** JavaScript built-ins                                            *)
(* ------------------------------------------------------------------ *)

Module Js.

Definition code (c : ascii) : N := N_of_ascii c.

Definition between (lo hi : N) (c : ascii) : bool :=
  ((lo <=? code c) && (code c <=? hi))%N.

Definition is_digit (c : ascii) : bool := between 48 57 c.
Definition is_upper (c : ascii) : bool := between 65 90 c.
Definition is_lower (c : ascii) : bool := between 97 122 c.

(** [\w] : ASCII letters, digits and underscore. *)
Definition is_word (c : ascii) : bool :=
  is_digit c || is_upper c || is_lower c || Ascii.eqb c "_".

(** [\s] and the characters [trim] strips: TAB, LF, VT, FF, CR, SPACE and
    NBSP (the white space and line terminators below U+0100). *)
Definition is_space (c : ascii) : bool :=
  between 9 13 c || Ascii.eqb c " " || (code c =? 160)%N.

(** Line terminators, which [.] does not match. *)
Definition is_newline (c : ascii) : bool :=
  (code c =? 10)%N || (code c =? 13)%N.

Definition upper_char (c : ascii) : ascii :=
  if is_lower c then ascii_of_N (code c - 32) else c.

(** [String.prototype.toUpperCase] on ASCII text: the letters a to z are
    mapped, every other code unit is left as it is (the host also maps
    letters above code 127). *)
Fixpoint toUpperCase (s : string) : string :=
  match s with
  | EmptyString => EmptyString
  | String c r => String (upper_char c) (toUpperCase r)
  end.

Fixpoint all_chars (p : ascii -> bool) (s : string) : bool :=
  match s with
  | EmptyString => true
  | String c r => p c && all_chars p r
  end.

Fixpoint any_char (p : ascii -> bool) (s : string) : bool :=
  match s with
  | EmptyString => false
  | String c r => p c || any_char p r
  end.

(** [s.startsWith(p)] *)
Fixpoint startsWith (p s : string) : bool :=
  match p, s with
  | EmptyString, _ => true
  | String a p', String b s' => Ascii.eqb a b && startsWith p' s'
  | String _ _, EmptyString => false
  end.

Fixpoint drop (n : nat) (s : string) : string :=
  match n, s with
  | O, _ => s
  | S k, String _ r => drop k r
  | S _, EmptyString => EmptyString
  end.

Fixpoint take (n : nat) (s : string) : string :=
  match n, s with
  | S k, String c r => String c (take k r)
  | _, _ => EmptyString
  end.

(** [s.trimStart()], [s.trimEnd()] and [s.trim()]. *)
Fixpoint trimStart (s : string) : string :=
  match s with
  | String c r => if is_space c then trimStart r else s
  | EmptyString => EmptyString
  end.

Fixpoint trimEnd (s : string) : string :=
  match s with
  | EmptyString => EmptyString
  | String c r =>
      match trimEnd r with
      | EmptyString => if is_space c then EmptyString else String c EmptyString
      | r' => String c r'
      end
  end.

Definition trim (s : string) : string := trimEnd (trimStart s).

(** A JavaScript string is truthy unless it is empty. *)
Definition truthy (s : string) : bool :=
  match s with EmptyString => false | _ => true end.

(** [s.split(sep)] for a string separator.  [skip] counts the characters of
    a separator occurrence still to be passed over; the head of the result
    is the piece under construction. *)
Fixpoint split_from (sep s : string) (skip : nat) : list string :=
  match s with
  | EmptyString => [EmptyString]
  | String c r =>
      match skip with
      | S k => split_from sep r k
      | O =>
          if startsWith sep s
          then EmptyString :: split_from sep r (String.length sep - 1)
          else match split_from sep r 0 with
               | h :: t => String c h :: t
               | [] => [String c EmptyString]
               end
      end
  end.

Fixpoint chars (s : string) : list string :=
  match s with
  | EmptyString => []
  | String c r => String c EmptyString :: chars r
  end.

Definition str_split (sep s : string) : list string :=
  match sep with
  | EmptyString => chars s
  | _ => split_from sep s 0
  end.

(** [a.join(sep)] *)
Fixpoint arr_join (sep : string) (a : list string) : string :=
  match a with
  | [] => EmptyString
  | [x] => x
  | x :: r => x +:+ sep +:+ arr_join sep r
  end.

(** The settlement of a promise (or the completion of a call): a value, or
    a thrown error with its message. *)
Inductive Outcome (A : Type) : Type :=
| Returned (a : A)
| Thrown (message : string).
Arguments Returned {A} a.
Arguments Thrown {A} message.

(** [Array.prototype.sort(cmp)]: a stable sort; [a] stays in front of [b]
    unless [cmp a b] is positive.  Elements are inserted from the right, so
    an element meets only elements that followed it in the input. *)
Section Sort.
Context {A : Type} (cmp : A -> A -> comparison).

Fixpoint sort_insert (x : A) (l : list A) : list A :=
  match l with
  | [] => [x]
  | y :: r =>
      match cmp x y with
      | Gt => y :: sort_insert x r
      | _ => x :: l
      end
  end.

Fixpoint arr_sort (l : list A) : list A :=
  match l with
  | [] => []
  | x :: r => sort_insert x (arr_sort r)
  end.
End Sort.

(** A consistent comparator, as [Array.prototype.sort] requires: a total
    preorder given by its sign.  [precedes cmp a b]: the sort may leave [a]
    in front of [b]. *)
Definition consistent {A : Type} (cmp : A -> A -> comparison) : Prop :=
  (forall a b, cmp a b = CompOpp (cmp b a)) /\
  (forall a b c, cmp a b <> Gt -> cmp b c <> Gt -> cmp a c <> Gt).

Definition precedes {A : Type} (cmp : A -> A -> comparison) (a b : A) : Prop :=
  cmp a b <> Gt.

(** A pattern of fixed width: one character class per position. *)
Fixpoint match_at (pat : list (ascii -> bool)) (s : string) : bool :=
  match pat, s with
  | [], _ => true
  | p :: pat', String c r => p c && match_at pat' r
  | _ :: _, EmptyString => false
  end.

(** [s.match(re)] for an unanchored fixed-width pattern: the leftmost
    position where it matches, as the matched text. *)
Fixpoint find_fixed (pat : list (ascii -> bool)) (s : string) : option string :=
  if match_at pat s then Some (take (length pat) s)
  else match s with
       | EmptyString => None
       | String _ r => find_fixed pat r
       end.

(** [s.replace(/c/g, d)] for one character. *)
Fixpoint replace_all_char (c d : ascii) (s : string) : string :=
  match s with
  | EmptyString => EmptyString
  | String a r => String (if Ascii.eqb a c then d else a) (replace_all_char c d r)
  end.

(** [s.replace(c, d)] with a string pattern of one character: the first
    occurrence only. *)
Fixpoint replace_first_char (c d : ascii) (s : string) : string :=
  match s with
  | EmptyString => EmptyString
  | String a r => if Ascii.eqb a c then String d r else String a (replace_first_char c d r)
  end.

(** *** Dates

    Time values are milliseconds since the epoch, in [Z]. *)

Definition msPerDay : Z := 86400000.

Definition days_from_civil (y m d : Z) : Z :=
  let y' := if (m <=? 2)%Z then (y - 1)%Z else y in
  let era := (y' / 400)%Z in
  let yoe := (y' - era * 400)%Z in
  let mp := if (m <=? 2)%Z then (m + 9)%Z else (m - 3)%Z in
  let doy := ((153 * mp + 2) / 5 + d - 1)%Z in
  let doe := (yoe * 365 + yoe / 4 - yoe / 100 + doy)%Z in
  (era * 146097 + doe - 719468)%Z.

(** Year, month and day of a day number. *)
Definition civil_from_days (z : Z) : Z * Z * Z :=
  let z' := (z + 719468)%Z in
  let era := (z' / 146097)%Z in
  let doe := (z' - era * 146097)%Z in
  let yoe := ((doe - doe / 1460 + doe / 36524 - doe / 146096) / 365)%Z in
  let doy := (doe - (365 * yoe + yoe / 4 - yoe / 100))%Z in
  let mp := ((5 * doy + 2) / 153)%Z in
  let d := (doy - (153 * mp + 2) / 5 + 1)%Z in
  let m := if (mp <? 10)%Z then (mp + 3)%Z else (mp - 9)%Z in
  let y := (yoe + era * 400)%Z in
  (if (m <=? 2)%Z then (y + 1)%Z else y, m, d).

Definition digit_char (d : Z) : ascii := ascii_of_N (Z.to_N (48 + d mod 10)).

(** The [n] low decimal digits of [v], zero padded. *)
Fixpoint pad (n : nat) (v : Z) : string :=
  match n with
  | O => EmptyString
  | S k => pad k (v / 10) +:+ String (digit_char v) EmptyString
  end.

(** [new Date(t).toISOString()] *)
Definition toISOString (t : Z) : string :=
  let '(y, m, d) := civil_from_days (t / msPerDay) in
  let r := (t mod msPerDay)%Z in
  let year := if ((0 <=? y) && (y <=? 9999))%Z then pad 4 y
              else (if (y <? 0)%Z then "-" else "+") +:+ pad 6 (Z.abs y) in
  year +:+ "-" +:+ pad 2 m +:+ "-" +:+ pad 2 d +:+ "T" +:+
  pad 2 (r / 3600000) +:+ ":" +:+ pad 2 (r / 60000 mod 60) +:+ ":" +:+
  pad 2 (r / 1000 mod 60) +:+ "." +:+ pad 3 (r mod 1000) +:+ "Z".

Definition digit_val (c : ascii) : Z := (Z.of_N (code c) - 48)%Z.

(** Exactly [n] decimal digits at the head of [s]: their value and the rest. *)
Fixpoint digits (n : nat) (acc : Z) (s : string) : option (Z * string) :=
  match n with
  | O => Some (acc, s)
  | S k =>
      match s with
      | String c r =>
          if is_digit c then digits k (acc * 10 + digit_val c)%Z r else None
      | EmptyString => None
      end
  end.

(** The time of day [HH:mm], [HH:mm:ss] or [HH:mm:ss.sss] followed by [Z],
    in milliseconds. *)
Definition parse_time_utc (s : string) : option Z :=
  match digits 2 0 s with
  | Some (h, String ":" s1) =>
      match digits 2 0 s1 with
      | Some (mi, s2) =>
          let hm := (h * 3600000 + mi * 60000)%Z in
          if negb ((h <=? 24) && (mi <=? 59))%Z then None else
          match s2 with
          | String "Z" EmptyString => Some hm
          | String ":" s3 =>
              match digits 2 0 s3 with
              | Some (sec, s4) =>
                  if negb (sec <=? 59)%Z then None else
                  match s4 with
                  | String "Z" EmptyString => Some (hm + sec * 1000)%Z
                  | String "." s5 =>
                      match digits 3 0 s5 with
                      | Some (ms, String "Z" EmptyString) => Some (hm + sec * 1000 + ms)%Z
                      | _ => None
                      end
                  | _ => None
                  end
              | None => None
              end
          | _ => None
          end
      | None => None
      end
  | _ => None
  end.

(** [new Date(s).getTime()], with [None] for NaN (an invalid date).

    The Date Time String Format of ECMA-262 in its UTC forms: [YYYY],
    [YYYY-MM], [YYYY-MM-DD], each optionally followed by [T], a time and
    [Z].  For other text the standard leaves the answer to the engine; the
    only other text [purge] passes has the shape [dddd:dd:ddTdd:dd:.ddZ],
    for which the engine of Node.js answers NaN (after the year it meets a
    colon where the format wants a hyphen, [T] or the end, and its legacy
    reader refuses a word that follows a number). *)
Definition Date_parse (s : string) : option Z :=
  match digits 4 0 s with
  | None => None
  | Some (y, s1) =>
      let date (m d : Z) (rest : string) : option Z :=
        if negb ((1 <=? m) && (m <=? 12) && (1 <=? d) && (d <=? 31))%Z then None else
        let day := (days_from_civil y m d * msPerDay)%Z in
        match rest with
        | EmptyString => Some day
        | String "T" t =>
            match parse_time_utc t with
            | Some ms => Some (day + ms)%Z
            | None => None
            end
        | _ => None
        end in
      match s1 with
      | String "-" s2 =>
          match digits 2 0 s2 with
          | Some (m, String "-" s3) =>
              match digits 2 0 s3 with
              | Some (d, s4) => date m d s4
              | None => None
              end
          | Some (m, s3) => date m 1%Z s3
          | None => None
          end
      | _ => date 1%Z 1%Z s1
      end
  end.

(** [a.sort()] without a comparator: strings in the order of their code
    units, the shorter of two first when it begins the longer. *)
Definition code_unit_order (a b : string) : comparison := String.compare a b.

Definition arr_sort_default (a : list string) : list string :=
  arr_sort code_unit_order a.

(** [values.includes(s)] *)
Definition includes (values : list string) (s : string) : bool :=
  existsb (String.eqb s) values.

End Js.

(* ------------------------------------------------------------------ *)
(** ** src/path-utils.mjs                                              *)
(* ------------------------------------------------------------------ *)

Module PathUtils.
Import Js.

(** [value ? value.split(delim).map((s) => s.trim()) : []] *)
Definition split (value delim : string) : list string :=
  if truthy value then map trim (str_split delim value) else [].

(** [segments.filter(Boolean).join(delim)] *)
Definition join (segments : list string) (delim : string) : string :=
  arr_join delim (List.filter truthy segments).

(** [unique]: the [Set] of keys seen so far is threaded through the filter. *)
Fixpoint unique_from (seen : list string) (caseInsensitive : bool)
    (segments : list string) : list string :=
  match segments with
  | [] => []
  | s :: r =>
      let key := if caseInsensitive then toUpperCase s else s in
      if existsb (String.eqb key) seen
      then unique_from seen caseInsensitive r
      else s :: unique_from (key :: seen) caseInsensitive r
  end.

Definition unique (segments : list string) (caseInsensitive : bool) : list string :=
  unique_from [] caseInsensitive segments.

(** [validate]: every segment is truthy and holds no NUL, apostrophe or
    double quote (code 34). *)
Definition validate (segments : list string) : bool :=
  forallb (fun s =>
    truthy s &&
    negb (any_char (fun c => (code c =? 0)%N || Ascii.eqb c "'" || (code c =? 34)%N) s))
    segments.

Definition normalizeCase (segments : list string) : list string :=
  map toUpperCase segments.

End PathUtils.


(* ------------------------------------------------------------------ *)
(** ** The three scopes                                                *)
(* ------------------------------------------------------------------ *)

Inductive Scope : Type := session | user | system.

Definition scope_name (sc : Scope) : string :=
  match sc with
  | session => "session"
  | user => "user"
  | system => "system"
  end.

(* ------------------------------------------------------------------ *)
(** ** src/backup.mjs                                                  *)
(* ------------------------------------------------------------------ *)

Module Backup.
Import Js.

(** The directory [getBackupDir()] names, as the file system shows it:
    whether it exists, its files in [readdir] order with their content,
    the names [unlink] refuses, and whether [mkdir] and [writeFile]
    succeed in it.  A directory that exists can be listed and read. *)
Record Store : Type := {
  dir_path : string;
  dir_exists : bool;
  entries : list (string * string);
  locked : list string;
  dir_writable : bool
}.

Definition names (st : Store) : list string := map fst (entries st).

Definition with_entries (st : Store) (es : list (string * string)) : Store :=
  {| dir_path := dir_path st; dir_exists := dir_exists st; entries := es;
     locked := locked st; dir_writable := dir_writable st |}.

Definition mem (x : string) (l : list string) : bool := existsb (String.eqb x) l.

(** [fs.readdir(dir)] *)
Definition readdir (st : Store) : Outcome (list string) :=
  if dir_exists st then Returned (names st) else Thrown "ENOENT".

(** [path.join(dir, file)] for a directory path in normal form and a file
    name without separators, on a host whose separator is the slash. *)
Definition path_join (dir file : string) : string := dir +:+ "/" +:+ file.

(** [fs.writeFile(join(dir, name), content)]: an existing file keeps its
    place in the directory, a new one is added at the end. *)
Fixpoint put_file (name content : string) (es : list (string * string))
    : list (string * string) :=
  match es with
  | [] => [(name, content)]
  | (n, c) :: r =>
      if String.eqb n name then (n, content) :: r else (n, c) :: put_file name content r
  end.

(** [fs.unlink(join(dir, name))]: the store afterwards and whether the call
    succeeded. *)
Definition unlink (name : string) (st : Store) : Store * bool :=
  if mem name (names st) && negb (mem name (locked st))
  then (with_entries st (List.filter (fun e => negb (String.eqb (fst e) name)) (entries st)), true)
  else (st, false).

(** [createBackup(scope, name, value)] at clock reading [now]; [mkdir] and
    [writeFile] succeed or fail together. *)
Definition createBackup (scope name value : string) (now : Z) (st : Store)
    : Outcome string * Store :=
  let ts := replace_all_char "." "-" (replace_all_char ":" "-" (toISOString now)) in
  let id := scope +:+ "-" +:+ name +:+ "-" +:+ ts +:+ ".bak" in
  let file := path_join (dir_path st) id in
  if negb (dir_writable st) then (Thrown "EACCES", st)
  else
    (Returned file,
     {| dir_path := dir_path st; dir_exists := true;
        entries := put_file id value (entries st);
        locked := locked st; dir_writable := true |}).

(** *** purge *)

(** [const [scope] = file.split("-")] *)
Definition scope_of (file : string) : string :=
  match str_split "-" file with
  | scope :: _ => scope
  | [] => EmptyString
  end.

(** [byScope] is an object literal: besides its own keys, in insertion
    order, it answers to the property names it inherits from
    [Object.prototype], whose values are truthy and have no [push]. *)
Definition inherited_keys : list string :=
  ["constructor"; "__defineGetter__"; "__defineSetter__"; "hasOwnProperty";
   "__lookupGetter__"; "__lookupSetter__"; "isPrototypeOf";
   "propertyIsEnumerable"; "toString"; "valueOf"; "__proto__";
   "toLocaleString"].

Definition Groups : Type := list (string * list string).

Fixpoint has_key (k : string) (o : Groups) : bool :=
  match o with
  | [] => false
  | (k', _) :: r => String.eqb k' k || has_key k r
  end.

(** [byScope[k].push(file)] on an own key. *)
Fixpoint push_to (k file : string) (o : Groups) : Groups :=
  match o with
  | [] => []
  | (k', fs) :: r =>
      if String.eqb k' k then (k', fs ++ [file]) :: r else (k', fs) :: push_to k file r
  end.

(** The first loop of [purge]. *)
Fixpoint group_files (files : list string) (byScope : Groups) : Outcome Groups :=
  match files with
  | [] => Returned byScope
  | file :: rest =>
      let scope := scope_of file in
      if has_key scope byScope then group_files rest (push_to scope file byScope)
      else if mem scope inherited_keys
      then Thrown "TypeError: byScope[scope].push is not a function"
      else group_files rest (byScope ++ [(scope, [file])])
  end.

(** A canonical array index: decimal digits without leading zero, below
    2^32 - 1.  [for ... in] visits such keys first, in ascending order. *)
Definition array_index (k : string) : option N :=
  match k with
  | EmptyString => None
  | String c r =>
      if all_chars is_digit k && (negb (Ascii.eqb c "0") || negb (truthy r))
         && (String.length k <=? 10)
      then match digits (String.length k) 0 k with
           | Some (v, _) => if (v <? 4294967295)%Z then Some (Z.to_N v) else None
           | None => None
           end
      else None
  end.

Definition index_key (g : string * list string) : bool :=
  match array_index (fst g) with Some _ => true | None => false end.

Definition index_order (g h : string * list string) : comparison :=
  match array_index (fst g), array_index (fst h) with
  | Some a, Some b => (a ?= b)%N
  | _, _ => Eq
  end.

(** The groups in the order [for (const scope in byScope)] visits them. *)
Definition for_in (o : Groups) : Groups :=
  arr_sort index_order (List.filter index_key o)
  ++ List.filter (fun g => negb (index_key g)) o.

(** The pattern [\d{4}-\d{2}-\d{2}T\d{2}-\d{2}-\d{2}]. *)
Definition ts_pattern : list (ascii -> bool) :=
  let d := is_digit in
  let h := Ascii.eqb "-" in
  [d; d; d; d; h; d; d; h; d; d; Ascii.eqb "T"; d; d; h; d; d; h; d; d].

(** [s.replace(/(\d{2})$/, ".$1Z")] *)
Fixpoint dot_last_two (s : string) : string :=
  match s with
  | String a (String b EmptyString) =>
      if is_digit a && is_digit b
      then String "." (String a (String b (String "Z" EmptyString)))
      else s
  | String a r => String a (dot_last_two r)
  | EmptyString => EmptyString
  end.

(** The text handed to [new Date(...)]. *)
Definition date_text (m : string) : string :=
  dot_last_two (replace_first_char "T" "T" (replace_all_char "-" ":" m)).

(** The [tooOld] flag of one file; [age > maxAgeDays] is compared exactly,
    as [now - t > maxAgeDays * msPerDay]. *)
Definition tooOld (now maxAgeDays : Z) (file : string) : bool :=
  match find_fixed ts_pattern file with
  | Some m =>
      match Date_parse (date_text m) with
      | Some t => (maxAgeDays * msPerDay <? now - t)%Z
      | None => false
      end
  | None => false
  end.

Section Purge.
(** [a.localeCompare(b)] as a sign; the collation is the host's. *)
Variable localeCompare : string -> string -> comparison.
(** The two thresholds, integers, and the reading of [Date.now()]. *)
Variables (maxPerScope maxAgeDays : Z) (now : Z).

(** The inner loop from index [i] on: the store and the count so far. *)
Fixpoint purge_group (i : nat) (group : list string) (acc : Store * nat)
    : Store * nat :=
  match group with
  | [] => acc
  | file :: rest =>
      let acc' :=
        if (maxPerScope <=? Z.of_nat i)%Z || tooOld now maxAgeDays file
        then match unlink file (fst acc) with
             | (st', true) => (st', S (snd acc))
             | (_, false) => acc
             end
        else acc in
      purge_group (S i) rest acc'
  end.

Definition sort_desc (group : list string) : list string :=
  arr_sort (fun a b => localeCompare b a) group.

Fixpoint purge_groups (gs : Groups) (acc : Store * nat) : Store * nat :=
  match gs with
  | [] => acc
  | (_, group) :: rest => purge_groups rest (purge_group 0 (sort_desc group) acc)
  end.

(** [purge({ maxPerScope, maxAgeDays })] *)
Definition purge (st : Store) : Outcome nat * Store :=
  match readdir st with
  | Thrown _ => (Returned 0, st)
  | Returned files =>
      match group_files files [] with
      | Thrown e => (Thrown e, st)
      | Returned byScope =>
          let '(st', deleted) := purge_groups (for_in byScope) (st, 0) in
          (Returned deleted, st')
      end
  end.
End Purge.

(** [list({ scope })]; declared last, as its name hides the type of lists. *)
Definition list (scope : string) (st : Store) : Datatypes.list string :=
  match readdir st with
  | Returned files => List.filter (startsWith (scope +:+ "-")) files
  | Thrown _ => []
  end.

End Backup.

(* ------------------------------------------------------------------ *)
(** ** Regular-expression helpers of the adapters                      *)
(* ------------------------------------------------------------------ *)

Module Re.
Import Js.

(** The longest prefix of [s] whose characters satisfy [p], and the rest. *)
Fixpoint span (p : ascii -> bool) (s : string) : string * string :=
  match s with
  | String c r =>
      if p c then let '(a, b) := span p r in (String c a, b) else (EmptyString, s)
  | EmptyString => (EmptyString, EmptyString)
  end.

(** The first character of [s], if any, fails [p]. *)
Definition stops (p : ascii -> bool) (s : string) : bool :=
  match s with
  | String c _ => negb (p c)
  | EmptyString => true
  end.

(** [s.replace(re, callback)] for a global pattern whose matches are not
    empty.  [matcher s] answers a match that starts at the head of [s]: the
    matched text and the captured name.  Text put in by the callback is
    not scanned again. *)
Section ReplaceAll.
Variable matcher : string -> option (string * string).
Variable callback : string -> string -> string.

Fixpoint replace_from (s : string) (skip : nat) : string :=
  match s with
  | EmptyString => EmptyString
  | String c r =>
      match skip with
      | S k => replace_from r k
      | O =>
          match matcher s with
          | Some (m, v) => callback m v +:+ replace_from r (String.length m - 1)
          | None => String c (replace_from r 0)
          end
      end
  end.

Definition replace_matches (s : string) : string := replace_from s 0.
End ReplaceAll.

(** The index of the first occurrence of [pat] in [s]. *)
Fixpoint index_of (pat s : string) : option nat :=
  if startsWith pat s then Some 0
  else match s with
       | EmptyString => None
       | String _ r => option_map S (index_of pat r)
       end.

(** The replacement text of [s.replace(re, text)] for a pattern without
    capture groups: [$$], [$&], the text before the match and the text
    after it are substituted, any other [$] stays. *)
Fixpoint get_substitution (matched before after template : string) : string :=
  match template with
  | String "$" (String "$" r) => String "$" (get_substitution matched before after r)
  | String "$" (String "&" r) => matched +:+ get_substitution matched before after r
  | String "$" (String "`" r) => before +:+ get_substitution matched before after r
  | String "$" (String "'" r) => after +:+ get_substitution matched before after r
  | String c r => String c (get_substitution matched before after r)
  | EmptyString => EmptyString
  end.

(** [s.replace(/open[\s\S]*?close/, text)]: the first [open] that a [close]
    follows, up to the nearest such [close]. *)
Definition replace_delimited (open close text s : string) : string :=
  match index_of open s with
  | None => s
  | Some i =>
      let inner := drop (i + String.length open) s in
      match index_of close inner with
      | None => s
      | Some j =>
          let before := take i s in
          let matched := open +:+ take j inner +:+ close in
          let after := drop (j + String.length close) inner in
          before +:+ get_substitution matched before after text +:+ after
      end
  end.

(** Group 1 of [s.match(/open([\s\S]*?)close/)]. *)
Definition between_delimiters (open close s : string) : option string :=
  match index_of open s with
  | None => None
  | Some i =>
      let inner := drop (i + String.length open) s in
      match index_of close inner with
      | None => None
      | Some j => Some (take j inner)
      end
  end.

End Re.

(* ------------------------------------------------------------------ *)
(** ** Asynchronous functions                                          *)
(* ------------------------------------------------------------------ *)

Module Async.
Import Js.

(** An [async] function over a world [W]: it settles with a value or a
    thrown error and leaves a world behind. *)
Definition M (W A : Type) : Type := W -> Outcome A * W.

Definition ret {W A} (a : A) : M W A := fun w => (Returned a, w).

Definition throw {W A} (e : string) : M W A := fun w => (Thrown e, w).

Definition bind {W A B} (m : M W A) (k : A -> M W B) : M W B :=
  fun w =>
    match m w with
    | (Returned a, w') => k a w'
    | (Thrown e, w') => (Thrown e, w')
    end.

(** [try { m } catch (e) { handler(e.message) }] *)
Definition try_catch {W A} (m : M W A) (handler : string -> M W A) : M W A :=
  fun w =>
    match m w with
    | (Returned a, w') => (Returned a, w')
    | (Thrown e, w') => handler e w'
    end.

Definition gets {W A} (f : W -> A) : M W A := fun w => (Returned (f w), w).

Definition modify {W} (f : W -> W) : M W unit := fun w => (Returned tt, f w).

Declare Scope async_scope.
Delimit Scope async_scope with async.
Notation "x <- m ;; k" := (bind m (fun x => k))
  (at level 100, m at next level, right associativity) : async_scope.
Notation "m ;; k" := (bind m (fun _ => k))
  (at level 100, right associativity) : async_scope.

End Async.

(* ------------------------------------------------------------------ *)
(** ** The result of a mutation                                        *)
(* ------------------------------------------------------------------ *)

(** The [rollback] field: never assigned ([undefined]), [null], or [true]. *)
Inductive Rollback : Type := rb_undefined | rb_null | rb_true.

(** A value read from a medium: [None] is [undefined]. *)
Definition Value : Type := option string.

(** What [process.env[name]] evaluates to: the value of the variable, or
    [undefined]; or, for a name that no variable has, the property of that
    name that every object inherits from [Object.prototype], which is no
    string (a built-in function, or the prototype itself). *)
Inductive Property : Type :=
| plain (v : Value)
| inherited (key : string).

(** The object [set] and [unset] return.  [previous] is what the adapter
    read before it wrote, of type [P]: a [Value] on Windows, a [Property]
    on POSIX, where the name is looked up as the caller wrote it. *)
Record ResultOf (P : Type) : Type := {
  ok : bool;
  r_scope : Scope;
  r_name : string;
  previous : P;
  next : Value;
  verification : bool;
  rollback : Rollback;
  notes : list string
}.
Arguments ok {P} _.
Arguments r_scope {P} _.
Arguments r_name {P} _.
Arguments previous {P} _.
Arguments next {P} _.
Arguments verification {P} _.
Arguments rollback {P} _.
Arguments notes {P} _.

Definition Result : Type := ResultOf Value.

(** The options of [set] and [unset], after their defaults are applied. *)
Record Opts : Type := {
  scope : Scope;
  backup : bool;
  verify : bool;
  rollbackOnFail : bool
}.

Definition defaults (sc : Scope) : Opts :=
  {| scope := sc; backup := true; verify := true; rollbackOnFail := true |}.

(** [raw === value] *)
Definition same_value (raw : Value) (value : Value) : bool :=
  match raw, value with
  | Some a, Some b => String.eqb a b
  | None, None => true
  | _, _ => false
  end.

(** [process.env[name]].  The object answers with the variable of that
    name; when the process has none, the look-up goes on to
    [Object.prototype], as for any object. *)
Definition process_env (env : gmap string string) (name : string) : Property :=
  match env !! name with
  | Some s => plain (Some s)
  | None =>
      if Backup.mem name Backup.inherited_keys then inherited name else plain None
  end.

(** [raw === value] for what [process.env] gave: an inherited property is
    equal to no string and is not [undefined]. *)
Definition same_property (raw : Property) (value : Value) : bool :=
  match raw with
  | plain v => same_value v value
  | inherited _ => false
  end.

(** [String(p)] for an inherited property [p]: the text of a built-in
    function, or, for the prototype that [__proto__] gives, the text of
    an object. *)
Definition inherited_text (key : string) : string :=
  if String.eqb key "__proto__" then "[object Object]"
  else if String.eqb key "constructor" then "function Object() { [native code] }"
  else "function " +:+ key +:+ "() { [native code] }".

(** [process.env[v] || ""] as [replace] takes it from its callback: the
    value of the variable, the empty string, or the text of the inherited
    property, which is truthy. *)
Definition env_text (env : gmap string string) (v : string) : string :=
  match process_env env v with
  | plain (Some s) => s
  | plain None => EmptyString
  | inherited key => inherited_text key
  end.

(** [process.env[k] || ""] for a key [k] that names no inherited property,
    as the keys of the Windows adapter, which are in upper case: the value
    of the variable or the empty string. *)
Definition env_or_empty (env : gmap string string) (v : string) : string :=
  match env !! v with
  | Some s => s
  | None => EmptyString
  end.

(** [pathUtils.split(current, delim)] on what [getRaw(...) || ""] gave: an
    inherited property is truthy and has no method [split]. *)
Definition split_current {W : Type} (current : Property) (delim : string)
    : Async.M W (list string) :=
  match current with
  | plain (Some s) => Async.ret (PathUtils.split s delim)
  | plain None => Async.ret []
  | inherited _ => Async.throw "TypeError: value.split is not a function"
  end.

(* ------------------------------------------------------------------ *)
(** ** src/platform/posix.mjs                                          *)
(* ------------------------------------------------------------------ *)

Module Posix.
Import Js Re Async.
Local Open Scope async_scope.

Definition DELIM : string := ":".

Definition LF : string := String (ascii_of_nat 10) EmptyString.

(** What the adapter can see and touch: the environment table of the
    process, the home directory, the text files by path with the paths
    that refuse a write, the backup directory and the clock. *)
Record World : Type := {
  env : gmap string string;
  homedir : string;
  files : gmap string string;
  readonly : list string;
  store : Backup.Store;
  clock : Z
}.

Definition set_env (f : gmap string string -> gmap string string) (w : World) : World :=
  {| env := f (env w); homedir := homedir w; files := files w;
     readonly := readonly w; store := store w; clock := clock w |}.

Definition set_files (f : gmap string string -> gmap string string) (w : World) : World :=
  {| env := env w; homedir := homedir w; files := f (files w);
     readonly := readonly w; store := store w; clock := clock w |}.

Definition set_store (s : Backup.Store) (w : World) : World :=
  {| env := env w; homedir := homedir w; files := files w;
     readonly := readonly w; store := s; clock := clock w |}.

(** [fs.readFile(file, "utf8")] *)
Definition readFile (file : string) : M World string :=
  fun w =>
    match files w !! file with
    | Some content => (Returned content, w)
    | None => (Thrown "ENOENT", w)
    end.

(** [fs.writeFile(file, content, "utf8")] *)
Definition writeFile (file content : string) : M World unit :=
  fun w =>
    if Backup.mem file (readonly w) then (Thrown "EACCES", w)
    else (Returned tt, set_files (insert file content) w).

(** [backup.createBackup(scope, name, content)] *)
Definition createBackup (sc : Scope) (name content : string) : M World string :=
  fun w =>
    let '(r, s) := Backup.createBackup (scope_name sc) name content (clock w) (store w) in
    (r, set_store s w).

(** The results of this adapter. *)
Definition Result : Type := ResultOf Property.

(** [getRaw(name, { scope })] *)
Definition getRaw (name : string) (sc : Scope) : M World Property :=
  match sc with
  | session => gets (fun w => process_env (env w) name)
  | user => throw "Not implemented: getRaw user"
  | system => throw "Not implemented: getRaw system"
  end.

(** A match of [\$(\w+)|\${(\w+)}] at the head of [s], with the name it
    captures. *)
Definition ref_at (s : string) : option (string * string) :=
  match s with
  | String "$" r =>
      let '(v1, _) := span is_word r in
      if truthy v1 then Some (String "$" v1, v1)
      else match r with
           | String "{" r2 =>
               let '(v2, rest) := span is_word r2 in
               if truthy v2 && startsWith "}" rest
               then Some ("${" +:+ v2 +:+ "}", v2)
               else None
           | _ => None
           end
  | _ => None
  end.

(** The callback of [expand]. *)
Definition substitute (name : string) (e : gmap string string) (m v : string) : string :=
  if String.eqb v name then m else env_text e v.

Definition expand (name : string) (e : gmap string string) (val : string) : string :=
  replace_matches ref_at (substitute name e) val.

(** [getExpanded(name, { scope })]: a falsy [raw] is returned as it is; an
    inherited property is truthy and has no method [replace]. *)
Definition getExpanded (name : string) (sc : Scope) : M World Value :=
  raw <- getRaw name sc ;;
  match raw with
  | plain (Some val) =>
      if truthy val then e <- gets env ;; ret (Some (expand name e val))
      else ret (Some val)
  | plain None => ret None
  | inherited _ => throw "TypeError: val.replace is not a function"
  end.

(** Group 1 of the match of a line against [^export\s+(\w+)=] followed, up
    to the end of the line, by characters that are no line terminators. *)
Definition export_line (l : string) : option string :=
  if startsWith "export" l then
    let '(sp, r1) := span is_space (drop 6 l) in
    let '(w, r2) := span is_word r1 in
    match r2 with
    | String "=" r3 =>
        if truthy sp && truthy w && negb (any_char is_newline r3) then Some w else None
    | _ => None
    end
  else None.

Definition is_export_of (name l : string) : bool :=
  match export_line l with
  | Some n => String.eqb n name
  | None => false
  end.

Definition export_text (name value : string) : string :=
  "export " +:+ name +:+ "='" +:+ value +:+ "'".

Definition begin_marker : string := "# envm-begin".
Definition end_marker : string := "# envm-end".

(** The lines of the managed block. *)
Definition block_lines (content : string) : list string :=
  match between_delimiters (begin_marker +:+ LF) end_marker content with
  | Some b => str_split LF b
  | None => []
  end.

(** The file content after the managed block is rewritten with [lines]. *)
Definition with_block (lines : list string) (oldContent : string) : string :=
  let newBlock :=
    begin_marker +:+ LF +:+ arr_join LF (filter truthy lines) +:+ LF +:+ end_marker in
  let newContent := replace_delimited begin_marker end_marker newBlock oldContent in
  match index_of begin_marker newContent with
  | Some _ => newContent
  | None => newContent +:+ LF +:+ newBlock +:+ LF
  end.

(** The new content of the profile file in [set]. *)
Definition user_set_content (name value oldContent : string) : string :=
  let lines := block_lines oldContent in
  let found := existsb (is_export_of name) lines in
  let lines' :=
    map (fun l => if is_export_of name l then export_text name value else l) lines in
  with_block (if found then lines' else lines' ++ [export_text name value]) oldContent.

(** [l.match(new RegExp(`^export\s+${name}=`))]: in the template literal
    the escape [\s] is the letter s, so the pattern reads [^exports+NAME=].
    [name] is taken as literal text, which it is when made of word
    characters. *)
Fixpoint after_s (tail l : string) (seen : bool) : bool :=
  match l with
  | String "s" r => (seen && startsWith tail l) || after_s tail r true
  | _ => seen && startsWith tail l
  end.

Definition unset_pattern (name l : string) : bool :=
  startsWith "export" l && after_s (name +:+ "=") (drop 6 l) false.

(** The new content of the profile file in [unset]. *)
Definition user_unset_content (name oldContent : string) : string :=
  with_block (filter (fun l => negb (unset_pattern name l)) (block_lines oldContent))
             oldContent.

(** The new content of /etc/environment in [set] and in [unset]. *)
Definition system_set_content (name value oldContent : string) : string :=
  let lines := str_split LF oldContent in
  let found := existsb (startsWith (name +:+ "=")) lines in
  let text := name +:+ "='" +:+ value +:+ "'" in
  let lines' := map (fun l => if startsWith (name +:+ "=") l then text else l) lines in
  arr_join LF (if found then lines' else lines' ++ [text]).

Definition system_unset_content (name oldContent : string) : string :=
  arr_join LF (filter (fun l => negb (startsWith (name +:+ "=") l)) (str_split LF oldContent)).

Definition medium (sc : Scope) : M World string :=
  match sc with
  | user => gets (fun w => Backup.path_join (homedir w) ".profile")
  | _ => ret "/etc/environment"
  end.

(** The body shared by the [user] and [system] branches of [set] and
    [unset]; [intended] is the value the re-read is compared with and
    [content] computes the new file text. *)
Definition mutate_file (name : string) (intended : Value) (opts : Opts)
    (content : string -> string) : M World Result :=
  let sc := scope opts in
  file <- medium sc ;;
  oldContent <- try_catch (readFile file) (fun _ => ret EmptyString) ;;
  (if backup opts then createBackup sc name oldContent else ret EmptyString) ;;
  writeFile file (content oldContent) ;;
  raw <- getRaw name sc ;;
  let verification := same_property raw intended in
  rollback <-
    (if negb verification && rollbackOnFail opts && backup opts
     then writeFile file oldContent ;; ret rb_true
     else ret rb_undefined) ;;
  ret {| ok := verification; r_scope := sc; r_name := name; previous := plain None;
         next := intended; verification := verification; rollback := rollback;
         notes := [file] |}.

(** [set(name, value, opts)] *)
Definition set (name value : string) (opts : Opts) : M World Result :=
  match scope opts with
  | session =>
      prev <- gets (fun w => process_env (env w) name) ;;
      modify (set_env (insert name value)) ;;
      ret {| ok := true; r_scope := session; r_name := name; previous := prev;
             next := Some value; verification := true; rollback := rb_null;
             notes := ["session only"] |}
  | user => mutate_file name (Some value) opts (user_set_content name value)
  | system => mutate_file name (Some value) opts (system_set_content name value)
  end.

(** [unset(name, opts)] *)
Definition unset (name : string) (opts : Opts) : M World Result :=
  match scope opts with
  | session =>
      prev <- gets (fun w => process_env (env w) name) ;;
      modify (set_env (delete name)) ;;
      ret {| ok := true; r_scope := session; r_name := name; previous := prev;
             next := None; verification := true; rollback := rb_null;
             notes := ["session only"] |}
  | user => mutate_file name None opts (user_unset_content name)
  | system => mutate_file name None opts (system_unset_content name)
  end.

(** [restoreFromBackup(data, { scope })] *)
Definition restoreFromBackup (data : string) (sc : Scope) : M World bool :=
  match sc with
  | session => ret false
  | _ =>
      target <- medium sc ;;
      try_catch (writeFile target data ;; ret true) (fun _ => ret false)
  end.

(** *** The helpers for PATH-like variables

    The options are given after their defaults are applied: [name] is
    PATH, [unique] true, [validate] false and [delim] is [DELIM] when the
    caller leaves them out. *)

(** [get({ name, scope, raw })] *)
Definition get (name : string) (sc : Scope) (raw : bool) : M World Property :=
  if raw then getRaw name sc else (v <- getExpanded name sc ;; ret (plain v)).

(** [(await getRaw(name, { scope })) || ""] *)
Definition current (name : string) (sc : Scope) : M World Property :=
  raw <- getRaw name sc ;;
  ret (match raw with
       | plain None => plain (Some EmptyString)
       | _ => raw
       end).

(** [prepend({ name, scope, values, unique, validate, delim })] *)
Definition prepend (name : string) (sc : Scope) (values : list string)
    (unique validate : bool) (delim : string) : M World Result :=
  cur <- current name sc ;;
  old <- split_current cur delim ;;
  let segments := values ++ old in
  let segments := if unique then PathUtils.unique segments false else segments in
  if validate && negb (PathUtils.validate segments)
  then throw "Invalid path segments"
  else set name (PathUtils.join segments delim) (defaults sc).

(** [append({ name, scope, values, unique, validate, delim })] *)
Definition append (name : string) (sc : Scope) (values : list string)
    (unique validate : bool) (delim : string) : M World Result :=
  cur <- current name sc ;;
  old <- split_current cur delim ;;
  let segments := old ++ values in
  let segments := if unique then PathUtils.unique segments false else segments in
  if validate && negb (PathUtils.validate segments)
  then throw "Invalid path segments"
  else set name (PathUtils.join segments delim) (defaults sc).

(** [remove({ name, scope, values, delim })] *)
Definition remove (name : string) (sc : Scope) (values : list string)
    (delim : string) : M World Result :=
  cur <- current name sc ;;
  old <- split_current cur delim ;;
  let segments := filter (fun s => negb (includes values s)) old in
  set name (PathUtils.join segments delim) (defaults sc).

(** [sort({ name, scope, delim })] *)
Definition sort (name : string) (sc : Scope) (delim : string) : M World Result :=
  cur <- current name sc ;;
  old <- split_current cur delim ;;
  let segments := arr_sort_default old in
  set name (PathUtils.join segments delim) (defaults sc).

(** [unique({ name, scope, delim })] *)
Definition unique (name : string) (sc : Scope) (delim : string) : M World Result :=
  cur <- current name sc ;;
  old <- split_current cur delim ;;
  let segments := PathUtils.unique old false in
  set name (PathUtils.join segments delim) (defaults sc).

End Posix.

(* ------------------------------------------------------------------ *)
(** ** src/platform/win.mjs                                            *)
(* ------------------------------------------------------------------ *)

Module Win.
Import Js Re Async.
Local Open Scope async_scope.

Definition DELIM : string := ";".

Definition CASE_NORMALIZE (k : string) : string := toUpperCase k.

(** What the adapter can see and touch.  The registry is the host's and
    is reached only through its command-line tool; [calls] lists the
    invocations of the tool, oldest first.  The keys of [env] are in upper
    case, the form in which the adapter reads and writes them; no inherited
    property has such a name, so that [process.env[k]] is the variable or
    [undefined].  [tmp_writable] tells whether a file can be written in
    the directory [os.tmpdir()] names. *)
Record World (Registry : Type) : Type := {
  env : gmap string string;
  registry : Registry;
  calls : list (list string);
  store : Backup.Store;
  tmpdir : string;
  tmpfiles : gmap string string;
  tmp_writable : bool;
  clock : Z
}.
Arguments env {Registry} _.
Arguments registry {Registry} _.
Arguments calls {Registry} _.
Arguments store {Registry} _.
Arguments tmpdir {Registry} _.
Arguments tmpfiles {Registry} _.
Arguments tmp_writable {Registry} _.
Arguments clock {Registry} _.

Definition regPath (sc : Scope) : string :=
  match sc with
  | user => "HKCU\Environment"
  | _ => "HKLM\SYSTEM\CurrentControlSet\Control\Session Manager\Environment"
  end.

(** What follows [\s+REG_\w+] in a match of [\s+REG_\w+\s+(.+)]: white
    space [ws], then group 1.  The white space is taken greedily; when
    nothing follows it, it is given back one character at a time, and the
    group is the last of its characters, after the first, that is no line
    terminator. *)
Definition value_group (ws rest : string) : option string :=
  match rest with
  | String _ _ => Some (fst (span (fun c => negb (is_newline c)) rest))
  | EmptyString =>
      match ws with
      | String _ tail =>
          let last_ok :=
            (fix last (s : string) (found : option string) : option string :=
               match s with
               | EmptyString => found
               | String c r =>
                   last r (if is_newline c then found else Some (String c EmptyString))
               end) tail None in
          last_ok
      | EmptyString => None
      end
  end.

(** A match that starts with the white space just before [s]. *)
Definition value_after_space (s : string) : option string :=
  if startsWith "REG_" s then
    let '(w, r1) := span is_word (drop 4 s) in
    let '(ws, rest) := span is_space r1 in
    if truthy w && truthy ws then value_group ws rest else None
  else None.

(** Group 1 of [stdout.match(/\s+REG_\w+\s+(.+)/)]: the leftmost match.
    [spaced] tells whether the character before [s] is white space. *)
Fixpoint reg_value (s : string) (spaced : bool) : option string :=
  match s with
  | EmptyString => None
  | String c r =>
      match (if spaced && negb (is_space c) then value_after_space s else None) with
      | Some m => Some m
      | None => reg_value r (is_space c)
      end
  end.

(** A match of [%([A-Z0-9_]+)%], letters in either case, at the head of
    [s], with the name it captures. *)
Definition ref_at (s : string) : option (string * string) :=
  match s with
  | String "%" r =>
      let '(v, rest) := span is_word r in
      if truthy v && startsWith "%" rest
      then Some ("%" +:+ v +:+ "%", v)
      else None
  | _ => None
  end.

(** The callback of [expand]. *)
Definition substitute (name : string) (e : gmap string string) (m v : string) : string :=
  let v := CASE_NORMALIZE v in
  if String.eqb v name then m else env_or_empty e v.

Definition expand (name : string) (e : gmap string string) (val : string) : string :=
  replace_matches ref_at (substitute name e) val.

(** [win.mjs] is an ES module, in which the identifier [require] is not
    bound ([backup.mjs] asks [typeof require] before it touches it):
    evaluating [require(...)] throws. *)
Definition require {W : Type} (module : string) : M W unit :=
  throw "ReferenceError: require is not defined".

(** [String(n)] for an integer. *)
Definition decimal (n : Z) : string := DecimalString.NilZero.string_of_int (Z.to_int n).

Section Adapter.
Context {Registry : Type}.

(** [reg args]: the tool run on the registry; it prints its output or
    fails with a message. *)
Variable reg : list string -> Registry -> Outcome string * Registry.

Local Abbreviation W := (World Registry).

(** [execFileAsync("reg", args)], giving [stdout]. *)
Definition execFile (args : list string) : M W string :=
  fun w =>
    let '(r, g) := reg args (registry w) in
    (r, {| env := env w; registry := g; calls := calls w ++ [args];
           store := store w; tmpdir := tmpdir w; tmpfiles := tmpfiles w;
           tmp_writable := tmp_writable w; clock := clock w |}).

Definition set_env (f : gmap string string -> gmap string string) (w : W) : W :=
  {| env := f (env w); registry := registry w; calls := calls w;
     store := store w; tmpdir := tmpdir w; tmpfiles := tmpfiles w;
     tmp_writable := tmp_writable w; clock := clock w |}.

Definition set_store (s : Backup.Store) (w : W) : W :=
  {| env := env w; registry := registry w; calls := calls w;
     store := s; tmpdir := tmpdir w; tmpfiles := tmpfiles w;
     tmp_writable := tmp_writable w; clock := clock w |}.

Definition createBackup (sc : Scope) (name content : string) : M W string :=
  fun w =>
    let '(r, s) := Backup.createBackup (scope_name sc) name content (clock w) (store w) in
    (r, set_store s w).

(** [fs.readFile(backupPath, "utf8")] *)
Definition readBackup (path : string) : M W string :=
  fun w =>
    match find (fun e => String.eqb (Backup.path_join (Backup.dir_path (store w)) (fst e)) path)
               (Backup.entries (store w)) with
    | Some e => (Returned (snd e), w)
    | None => (Thrown "ENOENT", w)
    end.

(** [fs.writeFile(tmp, data, "utf8")] *)
Definition writeTmp (path data : string) : M W unit :=
  fun w =>
    if tmp_writable w then
      (Returned tt,
       {| env := env w; registry := registry w; calls := calls w;
          store := store w; tmpdir := tmpdir w;
          tmpfiles := <[path := data]> (tmpfiles w);
          tmp_writable := tmp_writable w; clock := clock w |})
    else (Thrown "EACCES", w).

(** [getRaw(name, { scope })] *)
Definition getRaw (name : string) (sc : Scope) : M W Value :=
  let name := CASE_NORMALIZE name in
  match sc with
  | session => gets (fun w => env w !! name)
  | _ =>
      try_catch
        (stdout <- execFile ["query"; regPath sc; "/v"; name] ;;
         ret (option_map trim (reg_value stdout false)))
        (fun _ => ret None)
  end.

(** [getExpanded(name, { scope })] *)
Definition getExpanded (name : string) (sc : Scope) : M W Value :=
  raw <- getRaw name sc ;;
  match raw with
  | Some val =>
      if truthy val then e <- gets env ;; ret (Some (expand name e val))
      else ret raw
  | None => ret raw
  end.

(** The backup step of [set] and [unset]: the path of the backup file,
    or [None] when nothing was written. *)
Definition export_backup (sc : Scope) (name : string) : M W (option string) :=
  try_catch
    (stdout <- execFile ["export"; regPath sc; "-"; "/y"] ;;
     path <- createBackup sc name stdout ;;
     ret (Some path))
    (fun _ => ret None).

(** The rollback step of [set] and [unset]. *)
Definition import_backup (sc : Scope) (backupPath : string) : M W Rollback :=
  try_catch
    (backupContent <- gets (fun w => Backup.list (scope_name sc) (store w)) ;;
     (match backupContent with
      | _ :: _ =>
          require "os" ;;
          now <- gets clock ;;
          dir <- gets tmpdir ;;
          let tmp := dir +:+ "\envm-rollback-" +:+ decimal now +:+ ".reg" in
          require "fs" ;;
          data <- readBackup backupPath ;;
          writeTmp tmp data ;;
          execFile ["import"; tmp] ;;
          ret tt
      | [] => ret tt
      end) ;;
     ret rb_true)
    (fun _ => ret rb_undefined).

(** The body shared by [set] and [unset] at [user] and [system] scope;
    [args] is the registry command that writes and [intended] the value
    the re-read is compared with. *)
Definition mutate_registry (name : string) (intended : Value) (opts : Opts)
    (args : list string) : M W Result :=
  let sc := scope opts in
  backupPath <- (if backup opts then export_backup sc name else ret None) ;;
  failure <- try_catch (execFile args ;; ret None) (fun e => ret (Some e)) ;;
  match failure with
  | Some message =>
      ret {| ok := false; r_scope := sc; r_name := name; previous := None;
             next := intended; verification := false; rollback := rb_null;
             notes := [message] |}
  | None =>
      raw <- getRaw name sc ;;
      let verification := same_value raw intended in
      rollback <-
        (match backupPath with
         | Some path =>
             if negb verification && rollbackOnFail opts && backup opts && truthy path
             then import_backup sc path
             else ret rb_undefined
         | None => ret rb_undefined
         end) ;;
      ret {| ok := verification; r_scope := sc; r_name := name; previous := None;
             next := intended; verification := verification; rollback := rollback;
             notes := [regPath sc] |}
  end.

(** [set(name, value, opts)] *)
Definition set (name value : string) (opts : Opts) : M W Result :=
  let name := CASE_NORMALIZE name in
  match scope opts with
  | session =>
      prev <- gets (fun w => env w !! name) ;;
      modify (set_env (insert name value)) ;;
      ret {| ok := true; r_scope := session; r_name := name; previous := prev;
             next := Some value; verification := true; rollback := rb_null;
             notes := ["session only"] |}
  | sc =>
      mutate_registry name (Some value) opts
        ["add"; regPath sc; "/v"; name; "/d"; value; "/f"]
  end.

(** [unset(name, opts)] *)
Definition unset (name : string) (opts : Opts) : M W Result :=
  let name := CASE_NORMALIZE name in
  match scope opts with
  | session =>
      prev <- gets (fun w => env w !! name) ;;
      modify (set_env (delete name)) ;;
      ret {| ok := true; r_scope := session; r_name := name; previous := prev;
             next := None; verification := true; rollback := rb_null;
             notes := ["session only"] |}
  | sc =>
      mutate_registry name None opts ["delete"; regPath sc; "/v"; name; "/f"]
  end.

(** [restoreFromBackup(data, { scope })] *)
Definition restoreFromBackup (data : string) (sc : Scope) : M W bool :=
  match sc with
  | session => ret false
  | _ =>
      now <- gets clock ;;
      dir <- gets tmpdir ;;
      let tmp := dir +:+ "\envm-restore-" +:+ decimal now +:+ ".reg" in
      writeTmp tmp data ;;
      try_catch (execFile ["import"; tmp] ;; ret true) (fun _ => ret false)
  end.

(** *** The helpers for PATH-like variables

    As on POSIX, with [DELIM] the semicolon and duplicates recognised
    without regard to case. *)

(** [get({ name, scope, raw })] *)
Definition get (name : string) (sc : Scope) (raw : bool) : M W Value :=
  if raw then getRaw name sc else getExpanded name sc.

(** [(await getRaw(name, { scope })) || ""] *)
Definition current (name : string) (sc : Scope) : M W string :=
  raw <- getRaw name sc ;;
  ret (match raw with
       | Some v => v
       | None => EmptyString
       end).

(** [prepend({ name, scope, values, unique, validate, delim })] *)
Definition prepend (name : string) (sc : Scope) (values : list string)
    (unique validate : bool) (delim : string) : M W Result :=
  cur <- current name sc ;;
  let segments := values ++ PathUtils.split cur delim in
  let segments := if unique then PathUtils.unique segments true else segments in
  if validate && negb (PathUtils.validate segments)
  then throw "Invalid path segments"
  else set name (PathUtils.join segments delim) (defaults sc).

(** [append({ name, scope, values, unique, validate, delim })] *)
Definition append (name : string) (sc : Scope) (values : list string)
    (unique validate : bool) (delim : string) : M W Result :=
  cur <- current name sc ;;
  let segments := PathUtils.split cur delim ++ values in
  let segments := if unique then PathUtils.unique segments true else segments in
  if validate && negb (PathUtils.validate segments)
  then throw "Invalid path segments"
  else set name (PathUtils.join segments delim) (defaults sc).

(** [remove({ name, scope, values, delim })] *)
Definition remove (name : string) (sc : Scope) (values : list string)
    (delim : string) : M W Result :=
  cur <- current name sc ;;
  let segments := filter (fun s => negb (includes values s)) (PathUtils.split cur delim) in
  set name (PathUtils.join segments delim) (defaults sc).

(** [sort({ name, scope, delim })] *)
Definition sort (name : string) (sc : Scope) (delim : string) : M W Result :=
  cur <- current name sc ;;
  let segments := arr_sort_default (PathUtils.split cur delim) in
  set name (PathUtils.join segments delim) (defaults sc).

(** [unique({ name, scope, delim })] *)
Definition unique (name : string) (sc : Scope) (delim : string) : M W Result :=
  cur <- current name sc ;;
  let segments := PathUtils.unique (PathUtils.split cur delim) true in
  set name (PathUtils.join segments delim) (defaults sc).
End Adapter.

End Win.

(* ------------------------------------------------------------------ *)
(** ** src/backup.mjs: restore                                         *)
(* ------------------------------------------------------------------ *)

Module Restore.
Import Js Re Async.
Local Open Scope async_scope.

(** [.+\.bak$] on what follows the name and its hyphen: at least one
    character before the extension, and no line terminator. *)
Definition bak_tail (t : string) : bool :=
  negb (any_char is_newline t) && (5 <=? String.length t)
  && String.eqb (drop (String.length t - 4) t) ".bak".

(** The pattern with one of the three scopes in its first group: the
    name is the longest run of word characters, which a hyphen must
    follow. *)
Definition scoped (sc : Scope) (id : string) : option (Scope * string) :=
  let lead := scope_name sc +:+ "-" in
  if startsWith lead id then
    let '(name, rest) := span is_word (drop (String.length lead) id) in
    match rest with
    | String "-" tail =>
        if truthy name && bak_tail tail then Some (sc, name) else None
    | _ => None
    end
  else None.

(** Groups 1 and 2 of [id.match(/^(session|user|system)-(\w+)-.+\.bak$/)]. *)
Definition backup_id (id : string) : option (Scope * string) :=
  match scoped session id with
  | Some m => Some m
  | None =>
      match scoped user id with
      | Some m => Some m
      | None => scoped system id
      end
  end.

Section Platform.
Context {W : Type}.

(** The backup directory of a world, and [restoreFromBackup] of the
    platform module that [process.platform] selects. *)
Variable store_of : W -> Backup.Store.
Variable restoreFromBackup : string -> Scope -> M W bool.

(** [fs.readFile(file, "utf8")] for a file of the backup directory. *)
Definition readFile (file : string) : M W string :=
  fun w =>
    let st := store_of w in
    match find (fun e => String.eqb (Backup.path_join (Backup.dir_path st) (fst e)) file)
               (Backup.entries st) with
    | Some e => if Backup.dir_exists st then (Returned (snd e), w) else (Thrown "ENOENT", w)
    | None => (Thrown "ENOENT", w)
    end.

(** [restore(id)] *)
Definition restore (id : string) : M W bool :=
  dir <- gets (fun w => Backup.dir_path (store_of w)) ;;
  let file := Backup.path_join dir id in
  content <- try_catch (c <- readFile file ;; ret (Some c)) (fun _ => ret None) ;;
  match content with
  | None => ret false
  | Some content =>
      match backup_id id with
      | None => ret false
      | Some (sc, _) =>
          try_catch (restoreFromBackup content sc) (fun _ => ret false)
      end
  end.
End Platform.

(** [restore] where [process.platform] is not [win32], and where it is. *)
Definition on_posix (id : string) : M Posix.World bool :=
  restore Posix.store Posix.restoreFromBackup id.

Definition on_win {Registry : Type}
    (reg : list string -> Registry -> Outcome string * Registry) (id : string)
    : M (Win.World Registry) bool :=
  restore Win.store (Win.restoreFromBackup reg) id.

End Restore.

(* ------------------------------------------------------------------ *)
(** ** A registry to run the Windows adapter on                        *)
(* ------------------------------------------------------------------ *)

Module RegSim.
Import Js.

(** The values of the two environment keys, and whether the process may
    write the machine key. *)
Record Registry : Type := {
  hkcu : list (string * string);
  hklm : list (string * string);
  elevated : bool
}.

Definition CRLF : string :=
  String (ascii_of_nat 13) (String (ascii_of_nat 10) EmptyString).

Definition is_user_key (path : string) : bool := String.eqb path "HKCU\Environment".

Definition values (path : string) (r : Registry) : list (string * string) :=
  if is_user_key path then hkcu r else hklm r.

Definition with_values (path : string) (vs : list (string * string)) (r : Registry)
    : Registry :=
  if is_user_key path
  then {| hkcu := vs; hklm := hklm r; elevated := elevated r |}
  else {| hkcu := hkcu r; hklm := vs; elevated := elevated r |}.

Definition writable (path : string) (r : Registry) : bool :=
  is_user_key path || elevated r.

(** Value names do not distinguish case. *)
Definition same_name (a b : string) : bool :=
  String.eqb (toUpperCase a) (toUpperCase b).

Definition full_key (path : string) : string :=
  if is_user_key path then "HKEY_CURRENT_USER\Environment"
  else "HKEY_LOCAL_MACHINE\SYSTEM\CurrentControlSet\Control\Session Manager\Environment".

Definition render (vs : list (string * string)) : string :=
  fold_right (fun e acc => "    " +:+ fst e +:+ "    REG_SZ    " +:+ snd e +:+ CRLF +:+ acc)
             EmptyString vs.

Fixpoint put (name data : string) (vs : list (string * string)) : list (string * string) :=
  match vs with
  | [] => [(name, data)]
  | (n, d) :: r => if same_name n name then (n, data) :: r else (n, d) :: put name data r
  end.

(** The tool [reg] with the sub-commands and switches the adapter uses. *)
Definition reg (args : list string) (r : Registry) : Outcome string * Registry :=
  match args with
  | ["query"; path; "/v"; name] =>
      match find (fun e => same_name (fst e) name) (values path r) with
      | Some e => (Returned (CRLF +:+ full_key path +:+ CRLF +:+ render [e] +:+ CRLF), r)
      | None =>
          (Thrown "ERROR: The system was unable to find the specified registry key or value.", r)
      end
  | ["add"; path; "/v"; name; "/d"; data; "/f"] =>
      if writable path r
      then (Returned "The operation completed successfully.",
            with_values path (put name data (values path r)) r)
      else (Thrown "ERROR: Access is denied.", r)
  | ["delete"; path; "/v"; name; "/f"] =>
      if negb (writable path r) then (Thrown "ERROR: Access is denied.", r)
      else if existsb (fun e => same_name (fst e) name) (values path r)
      then (Returned "The operation completed successfully.",
            with_values path
              (filter (fun e => negb (same_name (fst e) name)) (values path r)) r)
      else (Thrown "ERROR: The system was unable to find the specified registry key or value.", r)
  | ["export"; path; "-"; "/y"] =>
      (Returned (full_key path +:+ CRLF +:+ render (values path r)), r)
  | ["import"; _] => (Returned "The operation completed successfully.", r)
  | _ => (Thrown "ERROR: Invalid syntax.", r)
  end.

End RegSim.

(* ------------------------------------------------------------------ *)
(** ** Worlds to run the adapters on                                   *)
(* ------------------------------------------------------------------ *)

Module Fixtures.

Definition empty_store : Backup.Store :=
  {| Backup.dir_path := "/tmp/x"; Backup.dir_exists := false; Backup.entries := [];
     Backup.locked := []; Backup.dir_writable := true |}.

(** 2025-08-11T12:00:00.123Z *)
Definition noon : Z := 1754913600123.

Definition posix_world : Posix.World :=
  {| Posix.env := ∅; Posix.homedir := "/home/u";
     Posix.files := {[ "/etc/environment" := "LANG='C'" ]};
     Posix.readonly := ["/etc/environment"];
     Posix.store := empty_store; Posix.clock := noon |}.

Definition registry0 : RegSim.Registry :=
  {| RegSim.hkcu := [("Path", "C:\bin")]; RegSim.hklm := [("OS", "Windows_NT")];
     RegSim.elevated := false |}.

Definition win_world : Win.World RegSim.Registry :=
  {| Win.env := {[ "FOO" := "x%FOO%" ]}; Win.registry := registry0; Win.calls := [];
     Win.store := empty_store; Win.tmpdir := "C:\Temp"; Win.tmpfiles := ∅;
     Win.tmp_writable := true; Win.clock := noon |}.

(** A backup directory with several scopes. *)
Definition busy_store : Backup.Store :=
  {| Backup.dir_path := "/tmp/x"; Backup.dir_exists := true;
     Backup.entries := [("user-PATH-2020-01-01T00-00-00-000Z.bak", "a");
                        ("user-PATH-2021-01-01T00-00-00-000Z.bak", "b");
                        ("system-PATH-2021-01-01T00-00-00-000Z.bak", "b");
                        ("user-PATH-2022-01-01T00-00-00-000Z.bak", "c");
                        ("7-x", "d"); ("10-x", "d"); ("7-y", "d")];
     Backup.locked := ["7-x"]; Backup.dir_writable := true |}.

(** A backup directory with one old file. *)
Definition old_store : Backup.Store :=
  {| Backup.dir_path := "/tmp/x"; Backup.dir_exists := true;
     Backup.entries := [("user-PATH-2020-01-01T00-00-00-000Z.bak", "/usr/bin")];
     Backup.locked := []; Backup.dir_writable := true |}.

End Fixtures.

(* ------------------------------------------------------------------ *)
(** ** Vocabulary of the statements                                    *)
(* ------------------------------------------------------------------ *)

Module Spec.

(** [v] is absent from the environment table or bound to the empty string. *)
Definition unbound (e : gmap string string) (v : string) : Prop :=
  e !! v = None \/ e !! v = Some EmptyString.

(** No variable is named [v], and [v] is the name of a property that every
    object inherits: [process.env[v]] is that property. *)
Definition inherits (e : gmap string string) (v : string) : Prop :=
  e !! v = None /\ Backup.mem v Backup.inherited_keys = true.

Definition with_verify (b : bool) (o : Opts) : Opts :=
  {| scope := scope o; backup := backup o; verify := b;
     rollbackOnFail := rollbackOnFail o |}.

(** The registry tool answers a query without changing the registry. *)
Definition query_reads {Registry : Type}
    (reg : list string -> Registry -> Js.Outcome string * Registry) : Prop :=
  forall path name g, snd (reg ["query"; path; "/v"; name] g) = g.

(** Once the registry tool has deleted a value, its query for the value
    fails. *)
Definition delete_removes {Registry : Type}
    (reg : list string -> Registry -> Js.Outcome string * Registry) : Prop :=
  forall path name g,
    match fst (reg ["delete"; path; "/v"; name; "/f"] g) with
    | Js.Returned _ =>
        exists e,
          fst (reg ["query"; path; "/v"; name]
                 (snd (reg ["delete"; path; "/v"; name; "/f"] g))) = Js.Thrown e
    | Js.Thrown _ => True
    end.

(** No segment is empty or holds the delimiter character. *)
Definition clean_segment (d : ascii) (s : string) : Prop :=
  Js.truthy s = true /\ Js.any_char (Ascii.eqb d) s = false.

(** No white space at either end. *)
Definition trimmed (s : string) : Prop := Js.trim s = s.

End Spec.

(** Worlds for the statements about expansion. *)
Module ExpandFixtures.

Definition posix_env_world (e : gmap string string) : Posix.World :=
  {| Posix.env := e; Posix.homedir := "/home/u"; Posix.files := ∅;
     Posix.readonly := []; Posix.store := Fixtures.empty_store;
     Posix.clock := Fixtures.noon |}.

Definition plain_world : Posix.World := posix_env_world {[ "A" := "x$NOPE/y" ]}.
Definition braced_world : Posix.World := posix_env_world {[ "A" := "x${NOPE}/y" ]}.

Definition win_env_world (e : gmap string string) : Win.World RegSim.Registry :=
  {| Win.env := e; Win.registry := Fixtures.registry0;
     Win.calls := []; Win.store := Fixtures.empty_store; Win.tmpdir := "C:\Temp";
     Win.tmpfiles := ∅; Win.tmp_writable := true; Win.clock := Fixtures.noon |}.

Definition percent_world : Win.World RegSim.Registry :=
  win_env_world {[ "A" := "x%nope%/y" ]}.

End ExpandFixtures.

(* ------------------------------------------------------------------ *)
(** ** purge: the vocabulary of its properties                         *)
(* ------------------------------------------------------------------ *)

Module PurgeSpec.
Import Js.
Import Backup(Store, entries, locked, names, with_entries, mem, tooOld, scope_of,
              Groups, group_files, for_in, sort_desc, inherited_keys).

(** The store with the files named in [D] removed. *)
Definition without (D : list string) (st : Store) : Store :=
  with_entries st (filter (fun e => negb (mem (fst e) D)) (entries st)).

Section OneCall.
Variables (maxPerScope maxAgeDays now : Z).

(** The test that guards [unlink] in the inner loop. *)
Definition attempt (i : nat) (f : string) : bool :=
  (maxPerScope <=? Z.of_nat i)%Z || tooOld now maxAgeDays f.

(** The files of a sorted group, met from index [i] on, that the loop
    removes, and those it leaves. *)
Fixpoint doomed (lk : list string) (i : nat) (group : list string) : list string :=
  match group with
  | [] => []
  | f :: r =>
      if attempt i f && negb (mem f lk)
      then f :: doomed lk (S i) r
      else doomed lk (S i) r
  end.

Fixpoint kept (lk : list string) (i : nat) (group : list string) : list string :=
  match group with
  | [] => []
  | f :: r =>
      if attempt i f && negb (mem f lk)
      then kept lk (S i) r
      else f :: kept lk (S i) r
  end.

End OneCall.

(** The files of scope prefix [k], in directory order. *)
Definition grp (k : string) (files : list string) : list string :=
  filter (fun f => String.eqb (scope_of f) k) files.

(** What the grouping loop has built once the files [seen] are behind it. *)
Definition grouped (o : Groups) (seen : list string) : Prop :=
  (forall k fs, In (k, fs) o -> fs = grp k seen) /\
  NoDup (map fst o) /\
  (forall f, In f seen -> In (scope_of f) (map fst o)) /\
  (forall k, In k (map fst o) -> mem k inherited_keys = false).

(** The loop throws exactly when some scope prefix names a property
    inherited from [Object.prototype]. *)
Definition groupable (files : list string) : bool :=
  forallb (fun f => negb (mem (scope_of f) inherited_keys)) files.

Definition push_error : string := "TypeError: byScope[scope].push is not a function".

Section Calls.
Variable localeCompare : string -> string -> comparison.
Variables (maxPerScope maxAgeDays now : Z).

(** Every file one call removes, group after group. *)
Definition removed (lk : list string) (gs : Groups) : list string :=
  concat (map (fun g => doomed maxPerScope maxAgeDays now lk 0 (sort_desc localeCompare (snd g))) gs).

(** The files one call removes from a store. *)
Definition removed_from (st : Store) : list string :=
  match group_files (names st) [] with
  | Returned byScope => removed (locked st) (for_in byScope)
  | Thrown _ => []
  end.

End Calls.

(** The store after [n] calls of [purge] in a row. *)
Fixpoint purge_times (lc : string -> string -> comparison) (mps mad now : Z)
    (n : nat) (st : Store) : Store :=
  match n with
  | O => st
  | S k => purge_times lc mps mad now k (snd (Backup.purge lc mps mad now st))
  end.

(** Code-unit order, one collation a host may have. *)
Definition codeUnitCompare (a b : string) : comparison := String.compare a b.

End PurgeSpec.

(** A profile file with a managed block. *)
Module ProfileFixtures.

Definition profile_with (value : string) : string :=
  "PATH=/bin" +:+ Posix.LF +:+ "# envm-begin" +:+ Posix.LF +:+
  "export FOO='" +:+ value +:+ "'" +:+ Posix.LF +:+ "# envm-end" +:+ Posix.LF.

End ProfileFixtures.

(* ------------------------------------------------------------------ *)
(** ** Vocabulary of the further properties                            *)
(* ------------------------------------------------------------------ *)

(** Names and values as the host takes them. *)
Module EnvSpec.
Import Js.

(** A name of an environment variable: word characters, at least one. *)
Definition variable_name (name : string) : Prop :=
  truthy name = true /\ all_chars is_word name = true.

(** A value the environment of a process can hold: no NUL character. *)
Definition storable (value : string) : Prop :=
  any_char (Ascii.eqb (ascii_of_nat 0)) value = false.

(** A name of a file of a directory: no path separator. *)
Definition plain_name (id : string) : Prop :=
  any_char (fun c => Ascii.eqb c "/" || Ascii.eqb c "\") id = false.

End EnvSpec.

(** Segments of PATH-like values. *)
Module PathSpec.
Import Js.

(** The key under which [unique] remembers a segment. *)
Definition key (caseInsensitive : bool) (s : string) : string :=
  if caseInsensitive then toUpperCase s else s.

(** How often the character [d] occurs in [s]. *)
Fixpoint occurrences (d : ascii) (s : string) : nat :=
  match s with
  | EmptyString => 0
  | String c r => (if Ascii.eqb d c then 1 else 0) + occurrences d r
  end.

(** [s] holds no [d]. *)
Definition free_of (d : ascii) (s : string) : Prop :=
  any_char (Ascii.eqb d) s = false.

(** [s] is empty or begins with a character that is no white space. *)
Definition headed (s : string) : Prop :=
  match s with
  | String c _ => is_space c = false
  | EmptyString => True
  end.

(** The segments of the variable [name] in the environment table [e]. *)
Definition segments (d : ascii) (e : gmap string string) (name : string) : list string :=
  PathUtils.split (env_or_empty e name) (String d EmptyString).

(** The order [sort] leaves two neighbours in. *)
Definition ascending (a b : string) : Prop := code_unit_order a b <> Gt.

End PathSpec.

(** Backup files. *)
Module BackupSpec.
Import Js.

(** The time stamp in the name of a backup file: the clock reading in
    ISO form, its colons and its point turned into hyphens. *)
Definition stamp (now : Z) : string :=
  replace_all_char "." "-" (replace_all_char ":" "-" (toISOString now)).

(** The content [readFile] finds under a name of the directory. *)
Definition content_of (id : string) (st : Backup.Store) : Outcome string :=
  fst (Restore.readFile (fun s => s) (Backup.path_join (Backup.dir_path st) id) st).

End BackupSpec.

(** Mutations of the registry. *)
Module RegistrySpec.

(** The result of [set] and [unset] when the registry command fails. *)
Definition failed (sc : Scope) (name : string) (intended : Value) (message : string)
    : Result :=
  {| ok := false; r_scope := sc; r_name := name; previous := None; next := intended;
     verification := false; rollback := rb_null; notes := [message] |}.


(** What a step that runs the commands [cs] leaves alone. *)
Definition same_but_registry {Registry : Type} (w w' : Win.World Registry)
    (cs : list (list string)) : Prop :=
  Win.env w' = Win.env w /\ Win.store w' = Win.store w /\
  Win.tmpfiles w' = Win.tmpfiles w /\ Win.tmpdir w' = Win.tmpdir w /\
  Win.clock w' = Win.clock w /\ Win.calls w' = Win.calls w ++ cs.

End RegistrySpec.

(** The files of the POSIX adapter. *)
Module PosixSpec.

(** The file a mutation at user or system scope rewrites, and the content
    it starts from: the content of the file, or the empty string when the
    file cannot be read. *)
Definition target (sc : Scope) (w : Posix.World) : string :=
  match sc with
  | user => Backup.path_join (Posix.homedir w) ".profile"
  | _ => "/etc/environment"
  end.

Definition content (file : string) (w : Posix.World) : string :=
  match Posix.files w !! file with
  | Some c => c
  | None => EmptyString
  end.

(** The lines of a file. *)
Definition lines (c : string) : list string := Js.str_split Posix.LF c.

(** The character of [Posix.LF]. *)
Definition lf : ascii := ascii_of_nat 10.

End PosixSpec.

(** The output of a registry query. *)
Module QuerySpec.
Import Js.

(** A text that begins with a character that is no white space. *)
Definition begins_black (s : string) : Prop :=
  match s with
  | String c _ => is_space c = false
  | EmptyString => False
  end.

(** The end of a line: nothing, or a text that begins with a line
    terminator. *)
Definition line_end (s : string) : Prop :=
  match s with
  | String c _ => is_newline c = true
  | EmptyString => True
  end.

End QuerySpec.

(** Further backup directories. *)
Module StoreFixtures.

(** A backup directory whose files can all be deleted. *)
Definition plain_store : Backup.Store :=
  {| Backup.dir_path := "/tmp/x"; Backup.dir_exists := true;
     Backup.entries := [("user-PATH-2020-01-01T00-00-00-000Z.bak", "a");
                        ("user-PATH-2021-01-01T00-00-00-000Z.bak", "b");
                        ("system-PATH-2021-01-01T00-00-00-000Z.bak", "b");
                        ("user-PATH-2022-01-01T00-00-00-000Z.bak", "c");
                        ("user-HOME-2023-01-01T00-00-00-000Z.bak", "d")];
     Backup.locked := []; Backup.dir_writable := true |}.

(** A backup directory with a file whose name begins like a property
    that every object inherits. *)
Definition odd_store : Backup.Store :=
  {| Backup.dir_path := "/tmp/x"; Backup.dir_exists := true;
     Backup.entries := [("user-A-1.bak", "a"); ("toString-A-1.bak", "b")];
     Backup.locked := []; Backup.dir_writable := true |}.

End StoreFixtures.

(* ================================================================== *)
(** * Properties                                                       *)
(* ================================================================== *)

Module PathUtilsExamples.
Import Js PathUtils.

Example split_abc : split "a:b:c" ":" = ["a"; "b"; "c"].
Proof. reflexivity. Qed.

Example split_multi : str_split "ab" "xabyabab" = ["x"; "y"; ""; ""].
Proof. reflexivity. Qed.

Example join_abc : join ["a"; ""; "b"; "c"] ":" = "a:b:c".
Proof. reflexivity. Qed.

Example unique_ci : unique ["A"; "b"; "a"] true = ["A"; "b"].
Proof. reflexivity. Qed.

End PathUtilsExamples.

Module JsExamples.
Import Js.

Example iso_epoch : toISOString 0 = "1970-01-01T00:00:00.000Z".
Proof. reflexivity. Qed.

Example iso_2025 : toISOString 1754913600123 = "2025-08-11T12:00:00.123Z".
Proof. vm_compute. reflexivity. Qed.

Example parse_2025 : Date_parse "2025-08-11T12:00:00.123Z" = Some 1754913600123%Z.
Proof. vm_compute. reflexivity. Qed.

Example parse_date_only : Date_parse "2025-08-11" = Some 1754870400000%Z.
Proof. vm_compute. reflexivity. Qed.

Example parse_colons : Date_parse "2025:08:11T12:00:.00Z" = None.
Proof. reflexivity. Qed.

Example sort_desc :
  arr_sort (fun a b => String.compare b a) ["a"; "c"; "b"] = ["c"; "b"; "a"].
Proof. reflexivity. Qed.

End JsExamples.



(* ------------------------------------------------------------------ *)
(** ** Stable sort                                                     *)
(* ------------------------------------------------------------------ *)

Module SortFacts.
Import Js.

Section Consistent.
Context {A : Type} (cmp : A -> A -> comparison).

Hypothesis Hcmp : consistent cmp.

Lemma precedes_total a b : cmp a b = Gt -> (precedes cmp) b a.
Proof.
  intros Hab. unfold precedes. destruct Hcmp as [Hopp _].
  rewrite (Hopp b a), Hab. discriminate.
Qed.

Lemma precedes_trans a b c : (precedes cmp) a b -> (precedes cmp) b c -> (precedes cmp) a c.
Proof. destruct Hcmp as [_ Htr]. apply Htr. Qed.

Lemma sort_insert_In x y l : In y (sort_insert cmp x l) <-> y = x \/ In y l.
Proof.
  induction l as [|z l IH]; simpl.
  - intuition.
  - destruct (cmp x z); simpl; rewrite ?IH; intuition.
Qed.

Lemma arr_sort_In y l : In y (arr_sort cmp l) <-> In y l.
Proof.
  induction l as [|x l IH]; simpl; [tauto|].
  rewrite sort_insert_In, IH. intuition.
Qed.

Lemma sort_insert_front x l :
  Forall ((precedes cmp) x) l -> sort_insert cmp x l = x :: l.
Proof.
  destruct l as [|y l]; [reflexivity|].
  intros H. inversion H as [|? ? Hxy _]; subst. simpl.
  unfold precedes in Hxy. destruct (cmp x y); congruence.
Qed.

Lemma sort_insert_sorted x l :
  StronglySorted (precedes cmp) l -> StronglySorted (precedes cmp) (sort_insert cmp x l).
Proof.
  induction 1 as [|y l Hs IH Hy]; simpl.
  - repeat constructor.
  - destruct (cmp x y) eqn:E.
    + constructor; [constructor; assumption|].
      assert (Hxy : (precedes cmp) x y) by (unfold precedes; congruence).
      constructor; [assumption|].
      apply Forall_forall. intros z Hz.
      rewrite Forall_forall in Hy.
      eapply precedes_trans; [exact Hxy | apply Hy; assumption].
    + constructor; [constructor; assumption|].
      assert (Hxy : (precedes cmp) x y) by (unfold precedes; congruence).
      constructor; [assumption|].
      apply Forall_forall. intros z Hz.
      rewrite Forall_forall in Hy.
      eapply precedes_trans; [exact Hxy | apply Hy; assumption].
    + constructor; [assumption|].
      apply Forall_forall. intros z Hz.
      apply sort_insert_In in Hz. destruct Hz as [->|Hz].
      * apply precedes_total; assumption.
      * rewrite Forall_forall in Hy. apply Hy; assumption.
Qed.

Lemma arr_sort_sorted l : StronglySorted (precedes cmp) (arr_sort cmp l).
Proof.
  induction l as [|x l IH]; simpl; [constructor|].
  apply sort_insert_sorted; assumption.
Qed.

Lemma filter_insert_out (p : A -> bool) x l :
  p x = false -> List.filter p (sort_insert cmp x l) = List.filter p l.
Proof.
  intros Hp. induction l as [|y l IH]; simpl.
  - rewrite Hp. reflexivity.
  - destruct (cmp x y); simpl; rewrite ?Hp, ?IH; reflexivity.
Qed.

Lemma filter_insert_in (p : A -> bool) x l :
  p x = true -> StronglySorted (precedes cmp) l ->
  List.filter p (sort_insert cmp x l) = sort_insert cmp x (List.filter p l).
Proof.
  intros Hp. induction 1 as [|y l Hs IH Hy].
  - simpl. rewrite Hp. reflexivity.
  - cbn [sort_insert]. destruct (cmp x y) eqn:E.
    1,2: rewrite sort_insert_front; [simpl; rewrite Hp; reflexivity|];
      apply Forall_forall; intros z Hz; apply filter_In in Hz as [Hz _];
      assert (Hxy : (precedes cmp) x y) by (unfold precedes; congruence);
      destruct Hz as [<-|Hz]; [assumption|];
      rewrite Forall_forall in Hy;
      eapply precedes_trans; [exact Hxy | apply Hy; assumption].
    simpl. destruct (p y); simpl.
    + rewrite E, IH. reflexivity.
    + exact IH.
Qed.

(** Sorting commutes with filtering: what remains of a sorted array after
    some elements are taken out is the sorted array of what remains. *)
Lemma arr_sort_filter (p : A -> bool) l :
  arr_sort cmp (List.filter p l) = List.filter p (arr_sort cmp l).
Proof.
  induction l as [|x l IH]; simpl; [reflexivity|].
  destruct (p x) eqn:Hp; simpl.
  - rewrite filter_insert_in by (auto using arr_sort_sorted). rewrite IH. reflexivity.
  - rewrite filter_insert_out by assumption. exact IH.
Qed.

Lemma sort_insert_NoDup x l :
  ~ In x l -> NoDup l -> NoDup (sort_insert cmp x l).
Proof.
  induction l as [|y l IH]; intros Hx Hl.
  - constructor; [exact Hx|constructor].
  - cbn [sort_insert]. destruct (cmp x y).
    1,2: constructor; [exact Hx | assumption].
    inversion Hl as [|? ? Hy Hl']; subst. constructor.
    + rewrite sort_insert_In. intros [->|H]; [apply Hx; left; reflexivity|tauto].
    + apply IH; [intros H; apply Hx; right; exact H|assumption].
Qed.

Lemma arr_sort_NoDup l : NoDup l -> NoDup (arr_sort cmp l).
Proof.
  induction 1 as [|x l Hx Hl IH]; simpl; [constructor|].
  apply sort_insert_NoDup; [|assumption].
  rewrite arr_sort_In. assumption.
Qed.
End Consistent.

End SortFacts.

(* ------------------------------------------------------------------ *)
(** ** purge: what one call removes                                    *)
(* ------------------------------------------------------------------ *)

Module PurgeFacts.
Import Js PurgeSpec.
Import Backup(Store, entries, locked, names, with_entries, mem, unlink,
              tooOld, purge_group, purge_groups, sort_desc, Groups).

Lemma mem_In x l : mem x l = true <-> In x l.
Proof.
  unfold mem. rewrite existsb_exists. split.
  - intros [y [Hy E]]. apply String.eqb_eq in E. subst. assumption.
  - intros H. exists x. split; [assumption|apply String.eqb_refl].
Qed.

Lemma mem_app x l1 l2 : mem x (l1 ++ l2) = mem x l1 || mem x l2.
Proof. unfold mem. apply existsb_app. Qed.

Lemma mem_false x l : mem x l = false <-> ~ In x l.
Proof.
  rewrite <- mem_In. destruct (mem x l); split; congruence.
Qed.

Lemma names_without D st :
  names (without D st) = filter (fun f => negb (mem f D)) (names st).
Proof.
  unfold names, without, with_entries. simpl.
  induction (entries st) as [|e es IH]; simpl; [reflexivity|].
  destruct (mem (fst e) D); simpl; rewrite IH; reflexivity.
Qed.

Lemma without_nil st : without [] st = st.
Proof.
  unfold without, with_entries. simpl. rewrite filter_true.
  destruct st; reflexivity.
Qed.

Lemma without_without D1 D2 st :
  without D2 (without D1 st) = without (D1 ++ D2) st.
Proof.
  unfold without, with_entries. simpl. f_equal.
  induction (entries st) as [|e es IH]; simpl; [reflexivity|].
  rewrite mem_app. destruct (mem (fst e) D1); simpl; [exact IH|].
  destruct (mem (fst e) D2); simpl; rewrite IH; reflexivity.
Qed.

Lemma locked_without D st : locked (without D st) = locked st.
Proof. reflexivity. Qed.

Lemma length_without D st :
  length (entries (without D st)) <= length (entries st).
Proof. unfold without, with_entries. simpl. apply filter_length_le. Qed.

Lemma unlink_present f st :
  In f (names st) -> mem f (locked st) = false ->
  unlink f st = (without [f] st, true).
Proof.
  intros Hin Hl. unfold unlink.
  apply mem_In in Hin. rewrite Hin, Hl. simpl.
  unfold without. do 2 f_equal. apply filter_ext. intros e.
  unfold mem. simpl. rewrite orb_false_r. reflexivity.
Qed.

Lemma unlink_locked f st :
  mem f (locked st) = true -> unlink f st = (st, false).
Proof.
  intros Hl. unfold unlink. rewrite Hl, andb_false_r. reflexivity.
Qed.

Section OneCall.
Variables (maxPerScope maxAgeDays now : Z).

Local Abbreviation attempt := (PurgeSpec.attempt maxPerScope maxAgeDays now).
Local Abbreviation doomed := (PurgeSpec.doomed maxPerScope maxAgeDays now).
Local Abbreviation kept := (PurgeSpec.kept maxPerScope maxAgeDays now).

Lemma doomed_In lk i group f : In f (doomed lk i group) -> In f group.
Proof.
  revert i. induction group as [|g r IH]; simpl; intros i H; [assumption|].
  destruct (attempt i g && negb (mem g lk)).
  - destruct H as [H|H]; [left; assumption|right; eapply IH; eassumption].
  - right. eapply IH; eassumption.
Qed.

Lemma kept_filter lk i group :
  NoDup group ->
  kept lk i group = filter (fun f => negb (mem f (doomed lk i group))) group.
Proof.
  intros Hnd. revert i. induction Hnd as [|g r Hg Hr IH]; intros i; simpl; [reflexivity|].
  destruct (attempt i g && negb (mem g lk)); simpl.
  - unfold mem at 1. simpl. rewrite String.eqb_refl. simpl.
    rewrite IH. apply filter_ext_in. intros f Hf.
    unfold mem at 2. simpl.
    assert (E : String.eqb f g = false).
    { apply String.eqb_neq. intros ->. contradiction. }
    rewrite E. reflexivity.
  - assert (E : mem g (doomed lk (S i) r) = false).
    { apply mem_false. intros H. apply doomed_In in H. contradiction. }
    rewrite E. simpl. rewrite IH. reflexivity.
Qed.

(** A file the loop left is left again when it is met at an index that
    is not larger. *)
Lemma doomed_kept lk group : forall i i',
  i' <= i -> doomed lk i' (kept lk i group) = [].
Proof.
  induction group as [|g r IH]; intros i i' Hle; simpl; [reflexivity|].
  destruct (attempt i g && negb (mem g lk)) eqn:E.
  - apply IH. lia.
  - simpl.
    assert (E' : attempt i' g && negb (mem g lk) = false).
    { destruct (mem g lk); [apply andb_false_r|].
      rewrite andb_true_r in *. unfold PurgeSpec.attempt in *.
      apply orb_false_iff in E as [E1 E2]. rewrite E2, orb_false_r.
      apply Z.leb_gt in E1. apply Z.leb_gt. lia. }
    rewrite E'. apply IH. lia.
Qed.

Lemma purge_group_spec group : forall i st n,
  NoDup group -> (forall f, In f group -> In f (names st)) ->
  purge_group maxPerScope maxAgeDays now i group (st, n) =
  (without (doomed (locked st) i group) st,
   n + length (doomed (locked st) i group)).
Proof.
  induction group as [|g r IH]; intros i st n Hnd Hin; simpl.
  - rewrite without_nil. f_equal. lia.
  - inversion Hnd as [|? ? Hg Hr]; subst.
    fold (attempt i g).
    destruct (attempt i g) eqn:Ea; simpl.
    + destruct (mem g (locked st)) eqn:El; simpl.
      * rewrite unlink_locked by assumption. apply IH; [assumption|].
        intros f Hf. apply Hin. right. assumption.
      * rewrite unlink_present by (auto; apply Hin; left; reflexivity).
        simpl. rewrite IH; [|assumption|].
        -- rewrite locked_without, without_without. simpl. f_equal. lia.
        -- intros f Hf. rewrite names_without. apply filter_In. split.
           ++ apply Hin. right. assumption.
           ++ unfold mem. simpl. rewrite orb_false_r.
              apply negb_true_iff, String.eqb_neq. intros ->. contradiction.
    + apply IH; [assumption|].
      intros f Hf. apply Hin. right. assumption.
Qed.
End OneCall.

(** *** The grouping loop *)

Import Backup(scope_of, has_key, push_to, group_files, inherited_keys,
              for_in, index_key, index_order).

Lemma grp_In k files f : In f (grp k files) <-> In f files /\ scope_of f = k.
Proof. unfold grp. rewrite filter_In, String.eqb_eq. reflexivity. Qed.

Lemma grp_app k l1 l2 : grp k (l1 ++ l2) = grp k l1 ++ grp k l2.
Proof. apply filter_app. Qed.

Lemma in_snoc {A} (x y : A) l : In x (l ++ [y]) <-> In x l \/ x = y.
Proof. rewrite in_app_iff. simpl. intuition. Qed.

Lemma filter_comm {A} (p q : A -> bool) l :
  filter p (filter q l) = filter q (filter p l).
Proof.
  induction l as [|x l IH]; simpl; [reflexivity|].
  destruct (p x) eqn:Ep, (q x) eqn:Eq; simpl; rewrite ?Ep, ?Eq, IH; reflexivity.
Qed.

Lemma has_key_In k (o : Groups) : has_key k o = true <-> In k (map fst o).
Proof.
  induction o as [|[k' fs] o IH]; simpl; [split; [discriminate|tauto]|].
  rewrite orb_true_iff, IH, String.eqb_eq. reflexivity.
Qed.

Lemma push_to_keys k file (o : Groups) : map fst (push_to k file o) = map fst o.
Proof.
  induction o as [|[k' fs] o IH]; simpl; [reflexivity|].
  destruct (String.eqb k' k); simpl; [reflexivity|]. rewrite IH. reflexivity.
Qed.

Lemma push_to_In k file (o : Groups) k' fs' :
  NoDup (map fst o) ->
  In (k', fs') (push_to k file o) ->
  (k' <> k /\ In (k', fs') o) \/
  (k' = k /\ exists fs, In (k, fs) o /\ fs' = fs ++ [file]).
Proof.
  induction o as [|[k0 fs0] o IH]; simpl; intros Hnd H; [contradiction|].
  inversion Hnd as [|? ? Hk0 Hnd']; subst.
  destruct (String.eqb k0 k) eqn:E.
  - apply String.eqb_eq in E. subst k0. destruct H as [H|H].
    + inversion H; subst. right. split; [reflexivity|].
      exists fs0. split; [left; reflexivity|reflexivity].
    + left. split; [|right; assumption].
      intros ->. apply Hk0. apply in_map_iff. exists (k, fs'). split; [reflexivity|assumption].
  - apply String.eqb_neq in E. destruct H as [H|H].
    + inversion H; subst. left. split; [assumption|left; reflexivity].
    + destruct (IH Hnd' H) as [[Hne Hin]|[-> [fs [Hin ->]]]].
      * left. split; [assumption|right; assumption].
      * right. split; [reflexivity|]. exists fs. split; [right; assumption|reflexivity].
Qed.

Lemma group_files_grouped files : forall o seen o',
  grouped o seen ->
  group_files files o = Returned o' ->
  grouped o' (seen ++ files).
Proof.
  induction files as [|file rest IH]; intros o seen o' Hg H; cbn [group_files] in H.
  - inversion H; subst. rewrite app_nil_r. assumption.
  - replace (seen ++ file :: rest) with ((seen ++ [file]) ++ rest)
      by (rewrite <- app_assoc; reflexivity).
    destruct Hg as (Hfs & Hnd & Hcov & Hinh).
    destruct (has_key (scope_of file) o) eqn:Ek.
    + eapply IH; [|exact H]. clear IH H.
      apply has_key_In in Ek. repeat split.
      * intros k fs Hin. apply push_to_In in Hin; [|assumption].
        rewrite grp_app. destruct Hin as [[Hne Hin]|[-> [fs0 [Hin ->]]]].
        -- rewrite (Hfs _ _ Hin). unfold grp at 3. simpl.
           apply String.eqb_neq in Hne. rewrite String.eqb_sym in Hne.
           rewrite Hne. rewrite app_nil_r. reflexivity.
        -- rewrite (Hfs _ _ Hin). unfold grp at 3. simpl.
           rewrite String.eqb_refl. reflexivity.
      * rewrite push_to_keys. assumption.
      * intros f Hf. rewrite push_to_keys. apply in_snoc in Hf.
        destruct Hf as [Hf|Hf]; [apply Hcov; assumption | subst f; exact Ek].
      * intros k Hk. rewrite push_to_keys in Hk. auto.
    + destruct (mem (scope_of file) inherited_keys) eqn:Ei; [discriminate|].
      eapply IH; [|exact H]. clear IH H.
      assert (Hnk : ~ In (scope_of file) (map fst o)).
      { intros Hk. apply has_key_In in Hk. congruence. }
      repeat split.
      * intros k fs Hin. rewrite grp_app. apply in_snoc in Hin as [Hin|Hin].
        -- rewrite (Hfs _ _ Hin). unfold grp at 3. simpl.
           destruct (String.eqb (scope_of file) k) eqn:E; [|rewrite app_nil_r; reflexivity].
           apply String.eqb_eq in E. subst k. exfalso. apply Hnk.
           apply in_map_iff. exists (scope_of file, fs). split; [reflexivity|assumption].
        -- inversion Hin; subst. unfold grp at 2. simpl. rewrite String.eqb_refl.
           replace (grp (scope_of file) seen) with (@nil string); [reflexivity|].
           symmetry. destruct (grp (scope_of file) seen) as [|f l] eqn:E; [reflexivity|].
           exfalso. assert (Hf : In f (grp (scope_of file) seen)) by (rewrite E; left; reflexivity).
           apply grp_In in Hf as [Hf Hs]. apply Hnk. rewrite <- Hs. apply Hcov. assumption.
      * rewrite map_app. simpl. apply NoDup_app; [assumption|repeat constructor; tauto|].
        intros a Ha Ha'. simpl in Ha'. destruct Ha' as [<-|[]]. contradiction.
      * intros f Hf. rewrite map_app. simpl. apply in_snoc.
        apply in_snoc in Hf. destruct Hf as [Hf|Hf]; [left; auto|right; subst f; reflexivity].
      * intros k Hk. rewrite map_app in Hk. simpl in Hk.
        apply in_snoc in Hk. destruct Hk as [Hk|Hk]; [auto|subst k; assumption].
Qed.

Lemma grouped_nil : grouped [] [].
Proof. repeat split; simpl; try tauto. constructor. Qed.

Lemma group_files_returns files : forall o,
  groupable files = true -> exists o', group_files files o = Returned o'.
Proof.
  induction files as [|file rest IH]; intros o H;
    cbn [group_files groupable forallb] in *.
  - eexists; reflexivity.
  - apply andb_true_iff in H as [H1 H2]. apply negb_true_iff in H1. rewrite H1.
    destruct (has_key (scope_of file) o); apply IH; assumption.
Qed.

Lemma group_files_throws files : forall o seen,
  grouped o seen -> groupable files = false ->
  group_files files o = Thrown push_error.
Proof.
  induction files as [|file rest IH]; intros o seen Hg H;
    cbn [group_files groupable forallb] in *; [discriminate|].
  destruct (mem (scope_of file) inherited_keys) eqn:Ei.
  - destruct (has_key (scope_of file) o) eqn:Ek; [|reflexivity].
    exfalso. destruct Hg as (_ & _ & _ & Hinh).
    apply has_key_In in Ek. apply Hinh in Ek. congruence.
  - cbn [negb andb] in H.
    destruct (has_key (scope_of file) o) eqn:Ek;
      (apply (IH _ (seen ++ [file])); [|assumption]);
      (apply (group_files_grouped [file] o seen); [assumption|]);
      cbn [group_files]; rewrite Ek, ?Ei; reflexivity.
Qed.

Lemma for_in_In (o : Groups) g : In g (for_in o) <-> In g o.
Proof.
  unfold for_in. rewrite in_app_iff, SortFacts.arr_sort_In, !filter_In.
  destruct (index_key g); simpl; intuition congruence.
Qed.

Lemma NoDup_keys_filter (p : string * list string -> bool) (o : Groups) :
  NoDup (map fst o) -> NoDup (map fst (filter p o)).
Proof.
  induction o as [|g o IH]; simpl; intros H; [constructor|].
  inversion H as [|? ? Hg Ho]; subst.
  destruct (p g); simpl; [|auto].
  constructor; [|auto].
  intros Hin. apply Hg. apply in_map_iff in Hin as [x [Hx Hin]].
  apply filter_In in Hin as [Hin _]. apply in_map_iff. exists x. split; assumption.
Qed.

Lemma for_in_NoDup (o : Groups) : NoDup (map fst o) -> NoDup (for_in o).
Proof.
  intros H. unfold for_in. apply NoDup_app.
  - apply SortFacts.arr_sort_NoDup. eapply NoDup_map_inv. apply NoDup_keys_filter. eassumption.
  - eapply NoDup_map_inv. apply NoDup_keys_filter. eassumption.
  - intros g Hg Hg'. apply SortFacts.arr_sort_In in Hg.
    apply filter_In in Hg as [_ Hg]. apply filter_In in Hg' as [_ Hg'].
    rewrite Hg in Hg'. discriminate.
Qed.

Lemma arr_sort_Permutation {A} (cmp : A -> A -> comparison) l :
  Permutation (arr_sort cmp l) l.
Proof.
  induction l as [|x l IH]; simpl; [constructor|].
  transitivity (x :: arr_sort cmp l); [|constructor; assumption].
  clear IH. induction (arr_sort cmp l) as [|y s IH]; simpl; [reflexivity|].
  destruct (cmp x y); try reflexivity.
  transitivity (y :: x :: s); [constructor; assumption|constructor].
Qed.

Lemma index_key_fst g h : fst g = fst h -> index_key g = index_key h.
Proof. unfold index_key. intros ->. reflexivity. Qed.

Lemma for_in_keys_NoDup (o : Groups) : NoDup (map fst o) -> NoDup (map fst (for_in o)).
Proof.
  intros H. unfold for_in. rewrite map_app. apply NoDup_app.
  - eapply Permutation_NoDup.
    + apply Permutation_map. symmetry. apply arr_sort_Permutation.
    + apply NoDup_keys_filter. assumption.
  - apply NoDup_keys_filter. assumption.
  - intros k Hk Hk'.
    apply in_map_iff in Hk as [g [Eg Hg]]. apply in_map_iff in Hk' as [h [Eh Hh]].
    apply SortFacts.arr_sort_In, filter_In in Hg as [_ Hg].
    apply filter_In in Hh as [_ Hh].
    rewrite (index_key_fst g h) in Hg by congruence. rewrite Hg in Hh. discriminate.
Qed.

Section Calls.
Variable localeCompare : string -> string -> comparison.
Variables (maxPerScope maxAgeDays now : Z).

Local Abbreviation doomed0 lk l := (doomed maxPerScope maxAgeDays now lk 0 l).
Local Abbreviation sorted l := (sort_desc localeCompare l).
Local Abbreviation removed := (PurgeSpec.removed localeCompare maxPerScope maxAgeDays now).
Local Abbreviation removed_from :=
  (PurgeSpec.removed_from localeCompare maxPerScope maxAgeDays now).

Lemma removed_In lk gs f :
  In f (removed lk gs) <->
  exists g, In g gs /\ In f (doomed0 lk (sorted (snd g))).
Proof.
  unfold PurgeSpec.removed. rewrite in_concat. split.
  - intros [l [Hl Hf]]. apply in_map_iff in Hl as [g [<- Hg]]. eauto.
  - intros [g [Hg Hf]]. eexists. split; [|exact Hf].
    apply in_map_iff. exists g. split; [reflexivity|assumption].
Qed.

Lemma sorted_In l f : In f (sorted l) <-> In f l.
Proof. apply SortFacts.arr_sort_In. Qed.

Lemma purge_groups_spec files gs : forall st n,
  NoDup files -> NoDup (map fst gs) ->
  (forall k fs, In (k, fs) gs -> fs = grp k files) ->
  (forall f, In f files -> In (scope_of f) (map fst gs) -> In f (names st)) ->
  purge_groups localeCompare maxPerScope maxAgeDays now gs (st, n) =
  (without (removed (locked st) gs) st, n + length (removed (locked st) gs)).
Proof.
  induction gs as [|[k fs] gs IH]; intros st n Hnd Hk Hg Hin.
  - simpl. rewrite without_nil. f_equal. lia.
  - cbn [purge_groups]. inversion Hk as [|? ? Hk1 Hk2]; subst.
    assert (Efs : fs = grp k files) by (apply Hg; left; reflexivity).
    rewrite purge_group_spec.
    + rewrite IH; try assumption.
      * rewrite locked_without, without_without. unfold PurgeSpec.removed. simpl.
        rewrite length_app. f_equal. lia.
      * intros k' fs' H. apply Hg. right. assumption.
      * intros f Hf Hs. rewrite names_without. apply filter_In. split.
        -- apply Hin; [assumption|]. right. assumption.
        -- apply negb_true_iff, mem_false. intros Hd.
           apply doomed_In in Hd. rewrite sorted_In in Hd. simpl in Hd. rewrite Efs in Hd.
           apply grp_In in Hd as [_ Hd]. rewrite Hd in Hs. contradiction.
    + apply SortFacts.arr_sort_NoDup. rewrite Efs. apply NoDup_filter. assumption.
    + intros f Hf. rewrite sorted_In in Hf. rewrite Efs in Hf.
      apply grp_In in Hf as [Hf Hs]. apply Hin; [assumption|]. left. simpl. congruence.
Qed.

Lemma purge_returns st :
  NoDup (names st) -> Backup.dir_exists st = true -> groupable (names st) = true ->
  Backup.purge localeCompare maxPerScope maxAgeDays now st =
  (Returned (length (removed_from st)), without (removed_from st) st).
Proof.
  intros Hnd He Hg. unfold Backup.purge, Backup.readdir, PurgeSpec.removed_from. rewrite He.
  destruct (group_files_returns (names st) [] Hg) as [o Ho]. rewrite Ho.
  pose proof (group_files_grouped _ _ _ _ grouped_nil Ho) as (Hfs & Hk & Hcov & _).
  simpl in Hfs, Hcov.
  rewrite (purge_groups_spec (names st)); try assumption.
  - reflexivity.
  - apply for_in_keys_NoDup. assumption.
  - intros k fs H. apply Hfs. apply for_in_In. assumption.
  - intros f Hf _. exact Hf.
Qed.

Lemma purge_throws st :
  Backup.dir_exists st = true -> groupable (names st) = false ->
  Backup.purge localeCompare maxPerScope maxAgeDays now st = (Thrown push_error, st).
Proof.
  intros He Hg. unfold Backup.purge, Backup.readdir. rewrite He.
  rewrite (group_files_throws _ _ _ grouped_nil Hg). reflexivity.
Qed.

Lemma purge_no_dir st :
  Backup.dir_exists st = false ->
  Backup.purge localeCompare maxPerScope maxAgeDays now st = (Returned 0, st).
Proof. intros He. unfold Backup.purge, Backup.readdir. rewrite He. reflexivity. Qed.

Hypothesis Hlc : consistent localeCompare.

Lemma descending_consistent :
  consistent (fun a b => localeCompare b a).
Proof.
  destruct Hlc as [Hopp Htr]. split.
  - intros a b. apply Hopp.
  - intros a b c Hab Hbc. eapply Htr; eassumption.
Qed.

(** After a call, a second call finds nothing to remove. *)
Lemma removed_from_without st :
  NoDup (names st) -> groupable (names st) = true ->
  removed_from (without (removed_from st) st) = [].
Proof.
  intros Hnd Hg. unfold PurgeSpec.removed_from at 1.
  set (D := removed_from st). rewrite locked_without, names_without.
  set (files := names st) in *.
  set (files1 := filter (fun f => negb (mem f D)) files).
  destruct (group_files files1 []) as [o1|e] eqn:Ho1; [|reflexivity].
  pose proof (group_files_grouped _ _ _ _ grouped_nil Ho1) as (Hfs1 & _ & _ & _).
  simpl in Hfs1.
  assert (HD : D = removed_from st) by reflexivity.
  unfold PurgeSpec.removed_from in HD. fold files in HD.
  destruct (group_files_returns files [] Hg) as [o Ho]. rewrite Ho in HD.
  pose proof (group_files_grouped _ _ _ _ grouped_nil Ho) as (Hfs & Hk & Hcov & _).
  simpl in Hfs, Hcov.
  unfold PurgeSpec.removed. apply concat_nil_Forall, Forall_forall. intros l Hl.
  apply in_map_iff in Hl as [[k fs1] [<- Hg1]]. simpl.
  apply for_in_In, Hfs1 in Hg1. subst fs1.
  destruct (grp k files1) as [|f0 r0] eqn:E0; [reflexivity|]. rewrite <- E0.
  assert (Hf0 : In f0 (grp k files1)) by (rewrite E0; left; reflexivity).
  apply grp_In in Hf0 as [Hf0 Hs0]. apply filter_In in Hf0 as [Hf0 _].
  assert (Hko : In (k, grp k files) o).
  { specialize (Hcov _ Hf0). rewrite Hs0 in Hcov.
    apply in_map_iff in Hcov as [[k' fs] [Ek Hin]]. simpl in Ek. subst k'.
    rewrite <- (Hfs _ _ Hin). assumption. }
  assert (E1 : grp k files1 = filter (fun f => negb (mem f D)) (grp k files)).
  { unfold grp, files1. apply filter_comm. }
  rewrite E1. unfold sort_desc.
  rewrite (SortFacts.arr_sort_filter _ descending_consistent).
  fold (sort_desc localeCompare (grp k files)).
  set (l := sorted (grp k files)).
  assert (Hl : NoDup l).
  { apply SortFacts.arr_sort_NoDup, NoDup_filter. assumption. }
  replace (filter (fun f => negb (mem f D)) l)
    with (kept maxPerScope maxAgeDays now (locked st) 0 l).
  { apply doomed_kept. lia. }
  rewrite kept_filter by assumption. apply filter_ext_in. intros f Hf. f_equal.
  apply eq_true_iff_eq. rewrite !mem_In, HD, removed_In. split.
  - intros H. exists (k, grp k files). split; [apply for_in_In; assumption|exact H].
  - intros [[k' fs'] [Hin Hd]]. apply -> for_in_In in Hin.
    pose proof (Hfs _ _ Hin) as ->. simpl in Hd.
    assert (k' = k); [|subst k'; exact Hd].
    apply doomed_In in Hd. rewrite sorted_In, grp_In in Hd. destruct Hd as [_ <-].
    unfold l in Hf. rewrite sorted_In, grp_In in Hf. destruct Hf as [_ Hf]. exact Hf.
Qed.
End Calls.

End PurgeFacts.

(* ------------------------------------------------------------------ *)
(** ** purge: the age test                                             *)
(* ------------------------------------------------------------------ *)

Module AgeFacts.
Import Js.
Import Backup(ts_pattern, date_text, dot_last_two, tooOld, purge_group,
              purge_groups, Store).

Lemma digit_not_dash c : is_digit c = true -> Ascii.eqb c "-" = false.
Proof.
  intros H. apply Ascii.eqb_neq. intros ->. discriminate H.
Qed.

Lemma digit_not_T c : is_digit c = true -> Ascii.eqb c "T" = false.
Proof.
  intros H. apply Ascii.eqb_neq. intros ->. discriminate H.
Qed.

(** A text whose fifth character is a colon is no date. *)
Lemma Date_parse_colon c0 c1 c2 c3 r :
  Date_parse (String c0 (String c1 (String c2 (String c3 (String ":" r))))) = None.
Proof.
  unfold Date_parse. cbn [digits].
  destruct (is_digit c0); [|reflexivity].
  destruct (is_digit c1); [|reflexivity].
  destruct (is_digit c2); [|reflexivity].
  destruct (is_digit c3); reflexivity.
Qed.

Lemma find_fixed_match pat s m :
  find_fixed pat s = Some m ->
  exists s', match_at pat s' = true /\ m = take (length pat) s'.
Proof.
  induction s as [|c s IH]; cbn [find_fixed].
  - destruct (match_at pat EmptyString) eqn:E; [|discriminate].
    intros [= <-]. eauto.
  - destruct (match_at pat (String c s)) eqn:E; [|exact IH].
    intros [= <-]. eauto.
Qed.

(** The text [purge] builds from a matched time stamp
    [dddd-dd-ddTdd-dd-dd] is [dddd:dd:ddTdd:dd:.ddZ]. *)
Lemma date_text_shape s :
  match_at ts_pattern s = true ->
  exists y0 y1 y2 y3 m0 m1 d0 d1 h0 h1 n0 n1 s0 s1,
    take (length ts_pattern) s
    = string_of_list_ascii
        [y0; y1; y2; y3; "-"; m0; m1; "-"; d0; d1; "T"; h0; h1; "-"; n0; n1; "-"; s0; s1]%char /\
    date_text (take (length ts_pattern) s)
    = string_of_list_ascii
        [y0; y1; y2; y3; ":"; m0; m1; ":"; d0; d1; "T"; h0; h1; ":"; n0; n1; ":"; ".";
         s0; s1; "Z"]%char.
Proof.
  intros H.
  do 19 (destruct s as [|? s];
         [cbn [match_at ts_pattern] in H; rewrite ?andb_false_r in H; discriminate H|]).
  cbn [match_at ts_pattern] in H.
  repeat (apply andb_true_iff in H as [?H H]).
  repeat match goal with
         | E : Ascii.eqb _ _ = true |- _ => apply Ascii.eqb_eq in E; subst
         end.
  do 14 eexists. split; [cbn [length ts_pattern take]; reflexivity|].
  unfold date_text. cbn [length ts_pattern take]. cbn [replace_all_char].
  repeat match goal with
         | E : is_digit ?c = true |- context [Ascii.eqb ?c "-"] =>
             rewrite (digit_not_dash c E)
         end.
  cbn [Ascii.eqb Bool.eqb]. cbn [replace_first_char].
  repeat match goal with
         | E : is_digit ?c = true |- context [Ascii.eqb ?c "T"] =>
             rewrite (digit_not_T c E); cbn [replace_first_char]
         end.
  cbn [Ascii.eqb Bool.eqb]. cbn [replace_first_char].
  repeat match goal with
         | E : is_digit ?c = true |- context [Ascii.eqb ?c "T"] =>
             rewrite (digit_not_T c E); cbn [replace_first_char]
         end.
  cbn [Ascii.eqb Bool.eqb]. cbn [replace_first_char]. cbn [dot_last_two].
  repeat match goal with
         | E : is_digit ?c = true |- context [is_digit ?c] => rewrite E
         end.
  reflexivity.
Qed.

Lemma date_text_invalid s :
  match_at ts_pattern s = true ->
  Date_parse (date_text (take (length ts_pattern) s)) = None.
Proof.
  intros H.
  destruct (date_text_shape s H)
    as (y0 & y1 & y2 & y3 & m0 & m1 & d0 & d1 & h0 & h1 & n0 & n1 & s0 & s1 & _ & E).
  rewrite E. apply Date_parse_colon.
Qed.

(** No file is ever flagged as too old. *)
Lemma tooOld_never now maxAgeDays file : tooOld now maxAgeDays file = false.
Proof.
  unfold tooOld. destruct (find_fixed ts_pattern file) as [m|] eqn:E; [|reflexivity].
  apply find_fixed_match in E as (s' & Hs & ->).
  rewrite date_text_invalid by assumption. reflexivity.
Qed.

Lemma purge_group_age mps mad now mad' now' group : forall i acc,
  purge_group mps mad now i group acc = purge_group mps mad' now' i group acc.
Proof.
  induction group as [|f r IH]; intros i acc; cbn [purge_group]; [reflexivity|].
  rewrite !tooOld_never. apply IH.
Qed.

Lemma purge_groups_age lc mps mad now mad' now' gs : forall acc,
  purge_groups lc mps mad now gs acc = purge_groups lc mps mad' now' gs acc.
Proof.
  induction gs as [|[k g] gs IH]; intros acc; cbn [purge_groups]; [reflexivity|].
  rewrite (purge_group_age mps mad now mad' now'). apply IH.
Qed.

(** The outcome of [purge] depends neither on [maxAgeDays] nor on the
    clock. *)
Lemma purge_age_blind lc mps mad now mad' now' (st : Store) :
  Backup.purge lc mps mad now st = Backup.purge lc mps mad' now' st.
Proof.
  unfold Backup.purge. destruct (Backup.readdir st); [|reflexivity].
  destruct (Backup.group_files a []); [|reflexivity].
  rewrite (purge_groups_age lc mps mad now mad' now'). reflexivity.
Qed.

End AgeFacts.

(* ------------------------------------------------------------------ *)
(** ** purge: retention                                                *)
(* ------------------------------------------------------------------ *)

Module PurgeTheorems.
Import Js PurgeSpec.
Import Backup(Store, entries, names).
Import PurgeFacts.

Lemma codeUnitCompare_consistent : consistent codeUnitCompare.
Proof.
  split.
  - intros a b. apply String.compare_antisym.
  - intros a b c Hab Hbc. unfold codeUnitCompare in *.
    destruct (String.compare a b) eqn:Eab; try congruence;
    destruct (String.compare b c) eqn:Ebc; try congruence.
    + apply String.compare_eq_iff in Eab. subst. congruence.
    + apply String.compare_eq_iff in Eab. subst. congruence.
    + apply String.compare_eq_iff in Ebc. subst. congruence.
    + apply OrderedTypeEx.String_as_OT.cmp_lt in Eab, Ebc.
      pose proof (OrderedTypeEx.String_as_OT.lt_trans _ _ _ Eab Ebc) as H.
      apply OrderedTypeEx.String_as_OT.cmp_lt in H.
      unfold OrderedTypeEx.String_as_OT.cmp in H. congruence.
Qed.

Lemma names_without_NoDup D st : NoDup (names st) -> NoDup (names (without D st)).
Proof. intros H. rewrite names_without. apply NoDup_filter. assumption. Qed.

Lemma groupable_without D st :
  groupable (names st) = true -> groupable (names (without D st)) = true.
Proof.
  unfold groupable. rewrite names_without, !forallb_forall.
  intros H f Hf. apply filter_In in Hf as [Hf _]. auto.
Qed.

Section SecondCall.
Variable lc : string -> string -> comparison.
Variables (mps mad now : Z).
Hypothesis Hlc : consistent lc.

Local Abbreviation purge := (Backup.purge lc mps mad now).

Lemma purge_twice st :
  NoDup (names st) ->
  snd (purge (snd (purge st))) = snd (purge st) /\
  NoDup (names (snd (purge st))) /\
  (forall n, fst (purge st) = Returned n -> fst (purge (snd (purge st))) = Returned 0) /\
  (forall e, fst (purge st) = Thrown e ->
             fst (purge (snd (purge st))) = Thrown e /\ snd (purge st) = st).
Proof.
  intros Hnd. destruct (Backup.dir_exists st) eqn:He.
  - destruct (groupable (names st)) eqn:Hg.
    + rewrite (purge_returns lc mps mad now st Hnd He Hg). cbn [fst snd].
      set (st1 := without (removed_from lc mps mad now st) st).
      assert (Hnd1 : NoDup (names st1)) by (apply names_without_NoDup; assumption).
      assert (Hg1 : groupable (names st1) = true) by (apply groupable_without; assumption).
      rewrite (purge_returns lc mps mad now st1 Hnd1 He Hg1). cbn [fst snd].
      assert (E : removed_from lc mps mad now st1 = [])
        by (apply removed_from_without; assumption).
      rewrite E, without_nil. cbn [length].
      split; [reflexivity|]. split; [assumption|].
      split; [intros; reflexivity|intros e H; discriminate H].
    + rewrite (purge_throws lc mps mad now st He Hg). cbn [fst snd].
      rewrite (purge_throws lc mps mad now st He Hg). cbn [fst snd].
      split; [reflexivity|]. split; [assumption|].
      split; [intros n H; discriminate H|intros e H; split; [exact H|reflexivity]].
  - rewrite (purge_no_dir lc mps mad now st He). cbn [fst snd].
    rewrite (purge_no_dir lc mps mad now st He). cbn [fst snd].
    split; [reflexivity|]. split; [assumption|].
    split; [intros; reflexivity|intros e H; discriminate H].
Qed.

Lemma purge_shrinks st :
  length (entries (snd (purge st))) <= length (entries st).
Proof.
  unfold Backup.purge. destruct (Backup.readdir st) as [files|e]; [|cbn; lia].
  destruct (Backup.group_files files []) as [o|e]; [|cbn; lia].
  destruct (Backup.purge_groups lc mps mad now (Backup.for_in o) (st, 0)) as [st' n] eqn:E.
  cbn [snd].
  assert (H : forall gs acc,
    length (entries (fst (Backup.purge_groups lc mps mad now gs acc)))
    <= length (entries (fst acc))).
  { clear. induction gs as [|[k g] gs IH]; intros acc; cbn [Backup.purge_groups]; [lia|].
    etransitivity; [apply IH|]. generalize (Backup.sort_desc lc g) 0. clear.
    intros l. revert acc. induction l as [|f l IHl]; intros acc i; cbn [Backup.purge_group]; [lia|].
    etransitivity; [apply IHl|].
    destruct (_ || _); [|lia].
    unfold Backup.unlink. destruct (_ && _); cbn; [|lia].
    apply filter_length_le. }
  specialize (H (Backup.for_in o) (st, 0)). rewrite E in H. exact H.
Qed.

Lemma purge_times_stable st n :
  NoDup (names st) -> purge_times lc mps mad now (S n) st = snd (purge st).
Proof.
  intros Hnd. induction n as [|n IH]; [reflexivity|].
  change (purge_times lc mps mad now (S (S n)) st)
    with (purge_times lc mps mad now (S n) (snd (purge st))).
  destruct (purge_twice st Hnd) as (H2 & Hnd1 & _).
  clear IH. revert Hnd1 H2. generalize (snd (purge st)). intros s Hs H2.
  induction n as [|n IH]; [exact H2|].
  change (purge_times lc mps mad now (S (S n)) s)
    with (purge_times lc mps mad now (S n) (snd (purge s))).
  rewrite H2. exact IH.
Qed.
End SecondCall.

(** C9: purge is idempotent and monotonic.  For a directory listing
    without repeated names and a consistent collation, with the policy and
    the clock held fixed: a second call right after a first leaves the
    directory as the first left it and deletes nothing (it returns 0 when
    the first returned; when the first threw, before any deletion, it
    throws the same error); no call in a row of calls increases the number
    of files; and every further call stays at the state the first call
    reached. *)
Theorem purge_idempotent_monotonic
    (lc : string -> string -> comparison) (maxPerScope maxAgeDays now : Z)
    (st : Store) :
  consistent lc ->
  NoDup (names st) ->
  let first := Backup.purge lc maxPerScope maxAgeDays now st in
  let second := Backup.purge lc maxPerScope maxAgeDays now (snd first) in
  snd second = snd first /\
  (forall n, fst first = Returned n -> fst second = Returned 0) /\
  (forall e, fst first = Thrown e -> fst second = Thrown e /\ snd first = st) /\
  (forall n, length (entries (purge_times lc maxPerScope maxAgeDays now (S n) st))
             <= length (entries (purge_times lc maxPerScope maxAgeDays now n st))) /\
  (forall n, purge_times lc maxPerScope maxAgeDays now (S n) st = snd first).
Proof.
  intros Hlc Hnd first second.
  destruct (purge_twice lc maxPerScope maxAgeDays now Hlc st Hnd) as (H1 & _ & H2 & H3).
  split; [exact H1|]. split; [exact H2|]. split; [exact H3|].
  split.
  - intros [|n].
    + apply purge_shrinks.
    + rewrite !purge_times_stable by assumption. apply Nat.le_refl.
  - intros n. apply purge_times_stable; assumption.
Qed.

End PurgeTheorems.

(* ------------------------------------------------------------------ *)
(** ** Reference expansion                                             *)
(* ------------------------------------------------------------------ *)

Module ExpandFacts.
Import Js Re.

Lemma append_cons c (a b : string) : String c a +:+ b = String c (a +:+ b).
Proof. reflexivity. Qed.

Lemma append_nil_l (b : string) : EmptyString +:+ b = b.
Proof. reflexivity. Qed.

Lemma append_assoc (a b c : string) : (a +:+ b) +:+ c = a +:+ (b +:+ c).
Proof.
  induction a as [|x a IH]; [reflexivity|].
  rewrite !append_cons, IH. reflexivity.
Qed.

Lemma append_nil_r (a : string) : a +:+ EmptyString = a.
Proof.
  induction a as [|x a IH]; [reflexivity|].
  rewrite append_cons, IH. reflexivity.
Qed.

Lemma length_append (a b : string) :
  String.length (a +:+ b) = String.length a + String.length b.
Proof.
  induction a as [|x a IH]; [reflexivity|].
  rewrite append_cons. simpl. rewrite IH. reflexivity.
Qed.

Lemma startsWith_append (p s : string) : startsWith p (p +:+ s) = true.
Proof.
  induction p as [|c p IH]; [reflexivity|].
  rewrite append_cons. simpl. rewrite Ascii.eqb_refl. exact IH.
Qed.

Lemma span_append p v rest :
  all_chars p v = true -> stops p rest = true -> span p (v +:+ rest) = (v, rest).
Proof.
  intros Hv Hr. induction v as [|c v IH].
  - rewrite append_nil_l. destruct rest as [|c r]; [reflexivity|]. simpl in Hr.
    simpl. destruct (p c); [discriminate|reflexivity].
  - simpl in Hv. apply andb_true_iff in Hv as [Hc Hv].
    rewrite append_cons. simpl. rewrite Hc, (IH Hv). reflexivity.
Qed.

Section Replace.
Variable matcher : string -> option (string * string).
Variable callback : string -> string -> string.

Lemma replace_from_skip a rest :
  replace_from matcher callback (a +:+ rest) (String.length a)
  = replace_from matcher callback rest 0.
Proof.
  induction a as [|c a IH]; [reflexivity|].
  rewrite append_cons. simpl. exact IH.
Qed.

(** At a match, the callback's text stands for the matched text and the
    scan goes on behind it. *)
Lemma replace_matches_at m v rest :
  truthy m = true -> matcher (m +:+ rest) = Some (m, v) ->
  replace_matches matcher callback (m +:+ rest)
  = callback m v +:+ replace_matches matcher callback rest.
Proof.
  intros Hm H. unfold replace_matches.
  destruct m as [|c m]; [discriminate|].
  rewrite append_cons in *.
  cbn [replace_from]. rewrite H.
  replace (String.length (String c m) - 1) with (String.length m) by (simpl; lia).
  rewrite replace_from_skip. reflexivity.
Qed.

(** Text in which no match starts is copied. *)
Lemma replace_matches_literal (trigger : ascii) lit rest :
  (forall c s, c <> trigger -> matcher (String c s) = None) ->
  any_char (Ascii.eqb trigger) lit = false ->
  replace_matches matcher callback (lit +:+ rest)
  = lit +:+ replace_matches matcher callback rest.
Proof.
  intros Hm. unfold replace_matches. induction lit as [|c lit IH]; intros H.
  - reflexivity.
  - simpl in H. apply orb_false_iff in H as [Hc H].
    rewrite !append_cons. cbn [replace_from].
    rewrite Hm by (apply Ascii.eqb_neq in Hc; congruence).
    rewrite IH by assumption. reflexivity.
Qed.
End Replace.

Lemma posix_ref_needs_dollar c s : c <> "$"%char -> Posix.ref_at (String c s) = None.
Proof.
  intros H. destruct c as [[] [] [] [] [] [] [] []]; try reflexivity. congruence.
Qed.

Lemma win_ref_needs_percent c s : c <> "%"%char -> Win.ref_at (String c s) = None.
Proof.
  intros H. destruct c as [[] [] [] [] [] [] [] []]; try reflexivity. congruence.
Qed.

Lemma word_first v rest :
  truthy v = true -> all_chars is_word v = true ->
  exists c r, v +:+ rest = String c r /\ is_word c = true.
Proof.
  destruct v as [|c v]; [discriminate|]. simpl. intros _ H.
  apply andb_true_iff in H as [H _]. rewrite append_cons. eauto.
Qed.

(** The three reference forms, recognised where they stand. *)
Lemma posix_ref_plain v rest :
  truthy v = true -> all_chars is_word v = true -> stops is_word rest = true ->
  Posix.ref_at (String "$" v +:+ rest) = Some (String "$" v, v).
Proof.
  intros Hv Hw Hr. rewrite append_cons. cbn [Posix.ref_at].
  rewrite span_append by assumption. rewrite Hv. reflexivity.
Qed.

Lemma posix_ref_braced v rest :
  truthy v = true -> all_chars is_word v = true ->
  Posix.ref_at (("${" +:+ v +:+ "}") +:+ rest) = Some ("${" +:+ v +:+ "}", v).
Proof.
  intros Hv Hw. rewrite !append_assoc.
  change ("${" +:+ v +:+ "}" +:+ rest) with (String "$" (String "{" (v +:+ String "}" rest))).
  cbn [Posix.ref_at span is_word is_digit is_upper is_lower between code].
  replace (span is_word (String "{" (v +:+ String "}" rest)))
    with (EmptyString, String "{" (v +:+ String "}" rest)) by reflexivity.
  cbn [truthy]. rewrite (span_append is_word v (String "}" rest) Hw eq_refl).
  rewrite Hv. reflexivity.
Qed.

Lemma win_ref v rest :
  truthy v = true -> all_chars is_word v = true ->
  Win.ref_at (("%" +:+ v +:+ "%") +:+ rest) = Some ("%" +:+ v +:+ "%", v).
Proof.
  intros Hv Hw. rewrite !append_assoc.
  change ("%" +:+ v +:+ "%" +:+ rest) with (String "%" (v +:+ String "%" rest)).
  cbn [Win.ref_at]. rewrite (span_append is_word v (String "%" rest) Hw eq_refl).
  rewrite Hv. reflexivity.
Qed.

Lemma upper_char_idem c : upper_char (upper_char c) = upper_char c.
Proof. destruct c as [[] [] [] [] [] [] [] []]; reflexivity. Qed.

Lemma toUpperCase_idem s : toUpperCase (toUpperCase s) = toUpperCase s.
Proof.
  induction s as [|c s IH]; simpl; [reflexivity|].
  rewrite upper_char_idem, IH. reflexivity.
Qed.

(** *** Keys in upper case

    The names of the inherited properties all hold a lower-case letter:
    under a key in upper case [process.env] gives a variable or nothing,
    which is how the Windows adapter reads it. *)

Lemma upper_no_lower k : any_char is_lower (toUpperCase k) = false.
Proof.
  induction k as [|c k IH]; [reflexivity|]. cbn [toUpperCase any_char]. rewrite IH.
  destruct c as [[] [] [] [] [] [] [] []]; reflexivity.
Qed.

Lemma upper_not_inherited k :
  Backup.mem (toUpperCase k) Backup.inherited_keys = false.
Proof.
  destruct (Backup.mem (toUpperCase k) Backup.inherited_keys) eqn:E; [|reflexivity].
  exfalso. unfold Backup.mem in E. apply existsb_exists in E as (x & Hx & Ex).
  apply String.eqb_eq in Ex. pose proof (upper_no_lower k) as Hk. rewrite Ex in Hk.
  unfold Backup.inherited_keys in Hx. cbn [In] in Hx.
  repeat (destruct Hx as [<- | Hx]; [discriminate Hk|]). exact Hx.
Qed.

Lemma process_env_upper (e : gmap string string) k :
  process_env e (toUpperCase k) = plain (e !! toUpperCase k).
Proof.
  unfold process_env. rewrite upper_not_inherited. destruct (e !! toUpperCase k); reflexivity.
Qed.

Lemma env_text_upper (e : gmap string string) k :
  env_text e (toUpperCase k) = env_or_empty e (toUpperCase k).
Proof.
  unfold env_text, env_or_empty. rewrite process_env_upper.
  destruct (e !! toUpperCase k); reflexivity.
Qed.

End ExpandFacts.

(* ------------------------------------------------------------------ *)
(** ** getRaw and getExpanded                                          *)
(* ------------------------------------------------------------------ *)

Module ReadTheorems.
Import Js Re Async ExpandFacts Spec Fixtures.

Lemma truthy_append_cons lit c x : truthy (lit +:+ String c x) = true.
Proof. destruct lit; reflexivity. Qed.

Lemma unbound_empty e v : unbound e v -> env_or_empty e v = EmptyString.
Proof. unfold env_or_empty. intros [-> | ->]; reflexivity. Qed.

Lemma unresolved_empty e v : unbound e v -> ~ inherits e v -> env_text e v = EmptyString.
Proof.
  unfold env_text, process_env, inherits. intros [E | E] Hn; rewrite E; [|reflexivity].
  destruct (Backup.mem v Backup.inherited_keys); [|reflexivity].
  exfalso. apply Hn. split; [exact E|reflexivity].
Qed.

Lemma posix_getRaw_session name w :
  Posix.getRaw name session w = (Returned (process_env (Posix.env w) name), w).
Proof. reflexivity. Qed.

Lemma process_env_bound (e : gmap string string) name s :
  e !! name = Some s -> process_env e name = plain (Some s).
Proof. unfold process_env. intros ->. reflexivity. Qed.

Lemma posix_getExpanded_expand name sc w raw w' :
  Posix.getRaw name sc w = (Returned (plain (Some raw)), w') -> truthy raw = true ->
  Posix.getExpanded name sc w
  = (Returned (Some (Posix.expand name (Posix.env w') raw)), w').
Proof.
  intros H Ht. unfold Posix.getExpanded, bind. rewrite H, Ht. reflexivity.
Qed.

Lemma win_getExpanded_expand {Registry} (reg : list string -> Registry -> Outcome string * Registry)
    name sc w raw w' :
  Win.getRaw reg name sc w = (Returned (Some raw), w') -> truthy raw = true ->
  Win.getExpanded reg name sc w
  = (Returned (Some (Win.expand name (Win.env w') raw)), w').
Proof.
  intros H Ht. unfold Win.getExpanded, bind. rewrite H, Ht. reflexivity.
Qed.

(** One reference in a value: the text before it is copied, the callback
    decides what stands for it, the text after it is expanded in turn. *)
Lemma posix_expand_plain name e lit v rest :
  truthy v = true -> all_chars is_word v = true -> stops is_word rest = true ->
  any_char (Ascii.eqb "$") lit = false ->
  Posix.expand name e (lit +:+ String "$" v +:+ rest)
  = lit +:+ Posix.substitute name e (String "$" v) v +:+ Posix.expand name e rest.
Proof.
  intros Hv Hw Hr Hl. unfold Posix.expand.
  rewrite (replace_matches_literal _ _ "$") by (auto using posix_ref_needs_dollar).
  rewrite (replace_matches_at _ _ (String "$" v) v) by (auto using posix_ref_plain).
  reflexivity.
Qed.

Lemma posix_expand_braced name e lit v rest :
  truthy v = true -> all_chars is_word v = true ->
  any_char (Ascii.eqb "$") lit = false ->
  Posix.expand name e (lit +:+ ("${" +:+ v +:+ "}") +:+ rest)
  = lit +:+ Posix.substitute name e ("${" +:+ v +:+ "}") v +:+ Posix.expand name e rest.
Proof.
  intros Hv Hw Hl. unfold Posix.expand.
  rewrite (replace_matches_literal _ _ "$") by (auto using posix_ref_needs_dollar).
  rewrite (replace_matches_at _ _ ("${" +:+ v +:+ "}") v) by (auto using posix_ref_braced).
  reflexivity.
Qed.

Lemma win_expand_ref name e lit v rest :
  truthy v = true -> all_chars is_word v = true ->
  any_char (Ascii.eqb "%") lit = false ->
  Win.expand name e (lit +:+ ("%" +:+ v +:+ "%") +:+ rest)
  = lit +:+ Win.substitute name e ("%" +:+ v +:+ "%") v +:+ Win.expand name e rest.
Proof.
  intros Hv Hw Hl. unfold Win.expand.
  rewrite (replace_matches_literal _ _ "%") by (auto using win_ref_needs_percent).
  rewrite (replace_matches_at _ _ ("%" +:+ v +:+ "%") v) by (auto using win_ref).
  reflexivity.
Qed.

Lemma posix_substitute_other name e m v :
  v <> name -> unbound e v -> ~ inherits e v ->
  Posix.substitute name e m v = EmptyString.
Proof.
  intros Hn Hu Hi. unfold Posix.substitute.
  apply String.eqb_neq in Hn. rewrite Hn. apply unresolved_empty; assumption.
Qed.

Lemma win_substitute_other name e m v :
  Win.CASE_NORMALIZE v <> Win.CASE_NORMALIZE name ->
  unbound e (Win.CASE_NORMALIZE v) -> Win.substitute name e m v = EmptyString.
Proof.
  intros Hn Hu. unfold Win.substitute.
  destruct (String.eqb_spec (Win.CASE_NORMALIZE v) name) as [E|E].
  - exfalso. apply Hn. rewrite <- E. unfold Win.CASE_NORMALIZE.
    rewrite toUpperCase_idem. reflexivity.
  - apply unbound_empty. assumption.
Qed.

(** A reference to a name other than the variable's own that the process
    environment does not bind, or binds to the empty string, is replaced
    by the empty string, on POSIX unless the name is that of a property
    every object inherits and no variable hides it: the value
    [lit $v rest] (POSIX, at session scope; likewise [lit ${v} rest]) or
    [lit %v% rest] (Windows, where the name is looked up in upper case)
    expands to [lit] followed by the expansion of [rest].  [lit] is text
    without the reference character; a [$v] ends where the word characters
    end. *)
Lemma unbound_reference_vanishes {Registry : Type}
    (reg : list string -> Registry -> Outcome string * Registry)
    (name lit v rest : string) (sc : Scope) :
  truthy v = true -> all_chars is_word v = true ->
  (forall w : Posix.World,
     v <> name -> unbound (Posix.env w) v -> ~ inherits (Posix.env w) v ->
     any_char (Ascii.eqb "$") lit = false ->
     (stops is_word rest = true ->
      Posix.env w !! name = Some (lit +:+ String "$" v +:+ rest) ->
      Posix.getExpanded name session w
      = (Returned (Some (lit +:+ Posix.expand name (Posix.env w) rest)), w)) /\
     (Posix.env w !! name = Some (lit +:+ ("${" +:+ v +:+ "}") +:+ rest) ->
      Posix.getExpanded name session w
      = (Returned (Some (lit +:+ Posix.expand name (Posix.env w) rest)), w))) /\
  (forall w w' : Win.World Registry,
     Win.CASE_NORMALIZE v <> Win.CASE_NORMALIZE name ->
     unbound (Win.env w') (Win.CASE_NORMALIZE v) ->
     any_char (Ascii.eqb "%") lit = false ->
     Win.getRaw reg name sc w
     = (Returned (Some (lit +:+ ("%" +:+ v +:+ "%") +:+ rest)), w') ->
     Win.getExpanded reg name sc w
     = (Returned (Some (lit +:+ Win.expand name (Win.env w') rest)), w')).
Proof.
  intros Hv Hw. split.
  - intros w Hn Hu Hi Hl. split.
    + intros Hr H. apply process_env_bound in H.
      pose proof (posix_getRaw_session name w) as Hg. rewrite H in Hg.
      rewrite (posix_getExpanded_expand _ _ _ _ _ Hg) by apply truthy_append_cons.
      rewrite posix_expand_plain, posix_substitute_other by assumption.
      reflexivity.
    + intros H. apply process_env_bound in H.
      pose proof (posix_getRaw_session name w) as Hg. rewrite H in Hg.
      rewrite (posix_getExpanded_expand _ _ _ _ _ Hg)
        by (rewrite append_assoc; apply truthy_append_cons).
      rewrite posix_expand_braced, posix_substitute_other by assumption.
      reflexivity.
  - intros w w' Hn Hu Hl H.
    rewrite (win_getExpanded_expand _ _ _ _ _ _ H)
      by (rewrite append_assoc; apply truthy_append_cons).
    rewrite win_expand_ref, win_substitute_other by assumption.
    reflexivity.
Qed.

Example unbound_reference_vanishes_posix :
  Posix.getExpanded "A" session ExpandFixtures.plain_world
  = (Returned (Some "x/y"), ExpandFixtures.plain_world) /\
  Posix.getExpanded "A" session ExpandFixtures.braced_world
  = (Returned (Some "x/y"), ExpandFixtures.braced_world).
Proof. split; vm_compute; reflexivity. Qed.

(** C10, the code at the failing input: on the POSIX adapter the variable A
    holds [x$constructor/y] (or [x${toString}/y]) and the process has no
    variable named constructor (toString).  [process.env.constructor] is
    then the function that every object inherits under that name, and
    getExpanded puts the text of the function where the reference stood.
    The Windows adapter, which looks the name up in upper case, lets the
    same reference vanish, as the POSIX adapter does for a name that is no
    such property. *)
Theorem inherited_reference_expanded :
  let w := ExpandFixtures.posix_env_world {[ "A" := "x$constructor/y" ]} in
  let w' := ExpandFixtures.posix_env_world {[ "A" := "x${toString}/y" ]} in
  let ww := ExpandFixtures.win_env_world {[ "A" := "x%constructor%/y" ]} in
  Posix.env w !! "constructor" = None /\
  Posix.getRaw "constructor" session w = (Returned (inherited "constructor"), w) /\
  Posix.getExpanded "A" session w
  = (Returned (Some "xfunction Object() { [native code] }/y"), w) /\
  Posix.getExpanded "A" session w'
  = (Returned (Some "xfunction toString() { [native code] }/y"), w') /\
  Posix.getExpanded "A" session ExpandFixtures.plain_world
  = (Returned (Some "x/y"), ExpandFixtures.plain_world) /\
  Win.getExpanded RegSim.reg "A" session ww = (Returned (Some "x/y"), ww).
Proof. cbv zeta. repeat split; vm_compute; reflexivity. Qed.

(** The same on the Windows adapter, where the reference may be written in
    any case. *)
Example unresolved_reference_vanishes_windows :
  Win.getExpanded RegSim.reg "A" session ExpandFixtures.percent_world
  = (Returned (Some "x/y"), ExpandFixtures.percent_world).
Proof. vm_compute. reflexivity. Qed.

(** *** Self-reference *)

Lemma posix_self_reference_literal name e lit rest :
  truthy name = true -> all_chars is_word name = true ->
  stops is_word rest = true -> any_char (Ascii.eqb "$") lit = false ->
  Posix.expand name e (lit +:+ String "$" name +:+ rest)
  = lit +:+ String "$" name +:+ Posix.expand name e rest /\
  Posix.expand name e (lit +:+ ("${" +:+ name +:+ "}") +:+ rest)
  = lit +:+ ("${" +:+ name +:+ "}") +:+ Posix.expand name e rest.
Proof.
  intros Hv Hw Hr Hl. split.
  - rewrite posix_expand_plain by assumption.
    unfold Posix.substitute. rewrite String.eqb_refl. reflexivity.
  - rewrite posix_expand_braced by assumption.
    unfold Posix.substitute. rewrite String.eqb_refl. reflexivity.
Qed.

(** On Windows the reference is compared, in upper case, with the name as
    the caller wrote it. *)
Lemma win_self_reference name e lit v rest :
  truthy v = true -> all_chars is_word v = true ->
  any_char (Ascii.eqb "%") lit = false ->
  Win.expand name e (lit +:+ ("%" +:+ v +:+ "%") +:+ rest)
  = lit +:+ (if String.eqb (Win.CASE_NORMALIZE v) name
             then "%" +:+ v +:+ "%"
             else env_or_empty e (Win.CASE_NORMALIZE v))
        +:+ Win.expand name e rest.
Proof.
  intros Hv Hw Hl. rewrite win_expand_ref by assumption. reflexivity.
Qed.

(** C7, the code at the failing input: on the Windows adapter the variable
    PATH holds [%PATH%;C:\bin]; asked for it under the name Path, getRaw
    reads PATH and getExpanded puts the value of PATH in place of the
    reference of the value to its own variable.  Asked under the name
    PATH, it leaves the reference as it is. *)
Theorem win_self_reference_expanded {Registry : Type}
    (reg : list string -> Registry -> Outcome string * Registry)
    (g : Registry) :
  let w := {| Win.env := {[ "PATH" := "%PATH%;C:\bin" ]}; Win.registry := g;
              Win.calls := []; Win.store := empty_store; Win.tmpdir := "C:\Temp";
              Win.tmpfiles := ∅; Win.tmp_writable := true; Win.clock := noon |} in
  Win.getRaw reg "Path" session w = (Returned (Some "%PATH%;C:\bin"), w) /\
  Win.getExpanded reg "Path" session w = (Returned (Some "%PATH%;C:\bin;C:\bin"), w) /\
  Win.getExpanded reg "PATH" session w = (Returned (Some "%PATH%;C:\bin"), w).
Proof. intros w. repeat split; vm_compute; reflexivity. Qed.

(** *** getRaw *)

(** C1, the code at the failing input: on the POSIX adapter getRaw at user
    and at system scope throws, whatever the name and the files. *)
Theorem posix_getRaw_not_implemented (name : string) (w : Posix.World) :
  Posix.getRaw name user w = (Thrown "Not implemented: getRaw user", w) /\
  Posix.getRaw name system w = (Thrown "Not implemented: getRaw system", w).
Proof. split; reflexivity. Qed.

(** The Windows adapter does what the POSIX one lacks: whatever the
    registry tool answers, getRaw returns. *)
Lemma win_getRaw_returns {Registry : Type}
    (reg : list string -> Registry -> Outcome string * Registry) name sc w :
  exists v w', Win.getRaw reg name sc w = (Returned v, w').
Proof.
  unfold Win.getRaw. destruct sc; [eexists; eexists; reflexivity| |];
    unfold try_catch, bind, Win.execFile, ret;
    destruct (reg _ (Win.registry w)) as [[stdout|e] g'];
    eexists; eexists; reflexivity.
Qed.

End ReadTheorems.

(* ------------------------------------------------------------------ *)
(** ** set and unset                                                   *)
(* ------------------------------------------------------------------ *)

Module MutationTheorems.
Import Js Re Async ExpandFacts Spec Fixtures.

Section AnyRegistry.
Context {Registry : Type}.
Variable reg : list string -> Registry -> Outcome string * Registry.

(** *** The POSIX adapter at user and system scope *)

Lemma posix_mutate_file_throws name intended opts content w :
  scope opts <> session ->
  exists e w', Posix.mutate_file name intended opts content w = (Thrown e, w').
Proof.
  intros Hs. unfold Posix.mutate_file, bind.
  destruct (Posix.medium (scope opts) w) as [[file|e] w0] eqn:E0; [|eauto].
  destruct (try_catch (Posix.readFile file) (fun _ => ret EmptyString) w0)
    as [[oldContent|e] w1]; [|eauto].
  destruct ((if backup opts then Posix.createBackup (scope opts) name oldContent
             else ret EmptyString) w1) as [[p|e] w2]; [|eauto].
  destruct (Posix.writeFile file (content oldContent) w2) as [[[]|e] w3]; [|eauto].
  destruct (scope opts); [congruence| |]; cbn; eauto.
Qed.

Lemma posix_set_throws name value opts w :
  scope opts <> session -> exists e w', Posix.set name value opts w = (Thrown e, w').
Proof.
  intros Hs. unfold Posix.set.
  destruct (scope opts) eqn:E; [congruence| |];
    apply posix_mutate_file_throws; congruence.
Qed.

Lemma posix_unset_throws name opts w :
  scope opts <> session -> exists e w', Posix.unset name opts w = (Thrown e, w').
Proof.
  intros Hs. unfold Posix.unset.
  destruct (scope opts) eqn:E; [congruence| |];
    apply posix_mutate_file_throws; congruence.
Qed.

(** *** The Windows adapter *)

Lemma win_export_backup_returns sc name w :
  exists p w', Win.export_backup reg sc name w = (Returned p, w').
Proof.
  unfold Win.export_backup, try_catch, bind, Win.execFile.
  destruct (reg _ (Win.registry w)) as [[stdout|e] g]; [|cbn; eauto].
  unfold Win.createBackup. cbn [Win.clock Win.store].
  destruct (Backup.createBackup _ _ _ _ _) as [[p|e] s]; cbn; eauto.
Qed.

Lemma win_import_backup_returns sc path w :
  exists r w', Win.import_backup reg sc path w = (Returned r, w').
Proof.
  unfold Win.import_backup, try_catch, bind, gets.
  destruct (Backup.list (scope_name sc) (Win.store w)); cbn; eauto.
Qed.

Lemma win_mutate_registry_returns name intended opts args w :
  exists r w', Win.mutate_registry reg name intended opts args w = (Returned r, w').
Proof.
  unfold Win.mutate_registry.
  assert (Hb : exists p w1,
    (if backup opts then Win.export_backup reg (scope opts) name else ret None) w
    = (Returned p, w1)).
  { destruct (backup opts); [apply win_export_backup_returns|cbn; eauto]. }
  destruct Hb as (p & w1 & Hb).
  unfold bind at 1. rewrite Hb.
  unfold bind at 1. unfold try_catch at 1. unfold bind at 1.
  destruct (Win.execFile reg args w1) as [[stdout|e] w2]; [|cbn; eauto].
  cbn [ret].
  destruct (ReadTheorems.win_getRaw_returns reg name (scope opts) w2) as (raw & w3 & Hg).
  unfold bind at 1. rewrite Hg.
  destruct p as [path|].
  - destruct (negb (same_value raw intended) && rollbackOnFail opts
              && backup opts && truthy path).
    + destruct (win_import_backup_returns (scope opts) path w3) as (r & w4 & Hi).
      unfold bind at 1. rewrite Hi. cbn. eauto.
    + cbn. eauto.
  - cbn. eauto.
Qed.

Lemma win_set_returns name value opts w :
  exists r w', Win.set reg name value opts w = (Returned r, w').
Proof.
  unfold Win.set. destruct (scope opts) eqn:E.
  - cbn. eauto.
  - apply win_mutate_registry_returns.
  - apply win_mutate_registry_returns.
Qed.

Lemma win_unset_returns name opts w :
  exists r w', Win.unset reg name opts w = (Returned r, w').
Proof.
  unfold Win.unset. destruct (scope opts) eqn:E.
  - cbn. eauto.
  - apply win_mutate_registry_returns.
  - apply win_mutate_registry_returns.
Qed.
End AnyRegistry.

Lemma put_file_In id v es : In id (map fst (Backup.put_file id v es)).
Proof.
  induction es as [|[n c] es IH]; simpl; [left; reflexivity|].
  destruct (String.eqb_spec n id) as [->|Hne]; simpl; [left; reflexivity|right; exact IH].
Qed.

Lemma startsWith_append2 (a b c : string) : startsWith (a +:+ b) (a +:+ b +:+ c) = true.
Proof. rewrite <- append_assoc. apply startsWith_append. Qed.

Lemma list_after_createBackup sc name v now st p st' :
  Backup.createBackup sc name v now st = (Returned p, st') ->
  Backup.list sc st' <> [].
Proof.
  unfold Backup.createBackup.
  destruct (Backup.dir_writable st); cbn [negb]; [|discriminate].
  intros [= _ <-]. unfold Backup.list, Backup.readdir, Backup.names.
  cbn [Backup.dir_exists Backup.entries].
  match goal with
  | |- filter ?f (map fst (Backup.put_file ?id _ _)) <> [] =>
      assert (H : In id (filter f (map fst (Backup.put_file id v (Backup.entries st)))))
  end.
  { apply filter_In. split; [apply put_file_In|apply startsWith_append2]. }
  intros E. rewrite E in H. exact H.
Qed.

Section Rollback.
Context {Registry : Type}.
Variable reg : list string -> Registry -> Outcome string * Registry.

Lemma win_execFile_store args w :
  Win.store (snd (Win.execFile reg args w)) = Win.store w.
Proof. unfold Win.execFile. destruct (reg args (Win.registry w)); reflexivity. Qed.

Lemma win_getRaw_store name sc w :
  Win.store (snd (Win.getRaw reg name sc w)) = Win.store w.
Proof.
  unfold Win.getRaw. destruct sc; [reflexivity| |];
    unfold try_catch, bind;
    match goal with
    | |- context [Win.execFile reg ?a w] =>
        pose proof (win_execFile_store a w) as H;
        destruct (Win.execFile reg a w) as [[stdout|e] w1]
    end; exact H.
Qed.

Lemma win_export_backup_listed sc name w p w1 :
  Win.export_backup reg sc name w = (Returned (Some p), w1) ->
  Backup.list (scope_name sc) (Win.store w1) <> [].
Proof.
  unfold Win.export_backup, try_catch, bind.
  destruct (Win.execFile reg _ w) as [[stdout|e] w0]; [|cbn; discriminate].
  unfold Win.createBackup.
  destruct (Backup.createBackup _ _ _ _ _) as [[q|e] s] eqn:E; cbn; [|discriminate].
  intros [= _ <-]. cbn. eapply list_after_createBackup. exact E.
Qed.

Lemma win_import_backup_listed sc path w :
  Backup.list (scope_name sc) (Win.store w) <> [] ->
  Win.import_backup reg sc path w = (Returned rb_undefined, w).
Proof.
  intros H. unfold Win.import_backup, try_catch, bind, gets.
  destruct (Backup.list (scope_name sc) (Win.store w)); [congruence|reflexivity].
Qed.

(** In a backup directory that can be listed the rollback step never
    comes to its [rollback = true]: the backup just written is listed, and
    the import that the list calls for stops at [require]. *)
Lemma win_mutate_registry_rollback name intended opts args w r w' :
  Win.mutate_registry reg name intended opts args w = (Returned r, w') ->
  rollback r <> rb_true.
Proof.
  unfold Win.mutate_registry.
  destruct ((if backup opts then Win.export_backup reg (scope opts) name else ret None) w)
    as [[p|e] w1] eqn:Hb.
  2:{ unfold bind at 1. rewrite Hb. discriminate. }
  unfold bind at 1. rewrite Hb.
  unfold bind at 1. unfold try_catch at 1. unfold bind at 1.
  pose proof (win_execFile_store args w1) as Hs2.
  destruct (Win.execFile reg args w1) as [[stdout|e] w2]; cbn [ret snd] in *.
  2:{ intros [= <- _]. discriminate. }
  pose proof (win_getRaw_store name (scope opts) w2) as Hs3.
  destruct (ReadTheorems.win_getRaw_returns reg name (scope opts) w2) as (raw & w3 & Hg).
  rewrite Hg in Hs3. cbn [snd] in Hs3.
  unfold bind at 1. rewrite Hg.
  destruct p as [path|].
  - destruct (negb (same_value raw intended) && rollbackOnFail opts
              && backup opts && truthy path).
    + assert (Hl : Backup.list (scope_name (scope opts)) (Win.store w3) <> []).
      { rewrite Hs3, Hs2. destruct (backup opts); [|discriminate Hb].
        eapply win_export_backup_listed. exact Hb. }
      unfold bind at 1. rewrite (win_import_backup_listed _ _ _ Hl).
      intros [= <- _]. discriminate.
    + intros [= <- _]. discriminate.
  - intros [= <- _]. discriminate.
Qed.

(** So, with such a directory, no result of the Windows adapter carries
    [rollback] true. *)
Lemma win_rollback_never_true name value opts w r w' :
  (Win.set reg name value opts w = (Returned r, w') -> rollback r <> rb_true) /\
  (Win.unset reg name opts w = (Returned r, w') -> rollback r <> rb_true).
Proof.
  unfold Win.set, Win.unset. split; destruct (scope opts);
    try (intros [= <- _]; discriminate);
    apply win_mutate_registry_rollback.
Qed.
End Rollback.

(** C5, the code at the failing input: on the POSIX adapter the write to a
    file that refuses it settles set and unset with the error of
    [writeFile]; more generally set and unset at user and at system scope
    settle with a thrown error on every input, and never with a result. *)
Theorem posix_write_failure_propagates :
  fst (Posix.set "FOO" "bar" (defaults system) posix_world) = Thrown "EACCES" /\
  fst (Posix.unset "LANG" (defaults system) posix_world) = Thrown "EACCES" /\
  forall name value opts w,
    match scope opts with
    | session => True
    | _ =>
        (exists e w', Posix.set name value opts w = (Thrown e, w')) /\
        (exists e w', Posix.unset name opts w = (Thrown e, w'))
    end.
Proof.
  split; [vm_compute; reflexivity|]. split; [vm_compute; reflexivity|].
  intros name value opts w. destruct (scope opts) eqn:E; [exact I| |];
    (split; [apply posix_set_throws|apply posix_unset_throws]; congruence).
Qed.

(** On the Windows adapter a registry command that fails gives a result
    with [ok] false and the error message as its note. *)
Example win_write_failure_reported :
  fst (Win.set RegSim.reg "OS" "Linux" (defaults system) win_world)
  = Returned {| ok := false; r_scope := system; r_name := "OS"; previous := None;
                next := Some "Linux"; verification := false; rollback := rb_null;
                notes := ["ERROR: Access is denied."] |}.
Proof. vm_compute. reflexivity. Qed.

(** C3, the code at the failing inputs: the verify option changes nothing.
    On both adapters set and unset behave, for every input, as they do
    with any other setting of the option; with verify false the Windows
    adapter still queries the registry after the write and reports the
    comparison as [ok]. *)
Theorem verify_option_ignored :
  (forall name value o b w,
     Posix.set name value (with_verify b o) w = Posix.set name value o w /\
     Posix.unset name (with_verify b o) w = Posix.unset name o w) /\
  (forall Registry (reg : list string -> Registry -> Outcome string * Registry)
          name value o b w,
     Win.set reg name value (with_verify b o) w = Win.set reg name value o w /\
     Win.unset reg name (with_verify b o) w = Win.unset reg name o w) /\
  (let run := Win.set RegSim.reg "FOO" "bar " (with_verify false (defaults user)) win_world in
   fst run = Returned {| ok := false; r_scope := user; r_name := "FOO"; previous := None;
                         next := Some "bar "; verification := false;
                         rollback := rb_undefined; notes := ["HKCU\Environment"] |} /\
   Win.calls (snd run)
   = [["export"; "HKCU\Environment"; "-"; "/y"];
      ["add"; "HKCU\Environment"; "/v"; "FOO"; "/d"; "bar "; "/f"];
      ["query"; "HKCU\Environment"; "/v"; "FOO"]]).
Proof.
  split; [intros; split; reflexivity|].
  split; [intros; split; reflexivity|].
  split; vm_compute; reflexivity.
Qed.

(** C4, the code at the failing input: on the Windows adapter, with the
    defaults (backup and rollbackOnFail enabled), set writes a value that
    the re-read does not give back; verification is false, yet nothing is
    imported, the registry keeps the written value and [rollback] is left
    undefined. *)
Theorem win_rollback_not_performed :
  let run := Win.set RegSim.reg "FOO" "bar " (defaults user) win_world in
  fst run = Returned {| ok := false; r_scope := user; r_name := "FOO"; previous := None;
                        next := Some "bar "; verification := false;
                        rollback := rb_undefined; notes := ["HKCU\Environment"] |} /\
  RegSim.hkcu (Win.registry win_world) = [("Path", "C:\bin")] /\
  RegSim.hkcu (Win.registry (snd run)) = [("Path", "C:\bin"); ("FOO", "bar ")] /\
  Backup.names (Win.store (snd run)) = ["user-FOO-2025-08-11T12-00-00-123Z.bak"] /\
  Win.calls (snd run)
  = [["export"; "HKCU\Environment"; "-"; "/y"];
     ["add"; "HKCU\Environment"; "/v"; "FOO"; "/d"; "bar "; "/f"];
     ["query"; "HKCU\Environment"; "/v"; "FOO"]].
Proof. repeat split; vm_compute; reflexivity. Qed.

(** *** unset followed by getRaw *)

(** C6 as stated fails.  On the Windows adapter, without the right to
    write the machine key, unset at system scope reports a failure and the
    getRaw that follows still reads the value.  On the POSIX adapter, at
    session scope, getRaw after unset of constructor returns the function
    that every object inherits under that name; and at user scope unset
    and the getRaw that follows both throw. *)
Lemma unset_then_getRaw_counterexample :
  let after := snd (Win.unset RegSim.reg "OS" (defaults system) win_world) in
  let after' := snd (Posix.unset "constructor" (defaults session) posix_world) in
  let after'' := snd (Posix.unset "FOO" (defaults user) posix_world) in
  fst (Win.getRaw RegSim.reg "OS" system after) = Returned (Some "Windows_NT") /\
  fst (Win.getRaw RegSim.reg "OS" system after) <> Returned None /\
  fst (Posix.getRaw "constructor" session after') = Returned (inherited "constructor") /\
  fst (Posix.getRaw "constructor" session after') <> Returned (plain None) /\
  fst (Posix.getRaw "FOO" user after'') = Thrown "Not implemented: getRaw user" /\
  fst (Posix.getRaw "FOO" user after'') <> Returned (plain None).
Proof.
  assert (E : fst (Win.getRaw RegSim.reg "OS" system
                     (snd (Win.unset RegSim.reg "OS" (defaults system) win_world)))
              = Returned (Some "Windows_NT")) by (vm_compute; reflexivity).
  assert (E' : fst (Posix.getRaw "constructor" session
                      (snd (Posix.unset "constructor" (defaults session) posix_world)))
               = Returned (inherited "constructor")) by (vm_compute; reflexivity).
  cbv zeta. split; [exact E|]. split; [rewrite E; discriminate|].
  split; [exact E'|]. split; [rewrite E'; discriminate|].
  split; [reflexivity|discriminate].
Qed.

Section UnsetThenGetRaw.
Context {Registry : Type}.
Variable reg : list string -> Registry -> Outcome string * Registry.

Lemma posix_unset_getRaw_session name opts w :
  scope opts = session ->
  fst (Posix.getRaw name session (snd (Posix.unset name opts w)))
  = Returned (if Backup.mem name Backup.inherited_keys then inherited name
              else plain None).
Proof.
  intros E. unfold Posix.unset. rewrite E. cbn. unfold process_env.
  rewrite lookup_delete_eq. reflexivity.
Qed.

Lemma win_unset_getRaw_session name opts w :
  scope opts = session ->
  fst (Win.getRaw reg name session (snd (Win.unset reg name opts w))) = Returned None.
Proof.
  intros E. unfold Win.unset. rewrite E. cbn.
  rewrite lookup_delete_eq. reflexivity.
Qed.

(** What a query answers depends on the registry alone. *)
Lemma win_getRaw_registry name sc w1 w2 :
  sc <> session -> Win.registry w1 = Win.registry w2 ->
  fst (Win.getRaw reg name sc w1) = fst (Win.getRaw reg name sc w2).
Proof.
  intros Hs Hr. unfold Win.getRaw. destruct sc; [congruence| |];
    unfold try_catch, bind, Win.execFile; rewrite Hr;
    destruct (reg _ (Win.registry w2)) as [[stdout|e] g]; reflexivity.
Qed.

Lemma win_getRaw_keeps_registry name sc w :
  query_reads reg -> Win.registry (snd (Win.getRaw reg name sc w)) = Win.registry w.
Proof.
  intros Hq. unfold Win.getRaw. destruct sc; [reflexivity| |];
    unfold try_catch, bind, Win.execFile;
    match goal with
    | |- context [reg ["query"; ?path; "/v"; ?n] (Win.registry w)] =>
        pose proof (Hq path n (Win.registry w)) as H;
        destruct (reg ["query"; path; "/v"; n] (Win.registry w)) as [[stdout|e] g]
    end; exact H.
Qed.

Lemma win_getRaw_normalized name sc w :
  Win.getRaw reg (Win.CASE_NORMALIZE name) sc w = Win.getRaw reg name sc w.
Proof.
  unfold Win.getRaw, Win.CASE_NORMALIZE. rewrite toUpperCase_idem. reflexivity.
Qed.

End UnsetThenGetRaw.

Section UnsetDeletes.
Context {Registry : Type}.
Variable reg : list string -> Registry -> Outcome string * Registry.

Lemma win_backup_step sc name (b : bool) w :
  exists p,
    (if b then Win.export_backup reg sc name else ret None) w
    = (Returned p, snd ((if b then Win.export_backup reg sc name else ret None) w)).
Proof.
  destruct b; [|cbn; eauto].
  destruct (win_export_backup_returns reg sc name w) as (p & w' & E).
  rewrite E. eauto.
Qed.

(** A deletion that the tool carries out: the re-read finds nothing and
    the result has [ok] true; a later read finds nothing either. *)
Lemma win_mutate_registry_deleted name opts args w out :
  query_reads reg -> scope opts <> session ->
  let sc := scope opts in
  let w1 := snd ((if backup opts then Win.export_backup reg sc name else ret None) w) in
  let g := snd (reg args (Win.registry w1)) in
  fst (reg args (Win.registry w1)) = Returned out ->
  (exists e,
     fst (reg ["query"; Win.regPath sc; "/v"; Win.CASE_NORMALIZE name] g) = Thrown e) ->
  let run := Win.mutate_registry reg name None opts args w in
  (exists r, fst run = Returned r /\ ok r = true) /\
  fst (Win.getRaw reg name sc (snd run)) = Returned None.
Proof.
  intros Hq Hs sc w1 g Hx [e He] run. subst run.
  assert (Hg : forall w2, Win.registry w2 = g ->
            exists w3, Win.getRaw reg name sc w2 = (Returned None, w3) /\
                       Win.registry w3 = g).
  { intros w2 E2. pose proof (Hq (Win.regPath sc) (Win.CASE_NORMALIZE name) g) as Hk.
    unfold Win.getRaw. fold sc.
    destruct sc eqn:Esc; [exfalso; apply Hs; exact Esc| |];
      unfold try_catch, bind, Win.execFile; rewrite E2;
      destruct (reg _ g) as [[o|e'] g']; cbn in He, Hk |- *;
      try discriminate; subst g'; eexists; split; reflexivity. }
  destruct (win_backup_step sc name (backup opts) w) as [p Hb]. fold w1 in Hb.
  assert (Hx2 : exists w2, Win.execFile reg args w1 = (Returned out, w2) /\
                           Win.registry w2 = g).
  { unfold Win.execFile. subst g.
    destruct (reg args (Win.registry w1)) as [[o|e'] g']; cbn in Hx |- *;
      [|discriminate]. injection Hx as ->. eexists. split; reflexivity. }
  destruct Hx2 as (w2 & Hx2 & E2).
  destruct (Hg w2 E2) as (w3 & Hg3 & E3).
  assert (Hrun : Win.mutate_registry reg name None opts args w
                 = (Returned {| ok := true; r_scope := sc; r_name := name;
                                previous := None; next := None; verification := true;
                                rollback := rb_undefined; notes := [Win.regPath sc] |},
                    w3)).
  { unfold Win.mutate_registry. fold sc.
    unfold bind at 1. rewrite Hb.
    unfold bind at 1. unfold try_catch at 1. unfold bind at 1. rewrite Hx2.
    cbn [ret]. unfold bind at 1. rewrite Hg3.
    destruct p as [path|]; reflexivity. }
  rewrite Hrun. cbn [fst snd]. split; [eexists; split; reflexivity|].
  destruct (Hg w3 E3) as (w4 & Hg4 & _). rewrite Hg4. reflexivity.
Qed.
End UnsetDeletes.

Lemma RegSim_query_reads : query_reads RegSim.reg.
Proof.
  intros path name g. unfold RegSim.reg.
  destruct (find _ (RegSim.values path g)); reflexivity.
Qed.

Lemma RegSim_values_with path vs g :
  RegSim.values path (RegSim.with_values path vs g) = vs.
Proof.
  unfold RegSim.values, RegSim.with_values.
  destruct (RegSim.is_user_key path); reflexivity.
Qed.

Lemma find_filtered {A} (p : A -> bool) l : find p (filter (fun x => negb (p x)) l) = None.
Proof.
  induction l as [|x l IH]; [reflexivity|]. cbn [filter].
  destruct (p x) eqn:E; cbn [negb]; [exact IH|]. cbn [find]. rewrite E. exact IH.
Qed.

Lemma RegSim_delete_removes : delete_removes RegSim.reg.
Proof.
  intros path name g.
  destruct (fst (RegSim.reg ["delete"; path; "/v"; name; "/f"] g)) eqn:E; [|exact I].
  unfold RegSim.reg in E |- *.
  destruct (negb (RegSim.writable path g)); [discriminate|].
  destruct (existsb _ (RegSim.values path g)); [|discriminate].
  cbn [fst snd]. rewrite RegSim_values_with, find_filtered. eauto.
Qed.

(** C6, amended.  At session scope unset followed by getRaw returns
    undefined on the Windows adapter for every name, and on the POSIX
    adapter for every name but those of the properties that every object
    inherits.  At user and at system scope on the Windows adapter, with a
    registry tool whose queries leave the registry as it is and fail for
    a value it has deleted: when reg delete succeeds, on the registry as
    the backup step left it, unset returns a result with [ok] true and the
    getRaw that follows returns undefined. *)
Theorem unset_then_getRaw_undefined {Registry : Type}
    (reg : list string -> Registry -> Outcome string * Registry)
    (name : string) (opts : Opts) :
  (scope opts = session ->
   (forall w : Posix.World,
      Backup.mem name Backup.inherited_keys = false ->
      fst (Posix.getRaw name session (snd (Posix.unset name opts w)))
      = Returned (plain None)) /\
   (forall w : Win.World Registry,
      fst (Win.getRaw reg name session (snd (Win.unset reg name opts w))) = Returned None)) /\
  (query_reads reg -> delete_removes reg -> scope opts <> session ->
   forall (w : Win.World Registry) (out : string),
     let sc := scope opts in
     let NAME := toUpperCase name in
     let w1 := snd ((if backup opts then Win.export_backup reg sc NAME else ret None) w) in
     fst (reg ["delete"; Win.regPath sc; "/v"; NAME; "/f"] (Win.registry w1))
     = Returned out ->
     (exists r, fst (Win.unset reg name opts w) = Returned r /\ ok r = true) /\
     fst (Win.getRaw reg name sc (snd (Win.unset reg name opts w))) = Returned None).
Proof.
  split.
  - intros E. split; intros w.
    + intros Hn. rewrite posix_unset_getRaw_session, Hn by assumption. reflexivity.
    + apply win_unset_getRaw_session. assumption.
  - intros Hq Hd Hs w out sc NAME w1 Hx.
    pose proof (Hd (Win.regPath sc) NAME (Win.registry w1)) as He. rewrite Hx in He.
    assert (Hu : Win.unset reg name opts w
                 = Win.mutate_registry reg NAME None opts
                     ["delete"; Win.regPath sc; "/v"; NAME; "/f"] w).
    { unfold Win.unset. fold sc. subst NAME. unfold Win.CASE_NORMALIZE.
      destruct sc eqn:Esc; [exfalso; apply Hs; exact Esc| |]; reflexivity. }
    rewrite Hu, <- (win_getRaw_normalized reg name).
    apply (win_mutate_registry_deleted reg NAME opts _ w out Hq Hs Hx).
    subst NAME. unfold Win.CASE_NORMALIZE. rewrite toUpperCase_idem. exact He.
Qed.

Lemma unset_then_getRaw_undefined_witness :
  let w := ExpandFixtures.posix_env_world {[ "FOO" := "bar" ]} in
  (fst (Posix.getRaw "FOO" session w) = Returned (plain (Some "bar")) /\
   fst (Posix.getRaw "FOO" session (snd (Posix.unset "FOO" (defaults session) w)))
   = Returned (plain None)) /\
  (fst (Win.getRaw RegSim.reg "Path" user win_world) = Returned (Some "C:\bin") /\
   fst (Win.getRaw RegSim.reg "Path" user
          (snd (Win.unset RegSim.reg "Path" (defaults user) win_world)))
   = Returned None).
Proof.
  intros w. split; (split; [vm_compute; reflexivity|]).
  - exact (proj1 (proj1 (unset_then_getRaw_undefined RegSim.reg "FOO" (defaults session))
                    eq_refl) w eq_refl).
  - refine (proj2 (proj2 (unset_then_getRaw_undefined RegSim.reg "Path" (defaults user))
                     RegSim_query_reads RegSim_delete_removes _ win_world
                     "The operation completed successfully." _)).
    + discriminate.
    + vm_compute. reflexivity.
Defined.

End MutationTheorems.

(* ------------------------------------------------------------------ *)
(** ** split and join                                                  *)
(* ------------------------------------------------------------------ *)

Module PathUtilsTheorems.
Import Js ExpandFacts Spec.

Section OneCharacter.
Variable d : ascii.
Local Abbreviation D := (String d EmptyString).

Lemma split_from_whole s :
  any_char (Ascii.eqb d) s = false -> split_from D s 0 = [s].
Proof.
  induction s as [|c s IH]; intros H; [reflexivity|].
  simpl in H. apply orb_false_iff in H as [Hc H].
  cbn [split_from startsWith]. rewrite Hc. cbn [andb]. rewrite (IH H). reflexivity.
Qed.

Lemma split_from_first s rest :
  any_char (Ascii.eqb d) s = false ->
  split_from D (s +:+ D +:+ rest) 0 = s :: split_from D rest 0.
Proof.
  induction s as [|c s IH]; intros H.
  - rewrite append_nil_l, append_cons, append_nil_l.
    cbn [split_from startsWith String.length]. rewrite Ascii.eqb_refl. reflexivity.
  - simpl in H. apply orb_false_iff in H as [Hc H].
    rewrite append_cons. cbn [split_from startsWith]. rewrite Hc. cbn [andb].
    rewrite (IH H). reflexivity.
Qed.

Lemma filter_truthy_clean segs :
  Forall (clean_segment d) segs -> filter truthy segs = segs.
Proof.
  induction 1 as [|s segs [Ht _] _ IH]; simpl; [reflexivity|].
  rewrite Ht, IH. reflexivity.
Qed.

Lemma split_from_join s segs :
  Forall (clean_segment d) (s :: segs) ->
  split_from D (arr_join D (s :: segs)) 0 = s :: segs.
Proof.
  revert s. induction segs as [|t segs IH]; intros s H.
  - inversion H as [|? ? [_ Hs] _]; subst. apply split_from_whole. assumption.
  - inversion H as [|? ? [_ Hs] H']; subst.
    change (arr_join D (s :: t :: segs)) with (s +:+ D +:+ arr_join D (t :: segs)).
    rewrite split_from_first by assumption. rewrite (IH t H'). reflexivity.
Qed.

Lemma truthy_join s segs :
  truthy s = true -> truthy (arr_join D (s :: segs)) = true.
Proof.
  intros H. destruct s as [|c s]; [discriminate|].
  destruct segs; reflexivity.
Qed.

(** What [split] gives back are the segments, trimmed. *)
Lemma split_join_trim segs :
  Forall (clean_segment d) segs ->
  PathUtils.split (PathUtils.join segs D) D = map trim segs.
Proof.
  intros H. unfold PathUtils.split, PathUtils.join.
  rewrite filter_truthy_clean by assumption.
  destruct segs as [|s segs]; [reflexivity|].
  rewrite truthy_join by (inversion H as [|? ? [Ht _] _]; assumption).
  unfold str_split. rewrite split_from_join by assumption. reflexivity.
Qed.
End OneCharacter.

(** C8 as stated fails: a segment may begin with white space, which
    [split] trims. *)
Lemma split_join_counterexample :
  Forall (clean_segment ":") [" a"] /\
  PathUtils.split (PathUtils.join [" a"] ":") ":" <> [" a"].
Proof.
  split.
  - repeat constructor.
  - vm_compute. discriminate.
Qed.

(** C8, amended: for every sequence of segments that are not empty, hold
    no delimiter character and have no white space at either end,
    [split (join segments d) d] is the sequence of segments. *)
Theorem split_join_roundtrip (d : ascii) (segments : list string) :
  Forall (clean_segment d) segments ->
  Forall trimmed segments ->
  PathUtils.split (PathUtils.join segments (String d EmptyString)) (String d EmptyString)
  = segments.
Proof.
  intros Hc Ht. rewrite split_join_trim by assumption.
  induction Ht as [|s segs Hs _ IH]; [reflexivity|].
  inversion Hc; subst. simpl. rewrite Hs, IH by assumption. reflexivity.
Qed.

Lemma split_join_roundtrip_witness :
  PathUtils.split (PathUtils.join ["/usr/bin"; "/bin"; "C:\Program Files"] ";") ";"
  = ["/usr/bin"; "/bin"; "C:\Program Files"].
Proof.
  apply (split_join_roundtrip ";" ["/usr/bin"; "/bin"; "C:\Program Files"]).
  - repeat constructor.
  - repeat constructor.
Defined.

End PathUtilsTheorems.

Module RetentionTheorems.
Import Js PurgeSpec Fixtures PurgeTheorems.

Example purge_keeps_one_per_scope :
  let run := Backup.purge codeUnitCompare 1 9999 noon busy_store in
  fst run = Returned 2 /\
  Backup.names (snd run)
  = ["system-PATH-2021-01-01T00-00-00-000Z.bak";
     "user-PATH-2022-01-01T00-00-00-000Z.bak"; "7-x"; "10-x"; "7-y"].
Proof. vm_compute. split; reflexivity. Qed.

Example purge_inherited_scope_throws :
  let st := Backup.with_entries busy_store [("user-A-1.bak", "a"); ("toString-A-1.bak", "b")] in
  Backup.purge codeUnitCompare 0 0 noon st = (Thrown PurgeSpec.push_error, st).
Proof. vm_compute. reflexivity. Qed.

Lemma busy_store_NoDup : NoDup (Backup.names busy_store).
Proof.
  unfold Backup.names. simpl.
  repeat (constructor; [simpl; intuition discriminate|]). constructor.
Qed.

Lemma purge_idempotent_monotonic_witness :
  let first := Backup.purge codeUnitCompare 1 9999 noon busy_store in
  let second := Backup.purge codeUnitCompare 1 9999 noon (snd first) in
  fst first = Returned 2 /\ fst second = Returned 0 /\ snd second = snd first.
Proof.
  destruct (purge_idempotent_monotonic codeUnitCompare 1 9999 noon busy_store
              codeUnitCompare_consistent busy_store_NoDup) as (H1 & H2 & _).
  split; [vm_compute; reflexivity|].
  split; [apply (H2 2); vm_compute; reflexivity|exact H1].
Defined.

(** As the age test never fires, the clock may even move between the two
    calls. *)
Lemma purge_second_call_any_clock lc mps mad now now' st :
  consistent lc -> NoDup (Backup.names st) ->
  snd (Backup.purge lc mps mad now' (snd (Backup.purge lc mps mad now st)))
  = snd (Backup.purge lc mps mad now st).
Proof.
  intros Hlc Hnd. rewrite (AgeFacts.purge_age_blind lc mps mad now' mad now).
  apply (purge_twice lc mps mad now Hlc st Hnd).
Qed.

(** C2, the code at the failing input: the directory holds one backup,
    written on 2020-01-01; on 2025-08-11 purge with maxPerScope 9999 and
    maxAgeDays 0 deletes nothing.  The time stamp is found, but the text
    made of it for [new Date] has colons in the date as well, is no date,
    and the file is not flagged, although its time stamp lies 2049 days
    and more before the clock. *)
Theorem purge_age_threshold_not_applied (lc : string -> string -> comparison) :
  let file := "user-PATH-2020-01-01T00-00-00-000Z.bak" in
  Backup.purge lc 9999 0 noon old_store = (Returned 0, old_store) /\
  find_fixed Backup.ts_pattern file = Some "2020-01-01T00-00-00" /\
  Backup.date_text "2020-01-01T00-00-00" = "2020:01:01T00:00:.00Z" /\
  Date_parse "2020:01:01T00:00:.00Z" = None /\
  Backup.tooOld noon 0 file = false /\
  Date_parse "2020-01-01T00:00:00Z" = Some 1577836800000%Z /\
  (2049 * msPerDay < noon - 1577836800000)%Z.
Proof. cbv zeta. repeat split; vm_compute; reflexivity. Qed.

End RetentionTheorems.

Module AdapterExamples.
Import Js Fixtures ProfileFixtures.

Example user_set_appends_block :
  Posix.user_set_content "FOO" "bar" "PATH=/bin" = profile_with "bar".
Proof. vm_compute. reflexivity. Qed.

Example user_set_replaces_line :
  Posix.user_set_content "FOO" "bar" (profile_with "baz") = profile_with "bar".
Proof. vm_compute. reflexivity. Qed.

(** The pattern of unset asks for the letter s after [export], not for
    white space: the line of the variable stays in the block. *)
Example user_unset_keeps_line :
  Posix.user_unset_content "FOO" (profile_with "baz") = profile_with "baz" /\
  Posix.unset_pattern "FOO" "export FOO='baz'" = false /\
  Posix.unset_pattern "FOO" "exportssFOO='baz'" = true.
Proof. vm_compute. repeat split; reflexivity. Qed.

Example system_set_appends :
  Posix.system_set_content "FOO" "bar" "LANG='C'" = "LANG='C'" +:+ Posix.LF +:+ "FOO='bar'".
Proof. vm_compute. reflexivity. Qed.

Example system_unset_removes :
  Posix.system_unset_content "LANG" ("LANG='C'" +:+ Posix.LF +:+ "FOO='bar'") = "FOO='bar'".
Proof. vm_compute. reflexivity. Qed.

Example expand_home :
  Posix.expand "PATH" {[ "HOME" := "/home/u" ]} "$HOME/bin" = "/home/u/bin".
Proof. vm_compute. reflexivity. Qed.

Example expand_mixed :
  Posix.expand "FOO" {[ "HOME" := "/home/u" ]} "$HOME/bin:$FOO:${FOO}:${HOME}:$NOPE:$"
  = "/home/u/bin:$FOO:${FOO}:/home/u::$".
Proof. vm_compute. reflexivity. Qed.

Example session_set_then_getExpanded :
  fst (Posix.getExpanded "FOO" session
         (snd (Posix.set "FOO" "bar" (defaults session) posix_world)))
  = Returned (Some "bar").
Proof. vm_compute. reflexivity. Qed.

Example win_getRaw_reads_registry :
  fst (Win.getRaw RegSim.reg "path" user win_world) = Returned (Some "C:\bin") /\
  fst (Win.getRaw RegSim.reg "nope" user win_world) = Returned None.
Proof. vm_compute. split; reflexivity. Qed.

Example win_query_text :
  Win.reg_value ("    FOO    REG_SZ    bar " +:+ RegSim.CRLF) false = Some "bar " /\
  Win.reg_value ("    FOO    REG_SZ    " +:+ RegSim.CRLF) false = Some " " /\
  Win.reg_value ("    REG_X    REG_SZ    bar" +:+ RegSim.CRLF) false = Some "REG_SZ    bar".
Proof. vm_compute. repeat split; reflexivity. Qed.

End AdapterExamples.

(* ------------------------------------------------------------------ *)
(** ** unique, normalizeCase, split and join: further laws            *)
(* ------------------------------------------------------------------ *)

Module PathUtilsFacts.
Import Js PathSpec Spec ExpandFacts.

(** *** trim *)

Lemma trimStart_headed s : headed (trimStart s).
Proof.
  induction s as [|c s IH]; simpl; [exact I|].
  destruct (is_space c) eqn:E; [exact IH|exact E].
Qed.

Lemma headed_trimStart s : headed s -> trimStart s = s.
Proof. destruct s as [|c s]; simpl; [reflexivity|]. intros ->. reflexivity. Qed.

Lemma headed_trimEnd s : headed s -> headed (trimEnd s).
Proof.
  destruct s as [|c s]; simpl; [exact (fun H => H)|]. intros H.
  destruct (trimEnd s); [rewrite H|]; exact H.
Qed.

Lemma trimEnd_idem s : trimEnd (trimEnd s) = trimEnd s.
Proof.
  induction s as [|c s IH]; [reflexivity|]. simpl.
  destruct (trimEnd s) as [|c' s'] eqn:E.
  - destruct (is_space c) eqn:Ec; simpl; [reflexivity|]. rewrite Ec. reflexivity.
  - change (trimEnd (String c (String c' s'))) with
      (match trimEnd (String c' s') with
       | EmptyString => if is_space c then EmptyString else String c EmptyString
       | r' => String c r'
       end).
    rewrite IH. reflexivity.
Qed.

Lemma trim_idem s : trim (trim s) = trim s.
Proof.
  unfold trim.
  rewrite (headed_trimStart (trimEnd (trimStart s)))
    by (apply headed_trimEnd, trimStart_headed).
  apply trimEnd_idem.
Qed.

Lemma any_char_trimStart p s : any_char p (trimStart s) = true -> any_char p s = true.
Proof.
  induction s as [|c s IH]; simpl; [discriminate|].
  destruct (is_space c); simpl; [|exact (fun H => H)].
  intros H. rewrite (IH H). apply orb_true_r.
Qed.

Lemma any_char_trimEnd p s : any_char p (trimEnd s) = true -> any_char p s = true.
Proof.
  induction s as [|c s IH]; simpl; [discriminate|].
  destruct (trimEnd s) as [|c' s'].
  - destruct (is_space c); simpl; [discriminate|].
    rewrite orb_false_r. intros ->. reflexivity.
  - cbn [any_char] in *. intros H. apply orb_true_iff in H as [H|H].
    + rewrite H. reflexivity.
    + rewrite (IH H). apply orb_true_r.
Qed.

Lemma free_of_trim d s : free_of d s -> free_of d (trim s).
Proof.
  unfold free_of, trim. intros H.
  destruct (any_char (Ascii.eqb d) (trimEnd (trimStart s))) eqn:E; [|reflexivity].
  apply any_char_trimEnd, any_char_trimStart in E. congruence.
Qed.

(** *** split *)

Section OneCharacter.
Variable d : ascii.
Local Abbreviation D := (String d EmptyString).

Lemma split_from_pieces s :
  Forall (free_of d) (split_from D s 0) /\
  length (split_from D s 0) = S (occurrences d s).
Proof.
  induction s as [|c s [IH1 IH2]].
  - split; [repeat constructor|reflexivity].
  - cbn [split_from startsWith occurrences String.length].
    destruct (Ascii.eqb d c) eqn:E; cbn [andb Nat.sub].
    + split; [constructor; [reflexivity|exact IH1]|simpl; rewrite IH2; reflexivity].
    + destruct (split_from D s 0) as [|h t]; [discriminate|].
      split; [|exact IH2].
      inversion IH1; subst. constructor; [|assumption].
      unfold free_of in *. simpl. rewrite E. assumption.
Qed.

Lemma split_shape value :
  Forall (fun s => free_of d s /\ trimmed s) (PathUtils.split value D).
Proof.
  unfold PathUtils.split. destruct (truthy value); [|constructor].
  unfold str_split. destruct (split_from_pieces value) as [H _].
  induction H as [|s l Hs _ IH]; simpl; constructor; [|exact IH].
  split; [apply free_of_trim; exact Hs|apply trim_idem].
Qed.

Lemma filter_truthy_idem (l : list string) :
  filter truthy (filter truthy l) = filter truthy l.
Proof.
  induction l as [|s l IH]; simpl; [reflexivity|].
  destruct (truthy s) eqn:E; simpl; [rewrite E, IH|]; auto.
Qed.

(** Segments that hold no delimiter and no white space at their ends come
    back from the joined text, the empty ones apart. *)
Lemma split_join_normal segs :
  Forall (fun s => free_of d s /\ trimmed s) segs ->
  PathUtils.split (PathUtils.join segs D) D = filter truthy segs.
Proof.
  intros H.
  assert (Hj : PathUtils.join segs D = PathUtils.join (filter truthy segs) D).
  { unfold PathUtils.join. rewrite filter_truthy_idem. reflexivity. }
  rewrite Hj, (PathUtilsTheorems.split_join_trim d); clear Hj.
  - induction H as [|s l [_ Hs] _ IH]; simpl; [reflexivity|].
    unfold trimmed in Hs.
    destruct (truthy s); simpl; [rewrite Hs, IH; reflexivity|exact IH].
  - induction H as [|s l [Hs _] _ IH]; simpl; [constructor|].
    destruct (truthy s) eqn:E; [constructor; [split; assumption|]|]; exact IH.
Qed.
End OneCharacter.

(** *** unique *)

Lemma unique_from_ext ci l : forall seen1 seen2,
  (forall x, existsb (String.eqb x) seen1 = existsb (String.eqb x) seen2) ->
  PathUtils.unique_from seen1 ci l = PathUtils.unique_from seen2 ci l.
Proof.
  induction l as [|s l IH]; intros seen1 seen2 H; simpl; [reflexivity|].
  rewrite H. destruct (existsb _ seen2); [apply IH; assumption|].
  f_equal. apply IH. intros x. simpl. rewrite H. reflexivity.
Qed.

Lemma unique_from_cons_filter ci k l : forall seen,
  PathUtils.unique_from (k :: seen) ci l
  = PathUtils.unique_from seen ci
      (filter (fun t => negb (String.eqb (key ci t) k)) l).
Proof.
  induction l as [|s l IH]; intros seen; [reflexivity|].
  cbn [PathUtils.unique_from filter existsb]. fold (key ci s).
  destruct (String.eqb (key ci s) k) eqn:E; cbn [negb orb].
  - apply IH.
  - cbn [PathUtils.unique_from]. fold (key ci s).
    destruct (existsb (String.eqb (key ci s)) seen); [apply IH|].
    f_equal. rewrite <- IH. apply unique_from_ext.
    intros x. simpl. destruct (String.eqb x (key ci s)), (String.eqb x k); reflexivity.
Qed.

Lemma unique_from_keys ci l : forall seen,
  NoDup (map (key ci) (PathUtils.unique_from seen ci l)) /\
  (forall t, In t (PathUtils.unique_from seen ci l) ->
             In t l /\ existsb (String.eqb (key ci t)) seen = false) /\
  (forall s, In s l -> existsb (String.eqb (key ci s)) seen = false ->
             In (key ci s) (map (key ci) (PathUtils.unique_from seen ci l))).
Proof.
  induction l as [|s l IH]; intros seen.
  - simpl. split; [constructor|]. split; [tauto|]. tauto.
  - cbn [PathUtils.unique_from]. fold (key ci s).
    destruct (existsb (String.eqb (key ci s)) seen) eqn:E.
    + destruct (IH seen) as (H1 & H2 & H3). split; [exact H1|]. split.
      * intros t Ht. destruct (H2 t Ht). split; [right|]; assumption.
      * intros s' [->|Hs'] Hn; [congruence|]. apply H3; assumption.
    + destruct (IH (key ci s :: seen)) as (H1 & H2 & H3). split; [|split].
      * simpl. constructor; [|exact H1].
        intros Hin. apply in_map_iff in Hin as (t & Ek & Ht).
        destruct (H2 t Ht) as [_ Hn]. simpl in Hn. rewrite Ek, String.eqb_refl in Hn.
        discriminate.
      * intros t [<-|Ht]; [split; [left; reflexivity|exact E]|].
        destruct (H2 t Ht) as [Hin Hn]. split; [right; exact Hin|].
        simpl in Hn. apply orb_false_iff in Hn. tauto.
      * intros s' Hs' Hn. simpl.
        destruct (String.eqb (key ci s') (key ci s)) eqn:Ek.
        -- left. apply String.eqb_eq in Ek. congruence.
        -- right. destruct Hs' as [->|Hs']; [rewrite String.eqb_refl in Ek; discriminate|].
           apply H3; [assumption|]. simpl. rewrite Ek, Hn. reflexivity.
Qed.

Lemma unique_from_idem ci l : forall seen,
  PathUtils.unique_from seen ci (PathUtils.unique_from seen ci l)
  = PathUtils.unique_from seen ci l.
Proof.
  induction l as [|s l IH]; intros seen; [reflexivity|].
  cbn [PathUtils.unique_from].
  destruct (existsb _ seen) eqn:E; [apply IH|].
  cbn [PathUtils.unique_from]. rewrite E. f_equal. apply IH.
Qed.

Lemma unique_from_upper l : forall seen,
  PathUtils.unique_from seen false (map toUpperCase l)
  = map toUpperCase (PathUtils.unique_from seen true l).
Proof.
  induction l as [|s l IH]; intros seen; [reflexivity|].
  cbn [PathUtils.unique_from map].
  destruct (existsb _ seen); [apply IH|]. simpl. f_equal. apply IH.
Qed.

End PathUtilsFacts.

Module PathUtilsLaws.
Import Js PathSpec Spec PathUtilsFacts.

(** X1: unique keeps, in the order of the input, the first segment of
    each key, the key being the segment itself or, without regard to case,
    its upper-case form.  No two segments of the result share a key, every
    key of the input is still there, the first segment always stays and
    takes the later segments of its key with it, and a second pass changes
    nothing. *)
Theorem unique_keeps_first (caseInsensitive : bool) (segments : list string) :
  NoDup (map (key caseInsensitive) (PathUtils.unique segments caseInsensitive)) /\
  (forall s, In s (PathUtils.unique segments caseInsensitive) -> In s segments) /\
  (forall s, In s segments ->
     In (key caseInsensitive s)
        (map (key caseInsensitive) (PathUtils.unique segments caseInsensitive))) /\
  (forall s rest,
     PathUtils.unique (s :: rest) caseInsensitive
     = s :: PathUtils.unique
              (filter (fun t => negb (String.eqb (key caseInsensitive t)
                                                 (key caseInsensitive s))) rest)
              caseInsensitive) /\
  PathUtils.unique (PathUtils.unique segments caseInsensitive) caseInsensitive
  = PathUtils.unique segments caseInsensitive.
Proof.
  unfold PathUtils.unique.
  destruct (unique_from_keys caseInsensitive segments []) as (H1 & H2 & H3).
  split; [exact H1|]. split; [intros s Hs; apply (H2 s Hs)|].
  split; [intros s Hs; apply H3; [exact Hs|reflexivity]|].
  split; [|apply unique_from_idem].
  intros s rest. cbn [PathUtils.unique_from existsb]. f_equal.
  apply unique_from_cons_filter.
Qed.

(** X2: removing duplicates without regard to case and then putting the
    segments in upper case gives the same list as putting them in upper
    case first and removing exact duplicates; normalizeCase applied twice
    is normalizeCase. *)
Theorem unique_normalizeCase (segments : list string) :
  PathUtils.unique (PathUtils.normalizeCase segments) false
  = PathUtils.normalizeCase (PathUtils.unique segments true) /\
  PathUtils.normalizeCase (PathUtils.normalizeCase segments)
  = PathUtils.normalizeCase segments.
Proof.
  split.
  - apply unique_from_upper.
  - unfold PathUtils.normalizeCase. rewrite map_map.
    apply map_ext. apply ExpandFacts.toUpperCase_idem.
Qed.

(** X3: with a delimiter of one character, every segment split returns
    holds no delimiter and has no white space at either end; the empty
    string has no segments, and any other value has one segment more than
    it has delimiters. *)
Theorem split_segments (d : ascii) (value : string) :
  Forall (fun s => free_of d s /\ trimmed s)
         (PathUtils.split value (String d EmptyString)) /\
  PathUtils.split EmptyString (String d EmptyString) = [] /\
  (value <> EmptyString ->
   length (PathUtils.split value (String d EmptyString)) = S (occurrences d value)).
Proof.
  split; [apply split_shape|]. split; [reflexivity|].
  intros Hv. unfold PathUtils.split. destruct value as [|c v]; [congruence|].
  cbn [truthy]. rewrite length_map. unfold str_split.
  apply (split_from_pieces d (String c v)).
Qed.

(** X4: splitting a value and joining the segments normalises it: the
    joined text splits into the segments that are not empty, and
    normalising it again gives the same text. *)
Theorem join_split_normal_form (d : ascii) (value : string) :
  let D := String d EmptyString in
  PathUtils.split (PathUtils.join (PathUtils.split value D) D) D
  = filter truthy (PathUtils.split value D) /\
  PathUtils.join (PathUtils.split (PathUtils.join (PathUtils.split value D) D) D) D
  = PathUtils.join (PathUtils.split value D) D.
Proof.
  intros D. pose proof (split_join_normal d _ (split_shape d value)) as H.
  split; [exact H|]. subst D. rewrite H.
  unfold PathUtils.join. rewrite filter_truthy_idem. reflexivity.
Qed.

End PathUtilsLaws.

(* ------------------------------------------------------------------ *)
(** ** The helpers for PATH-like variables                            *)
(* ------------------------------------------------------------------ *)

Module PathHelperFacts.
Import Js Async PathSpec Spec PathUtilsFacts.

(** *** The helpers at session scope *)

Lemma inherits_dec (e : gmap string string) name : inherits e name \/ ~ inherits e name.
Proof.
  unfold inherits. destruct (e !! name); [right; intros [H _]; discriminate|].
  destruct (Backup.mem name Backup.inherited_keys); [left; auto|right; intros [_ H]; discriminate].
Qed.

Lemma process_env_plain (e : gmap string string) name :
  ~ inherits e name -> process_env e name = plain (e !! name).
Proof.
  unfold process_env, inherits. intros H. destruct (e !! name); [reflexivity|].
  destruct (Backup.mem name Backup.inherited_keys); [|reflexivity].
  exfalso. apply H. auto.
Qed.

Lemma process_env_inherited (e : gmap string string) name :
  inherits e name -> process_env e name = inherited name.
Proof. unfold process_env. intros [-> ->]. reflexivity. Qed.

Lemma inherits_segments d (e : gmap string string) name :
  inherits e name -> segments d e name = [].
Proof. unfold segments, env_or_empty. intros [-> _]. reflexivity. Qed.

(** How a helper starts on POSIX: it reads the segments of the variable,
    or stops at [split] when the name gives an inherited property. *)
Lemma posix_helper_plain {A} name d (k : list string -> M Posix.World A) w :
  ~ inherits (Posix.env w) name ->
  bind (Posix.current name session)
       (fun cur => bind (split_current cur (String d EmptyString)) k) w
  = k (segments d (Posix.env w) name) w.
Proof.
  intros H. unfold Posix.current, bind at 1 2. rewrite ReadTheorems.posix_getRaw_session.
  rewrite (process_env_plain _ _ H). unfold segments, env_or_empty.
  destruct (Posix.env w !! name); reflexivity.
Qed.

Lemma posix_helper_inherited {A} name delim (k : list string -> M Posix.World A) w :
  inherits (Posix.env w) name ->
  bind (Posix.current name session) (fun cur => bind (split_current cur delim) k) w
  = (Thrown "TypeError: value.split is not a function", w).
Proof.
  intros H. unfold Posix.current, bind at 1 2. rewrite ReadTheorems.posix_getRaw_session.
  rewrite (process_env_inherited _ _ H). reflexivity.
Qed.

Lemma posix_set_session_env name value w :
  Posix.env (snd (Posix.set name value (defaults session) w))
  = <[name := value]> (Posix.env w).
Proof. reflexivity. Qed.

Lemma segments_insert d name value (e : gmap string string) :
  segments d (<[name := value]> e) name = PathUtils.split value (String d EmptyString).
Proof. unfold segments, env_or_empty. rewrite lookup_insert_eq. reflexivity. Qed.

Section WinSession.
Context {Registry : Type}.
Variable reg : list string -> Registry -> Outcome string * Registry.

Lemma win_current_session name w :
  Win.current reg name session w
  = (Returned (env_or_empty (Win.env w) (toUpperCase name)), w).
Proof.
  unfold Win.current, env_or_empty. cbn. unfold Win.CASE_NORMALIZE.
  destruct (Win.env w !! toUpperCase name); reflexivity.
Qed.

Lemma win_set_session_env name value w :
  Win.env (snd (Win.set reg name value (defaults session) w))
  = <[toUpperCase name := value]> (Win.env w).
Proof. reflexivity. Qed.
End WinSession.

Lemma shape_filter d (p : string -> bool) l :
  Forall (fun s => free_of d s /\ trimmed s) l ->
  Forall (fun s => free_of d s /\ trimmed s) (filter p l).
Proof.
  induction 1 as [|s l Hs _ IH]; simpl; [constructor|].
  destruct (p s); [constructor|]; assumption.
Qed.

Lemma shape_incl d l l' :
  (forall s, In s l' -> In s l) ->
  Forall (fun s => free_of d s /\ trimmed s) l ->
  Forall (fun s => free_of d s /\ trimmed s) l'.
Proof. intros Hi H. rewrite Forall_forall in *. auto. Qed.

Lemma filter_filter {A} (p q : A -> bool) l :
  filter p (filter q l) = filter (fun x => p x && q x) l.
Proof.
  induction l as [|x l IH]; simpl; [reflexivity|].
  destruct (q x); simpl; [destruct (p x); simpl; rewrite IH; reflexivity|].
  rewrite andb_false_r. exact IH.
Qed.

End PathHelperFacts.

Module PathHelperLaws.
Import Js Async EnvSpec PathSpec Spec PathUtilsFacts PathHelperFacts Fixtures.

Section Session.
Context {Registry : Type}.
Variable reg : list string -> Registry -> Outcome string * Registry.
Variable d : ascii.
Local Abbreviation D := (String d EmptyString).

(** What a helper leaves at session scope: the joined segments under the
    name, the other variables as they were. *)
Lemma posix_stored name segs (w w' : Posix.World) :
  Forall (fun s => free_of d s /\ trimmed s) segs ->
  Posix.env w' = <[name := PathUtils.join segs D]> (Posix.env w) ->
  segments d (Posix.env w') name = filter truthy segs /\
  (forall n, n <> name -> Posix.env w' !! n = Posix.env w !! n).
Proof.
  intros Hs ->. split.
  - rewrite segments_insert. apply split_join_normal. exact Hs.
  - intros n Hn. apply lookup_insert_ne. congruence.
Qed.

Lemma win_stored name segs (w w' : Win.World Registry) :
  Forall (fun s => free_of d s /\ trimmed s) segs ->
  Win.env w' = <[name := PathUtils.join segs D]> (Win.env w) ->
  segments d (Win.env w') name = filter truthy segs /\
  (forall n, n <> name -> Win.env w' !! n = Win.env w !! n).
Proof.
  intros Hs ->. split.
  - rewrite segments_insert. apply split_join_normal. exact Hs.
  - intros n Hn. apply lookup_insert_ne. congruence.
Qed.

Lemma posix_remove_env name values w :
  ~ inherits (Posix.env w) name ->
  Posix.env (snd (Posix.remove name session values D w))
  = <[name := PathUtils.join
        (filter (fun s => negb (includes values s)) (segments d (Posix.env w) name)) D]>
      (Posix.env w).
Proof.
  intros H. unfold Posix.remove. rewrite posix_helper_plain by exact H. reflexivity.
Qed.

Lemma win_remove_env name values w :
  Win.env (snd (Win.remove reg name session values D w))
  = <[toUpperCase name := PathUtils.join
        (filter (fun s => negb (includes values s))
                (segments d (Win.env w) (toUpperCase name))) D]>
      (Win.env w).
Proof.
  unfold Win.remove, bind. rewrite win_current_session. reflexivity.
Qed.

Lemma posix_unique_env name w :
  ~ inherits (Posix.env w) name ->
  Posix.env (snd (Posix.unique name session D w))
  = <[name := PathUtils.join
        (PathUtils.unique (segments d (Posix.env w) name) false) D]> (Posix.env w).
Proof.
  intros H. unfold Posix.unique. rewrite posix_helper_plain by exact H. reflexivity.
Qed.

Lemma win_unique_env name w :
  Win.env (snd (Win.unique reg name session D w))
  = <[toUpperCase name := PathUtils.join
        (PathUtils.unique (segments d (Win.env w) (toUpperCase name)) true) D]>
      (Win.env w).
Proof.
  unfold Win.unique, bind. rewrite win_current_session. reflexivity.
Qed.

Lemma posix_sort_env name w :
  ~ inherits (Posix.env w) name ->
  Posix.env (snd (Posix.sort name session D w))
  = <[name := PathUtils.join (arr_sort_default (segments d (Posix.env w) name)) D]>
      (Posix.env w).
Proof.
  intros H. unfold Posix.sort. rewrite posix_helper_plain by exact H. reflexivity.
Qed.

Lemma win_sort_env name w :
  Win.env (snd (Win.sort reg name session D w))
  = <[toUpperCase name :=
        PathUtils.join (arr_sort_default (segments d (Win.env w) (toUpperCase name))) D]>
      (Win.env w).
Proof.
  unfold Win.sort, bind. rewrite win_current_session. reflexivity.
Qed.






Lemma segments_shape e name :
  Forall (fun s => free_of d s /\ trimmed s) (segments d e name).
Proof. apply split_shape. Qed.

Lemma unique_shape ci l :
  Forall (fun s => free_of d s /\ trimmed s) l ->
  Forall (fun s => free_of d s /\ trimmed s) (PathUtils.unique l ci).
Proof.
  apply shape_incl. intros s Hs.
  destruct (unique_from_keys ci l []) as (_ & H & _). apply (H s Hs).
Qed.


Lemma sort_shape l :
  Forall (fun s => free_of d s /\ trimmed s) l ->
  Forall (fun s => free_of d s /\ trimmed s) (arr_sort_default l).
Proof. apply shape_incl. intros s Hs. apply SortFacts.arr_sort_In in Hs. exact Hs. Qed.

Lemma code_unit_order_consistent : consistent code_unit_order.
Proof. exact PurgeTheorems.codeUnitCompare_consistent. Qed.

Lemma sorted_segments l :
  filter truthy (arr_sort_default l) = arr_sort_default (filter truthy l) /\
  StronglySorted ascending (arr_sort_default (filter truthy l)) /\
  Permutation (arr_sort_default (filter truthy l)) (filter truthy l).
Proof.
  unfold arr_sort_default. split; [|split].
  - symmetry. apply SortFacts.arr_sort_filter. apply code_unit_order_consistent.
  - apply (SortFacts.arr_sort_sorted code_unit_order code_unit_order_consistent).
  - apply PurgeFacts.arr_sort_Permutation.
Qed.

Lemma NoDup_key_filter ci (p : string -> bool) l :
  NoDup (map (key ci) l) -> NoDup (map (key ci) (filter p l)).
Proof.
  induction l as [|s l IH]; simpl; [exact (fun H => H)|].
  intros H. inversion H as [|? ? Hn Hl]; subst.
  destruct (p s); simpl; [constructor|]; auto.
  intros Hin. apply Hn. apply in_map_iff in Hin as (t & Et & Ht).
  apply in_map_iff. exists t. split; [exact Et|]. apply filter_In in Ht. tauto.
Qed.

(** X5: at session scope remove leaves, of the segments of a variable
    with a name of word characters, those that are not empty and not
    among the values to remove, in their order; the other variables keep
    their values.  On Windows the variable is the one of the upper-case
    name. *)
Theorem path_remove_session (name : string) (values : list string) :
  variable_name name ->
  let left s := truthy s && negb (includes values s) in
  (forall w : Posix.World,
     let w' := snd (Posix.remove name session values D w) in
     segments d (Posix.env w') name = filter left (segments d (Posix.env w) name) /\
     (forall n, n <> name -> Posix.env w' !! n = Posix.env w !! n)) /\
  (forall w : Win.World Registry,
     let w' := snd (Win.remove reg name session values D w) in
     segments d (Win.env w') (toUpperCase name)
     = filter left (segments d (Win.env w) (toUpperCase name)) /\
     (forall n, n <> toUpperCase name -> Win.env w' !! n = Win.env w !! n)).
Proof.
  intros _ left. split; intros w w'.
  - destruct (inherits_dec (Posix.env w) name) as [Hi|Hi].
    { subst w'. unfold Posix.remove. rewrite posix_helper_inherited by exact Hi.
      cbn [snd]. rewrite (inherits_segments d _ _ Hi). split; [reflexivity|auto]. }
    destruct (posix_stored name _ w w'
                (shape_filter d _ _ (segments_shape (Posix.env w) name))
                (posix_remove_env name values w Hi)) as [H1 H2].
    split; [|exact H2]. rewrite H1. apply filter_filter.
  - destruct (win_stored (toUpperCase name) _ w w'
                (shape_filter d _ _ (segments_shape (Win.env w) (toUpperCase name)))
                (win_remove_env name values w)) as [H1 H2].
    split; [|exact H2]. rewrite H1. apply filter_filter.
Qed.

(** X6: at session scope unique leaves, of a variable with a name of word
    characters, the first segment of each key that is not empty, so that
    afterwards no two segments of the variable are equal (POSIX) or equal
    up to the case of their letters (Windows); the other variables keep
    their values. *)
Theorem path_unique_session (name : string) :
  variable_name name ->
  (forall w : Posix.World,
     let w' := snd (Posix.unique name session D w) in
     segments d (Posix.env w') name
     = filter truthy (PathUtils.unique (segments d (Posix.env w) name) false) /\
     NoDup (segments d (Posix.env w') name) /\
     (forall n, n <> name -> Posix.env w' !! n = Posix.env w !! n)) /\
  (forall w : Win.World Registry,
     let w' := snd (Win.unique reg name session D w) in
     segments d (Win.env w') (toUpperCase name)
     = filter truthy (PathUtils.unique (segments d (Win.env w) (toUpperCase name)) true) /\
     NoDup (map toUpperCase (segments d (Win.env w') (toUpperCase name))) /\
     (forall n, n <> toUpperCase name -> Win.env w' !! n = Win.env w !! n)).
Proof.
  intros _. split; intros w w'.
  - destruct (inherits_dec (Posix.env w) name) as [Hi|Hi].
    { subst w'. unfold Posix.unique. rewrite posix_helper_inherited by exact Hi.
      cbn [snd]. rewrite (inherits_segments d _ _ Hi).
      split; [reflexivity|]. split; [constructor|auto]. }
    destruct (posix_stored name _ w w'
                (unique_shape false _ (segments_shape (Posix.env w) name))
                (posix_unique_env name w Hi)) as [H1 H2].
    split; [exact H1|]. split; [|exact H2]. rewrite H1.
    destruct (unique_from_keys false (segments d (Posix.env w) name) []) as (Hn & _).
    apply (NoDup_key_filter false truthy) in Hn.
    unfold key in Hn. rewrite map_id in Hn. exact Hn.
  - destruct (win_stored (toUpperCase name) _ w w'
                (unique_shape true _ (segments_shape (Win.env w) (toUpperCase name)))
                (win_unique_env name w)) as [H1 H2].
    split; [exact H1|]. split; [|exact H2]. rewrite H1.
    destruct (unique_from_keys true (segments d (Win.env w) (toUpperCase name)) [])
      as (Hn & _).
    apply (NoDup_key_filter true truthy) in Hn. exact Hn.
Qed.

(** X7: at session scope sort leaves, of a variable with a name of word
    characters, the segments that are not empty, in ascending order of
    their code units: the same segments as before, each as often as
    before. *)
Theorem path_sort_session (name : string) :
  variable_name name ->
  (forall w : Posix.World,
     let w' := snd (Posix.sort name session D w) in
     let before := filter truthy (segments d (Posix.env w) name) in
     segments d (Posix.env w') name = arr_sort_default before /\
     StronglySorted ascending (segments d (Posix.env w') name) /\
     Permutation (segments d (Posix.env w') name) before) /\
  (forall w : Win.World Registry,
     let w' := snd (Win.sort reg name session D w) in
     let before := filter truthy (segments d (Win.env w) (toUpperCase name)) in
     segments d (Win.env w') (toUpperCase name) = arr_sort_default before /\
     StronglySorted ascending (segments d (Win.env w') (toUpperCase name)) /\
     Permutation (segments d (Win.env w') (toUpperCase name)) before).
Proof.
  intros _. split; intros w w' before.
  - destruct (inherits_dec (Posix.env w) name) as [Hi|Hi].
    { subst w' before. unfold Posix.sort. rewrite posix_helper_inherited by exact Hi.
      cbn [snd]. rewrite (inherits_segments d _ _ Hi).
      split; [reflexivity|]. split; constructor. }
    destruct (posix_stored name _ w w'
                (sort_shape _ (segments_shape (Posix.env w) name))
                (posix_sort_env name w Hi)) as [H1 _].
    destruct (sorted_segments (segments d (Posix.env w) name)) as (E & Hs & Hp).
    rewrite H1, E. auto.
  - destruct (win_stored (toUpperCase name) _ w w'
                (sort_shape _ (segments_shape (Win.env w) (toUpperCase name)))
                (win_sort_env name w)) as [H1 _].
    destruct (sorted_segments (segments d (Win.env w) (toUpperCase name))) as (E & Hs & Hp).
    rewrite H1, E. auto.
Qed.


Lemma validate_forall l :
  PathUtils.validate l = forallb (fun s => PathUtils.validate [s]) l.
Proof.
  unfold PathUtils.validate. induction l as [|s l IH]; [reflexivity|].
  cbn [forallb]. rewrite IH, andb_true_r. reflexivity.
Qed.

Lemma validate_In s l :
  In s l -> PathUtils.validate [s] = false -> PathUtils.validate l = false.
Proof.
  intros Hin Hs. rewrite validate_forall.
  destruct (forallb _ l) eqn:E; [|reflexivity].
  rewrite forallb_forall in E. rewrite (E s Hin) in Hs. discriminate.
Qed.

Lemma validate_upper s :
  PathUtils.validate [toUpperCase s] = PathUtils.validate [s].
Proof.
  unfold PathUtils.validate. cbn [forallb]. f_equal. f_equal; [destruct s; reflexivity|].
  f_equal. induction s as [|c s IH]; [reflexivity|].
  cbn [toUpperCase any_char]. rewrite IH. f_equal.
  destruct c as [[] [] [] [] [] [] [] []]; reflexivity.
Qed.

Lemma validate_key ci s : PathUtils.validate [key ci s] = PathUtils.validate [s].
Proof. destruct ci; [apply validate_upper|reflexivity]. Qed.

Lemma validate_maybe_unique (u ci : bool) s l :
  In s l -> PathUtils.validate [s] = false ->
  PathUtils.validate (if u then PathUtils.unique l ci else l) = false.
Proof.
  intros Hin Hs. destruct u; [|apply (validate_In s); assumption].
  destruct (unique_from_keys ci l []) as (_ & _ & H).
  specialize (H s Hin eq_refl). apply in_map_iff in H as (t & Et & Ht).
  apply (validate_In t); [exact Ht|].
  rewrite <- (validate_key ci t), Et, validate_key. exact Hs.
Qed.

(** X9: with validate set, prepend and append at session scope throw
    Invalid path segments, and leave everything as it was, as soon as one
    of the values or of the present segments of the variable is one that
    validate refuses: an empty one, or one with a NUL character or a
    quote.  On POSIX the name must be one that gives a variable or
    nothing: for an inherited property the helpers stop earlier, at
    split. *)
Theorem path_validate_rejects (name : string) (values : list string)
    (unique : bool) (s : string) :
  PathUtils.validate [s] = false ->
  (forall w : Posix.World,
     ~ inherits (Posix.env w) name ->
     In s (values ++ segments d (Posix.env w) name) ->
     Posix.prepend name session values unique true D w
     = (Thrown "Invalid path segments", w) /\
     Posix.append name session values unique true D w
     = (Thrown "Invalid path segments", w)) /\
  (forall w : Win.World Registry,
     In s (values ++ segments d (Win.env w) (toUpperCase name)) ->
     Win.prepend reg name session values unique true D w
     = (Thrown "Invalid path segments", w) /\
     Win.append reg name session values unique true D w
     = (Thrown "Invalid path segments", w)).
Proof.
  intros Hs. split; [intros w Hi Hin|intros w Hin]; split.
  - unfold Posix.prepend. rewrite posix_helper_plain by exact Hi. cbv zeta.
    rewrite (validate_maybe_unique unique false s) by assumption. reflexivity.
  - unfold Posix.append. rewrite posix_helper_plain by exact Hi. cbv zeta.
    rewrite (validate_maybe_unique unique false s); [reflexivity| |assumption].
    apply in_app_iff. apply in_app_iff in Hin. tauto.
  - unfold Win.prepend, bind. rewrite win_current_session.
    cbv zeta. fold (segments d (Win.env w) (toUpperCase name)).
    rewrite (validate_maybe_unique unique true s) by assumption. reflexivity.
  - unfold Win.append, bind. rewrite win_current_session.
    cbv zeta. fold (segments d (Win.env w) (toUpperCase name)).
    rewrite (validate_maybe_unique unique true s); [reflexivity| |assumption].
    apply in_app_iff. apply in_app_iff in Hin. tauto.
Qed.
End Session.


Lemma path_remove_session_witness :
  let w := ExpandFixtures.posix_env_world {[ "PATH" := "/foo:/a::/b:/foo" ]} in
  segments ":" (Posix.env (snd (Posix.remove "PATH" session ["/foo"] ":" w))) "PATH"
  = ["/a"; "/b"].
Proof.
  intros w.
  pose proof (path_remove_session RegSim.reg ":" "PATH" ["/foo"] (conj eq_refl eq_refl))
    as H.
  cbv zeta in H. destruct (proj1 H w) as [E _]. rewrite E. vm_compute. reflexivity.
Defined.

Lemma path_unique_session_witness :
  let w := ExpandFixtures.posix_env_world {[ "PATH" := "/a:/b:/a" ]} in
  segments ":" (Posix.env (snd (Posix.unique "PATH" session ":" w))) "PATH"
  = ["/a"; "/b"].
Proof.
  intros w.
  pose proof (path_unique_session RegSim.reg ":" "PATH" (conj eq_refl eq_refl)) as H.
  cbv zeta in H. destruct (proj1 H w) as [E _]. rewrite E. vm_compute. reflexivity.
Defined.

Lemma path_sort_session_witness :
  let w := ExpandFixtures.posix_env_world {[ "PATH" := "/b:/bar::/a" ]} in
  segments ":" (Posix.env (snd (Posix.sort "PATH" session ":" w))) "PATH"
  = ["/a"; "/b"; "/bar"].
Proof.
  intros w.
  pose proof (path_sort_session RegSim.reg ":" "PATH" (conj eq_refl eq_refl)) as H.
  cbv zeta in H. destruct (proj1 H w) as [E _]. rewrite E. vm_compute. reflexivity.
Defined.

Lemma path_validate_rejects_witness :
  let w := ExpandFixtures.posix_env_world {[ "PATH" := "/a:" ]} in
  Posix.prepend "PATH" session ["/foo"] true true ":" w
  = (Thrown "Invalid path segments", w).
Proof.
  intros w.
  refine (proj1 (proj1 (path_validate_rejects RegSim.reg ":" "PATH" ["/foo"] true
                          EmptyString eq_refl) w _ _)).
  - intros [H _]. vm_compute in H. discriminate.
  - vm_compute. right. right. left. reflexivity.
Defined.

(** X10: on the POSIX adapter, at user and at system scope, each of the
    six helpers for PATH-like variables throws the error of getRaw before
    it has read or written anything: the environment, the files and the
    backup directory are as they were. *)
Theorem posix_path_helpers_not_implemented (name : string) (sc : Scope)
    (values : list string) (unique validate raw : bool) (delim : string)
    (w : Posix.World) :
  sc <> session ->
  let e := "Not implemented: getRaw " +:+ scope_name sc in
  Posix.get name sc raw w = (Thrown e, w) /\
  Posix.prepend name sc values unique validate delim w = (Thrown e, w) /\
  Posix.append name sc values unique validate delim w = (Thrown e, w) /\
  Posix.remove name sc values delim w = (Thrown e, w) /\
  Posix.sort name sc delim w = (Thrown e, w) /\
  Posix.unique name sc delim w = (Thrown e, w).
Proof.
  intros Hs e. subst e.
  destruct sc; [congruence| |]; destruct raw; repeat split; reflexivity.
Qed.

Lemma posix_path_helpers_not_implemented_witness :
  Posix.prepend "PATH" user ["/usr/local/bin"] true false ":" posix_world
  = (Thrown "Not implemented: getRaw user", posix_world).
Proof.
  refine (proj1 (proj2 (posix_path_helpers_not_implemented "PATH" user ["/usr/local/bin"]
                          true false false ":" posix_world _))).
  discriminate.
Defined.

End PathHelperLaws.

(* ------------------------------------------------------------------ *)
(** ** createBackup and restore                                       *)
(* ------------------------------------------------------------------ *)

Module BackupFacts.
Import Js Re Async ExpandFacts EnvSpec BackupSpec.

Lemma append_inj_l (a x y : string) : a +:+ x = a +:+ y -> x = y.
Proof.
  induction a as [|c a IH]; [exact (fun H => H)|].
  rewrite !append_cons. intros [= H]. exact (IH H).
Qed.

Lemma path_join_inj dir a b : Backup.path_join dir a = Backup.path_join dir b -> a = b.
Proof.
  unfold Backup.path_join. intros H. apply append_inj_l in H.
  rewrite !append_cons, !append_nil_l in H. congruence.
Qed.

Lemma path_join_eqb dir a b :
  String.eqb (Backup.path_join dir a) (Backup.path_join dir b) = String.eqb a b.
Proof.
  destruct (String.eqb_spec a b) as [->|Hn]; [apply String.eqb_refl|].
  apply String.eqb_neq. intros H. apply Hn. eapply path_join_inj. exact H.
Qed.

Lemma find_put_file dir id c es :
  find (fun e => String.eqb (Backup.path_join dir (fst e)) (Backup.path_join dir id))
       (Backup.put_file id c es) = Some (id, c).
Proof.
  induction es as [|[n c'] es IH]; simpl.
  - rewrite String.eqb_refl. reflexivity.
  - destruct (String.eqb_spec n id) as [->|Hn]; simpl.
    + rewrite String.eqb_refl. reflexivity.
    + rewrite path_join_eqb. apply String.eqb_neq in Hn. rewrite Hn. exact IH.
Qed.

Lemma put_file_keeps id c es f c' :
  In (f, c') es -> f <> id -> In (f, c') (Backup.put_file id c es).
Proof.
  intros Hin Hn. induction es as [|[n x] es IH]; [contradiction|].
  simpl. destruct Hin as [[= -> ->]|Hin].
  - apply String.eqb_neq in Hn. rewrite Hn. left. reflexivity.
  - destruct (String.eqb n id); right; [exact Hin|exact (IH Hin)].
Qed.

Lemma put_file_names id c es f :
  In f (map fst es) -> In f (map fst (Backup.put_file id c es)).
Proof.
  induction es as [|[n x] es IH]; [contradiction|]. simpl.
  destruct (String.eqb n id); simpl; intros [->|H]; auto.
Qed.

Lemma createBackup_writable scope name value now st :
  Backup.dir_writable st = true ->
  Backup.createBackup scope name value now st
  = (Returned (Backup.path_join (Backup.dir_path st)
                 (scope +:+ "-" +:+ name +:+ "-" +:+ stamp now +:+ ".bak")),
     {| Backup.dir_path := Backup.dir_path st; Backup.dir_exists := true;
        Backup.entries :=
          Backup.put_file (scope +:+ "-" +:+ name +:+ "-" +:+ stamp now +:+ ".bak")
                          value (Backup.entries st);
        Backup.locked := Backup.locked st; Backup.dir_writable := true |}).
Proof. intros Hw. unfold Backup.createBackup. rewrite Hw. reflexivity. Qed.

Lemma createBackup_content scope name value now st :
  Backup.dir_writable st = true ->
  content_of (scope +:+ "-" +:+ name +:+ "-" +:+ stamp now +:+ ".bak")
             (snd (Backup.createBackup scope name value now st))
  = Returned value.
Proof.
  intros Hw. rewrite (createBackup_writable scope name value now st Hw).
  unfold content_of, Restore.readFile.
  cbn [snd Backup.dir_path Backup.entries Backup.dir_exists].
  rewrite find_put_file. reflexivity.
Qed.

Lemma drop_append a b : drop (String.length a) (a +:+ b) = b.
Proof. induction a as [|c a IH]; [reflexivity|]. rewrite append_cons. exact IH. Qed.

Lemma any_char_append p a b : any_char p (a +:+ b) = any_char p a || any_char p b.
Proof.
  induction a as [|c a IH]; [reflexivity|].
  rewrite append_cons. simpl. rewrite IH. apply orb_assoc.
Qed.

Lemma digit_char_digit v : is_digit (digit_char v) = true.
Proof.
  unfold digit_char.
  assert (H : (0 <= v mod 10 < 10)%Z) by (apply Z.mod_pos_bound; lia).
  assert (E : (v mod 10 = 0 \/ v mod 10 = 1 \/ v mod 10 = 2 \/ v mod 10 = 3 \/
               v mod 10 = 4 \/ v mod 10 = 5 \/ v mod 10 = 6 \/ v mod 10 = 7 \/
               v mod 10 = 8 \/ v mod 10 = 9)%Z) by lia.
  repeat (destruct E as [->|E]; [reflexivity|]). rewrite E. reflexivity.
Qed.

Lemma digit_not_newline c : is_digit c = true -> is_newline c = false.
Proof. destruct c as [[] [] [] [] [] [] [] []]; try discriminate; reflexivity. Qed.

Lemma pad_no_newline n : forall v, any_char is_newline (pad n v) = false.
Proof.
  induction n as [|n IH]; intros v; [reflexivity|].
  cbn [pad]. rewrite any_char_append, IH. simpl.
  rewrite (digit_not_newline _ (digit_char_digit v)). reflexivity.
Qed.

Lemma toISOString_no_newline t : any_char is_newline (toISOString t) = false.
Proof.
  unfold toISOString. destruct (civil_from_days (t / msPerDay)) as [[y m] d].
  repeat (rewrite any_char_append || rewrite pad_no_newline).
  destruct ((0 <=? y)%Z && (y <=? 9999)%Z); [rewrite pad_no_newline; reflexivity|].
  rewrite any_char_append, pad_no_newline. destruct (y <? 0)%Z; reflexivity.
Qed.

Lemma toISOString_truthy t : truthy (toISOString t) = true.
Proof.
  unfold toISOString. destruct (civil_from_days (t / msPerDay)) as [[y m] d].
  match goal with |- truthy (?a +:+ "-" +:+ ?b) = true => destruct a; reflexivity end.
Qed.

Lemma replace_all_char_any p c d s :
  p d = false -> any_char p s = false -> any_char p (replace_all_char c d s) = false.
Proof.
  intros Hd. induction s as [|a s IH]; [reflexivity|]. simpl.
  intros H. apply orb_false_iff in H as [Ha Hs]. rewrite (IH Hs).
  destruct (Ascii.eqb a c); [rewrite Hd|rewrite Ha]; reflexivity.
Qed.

Lemma replace_all_char_truthy c d s : truthy (replace_all_char c d s) = truthy s.
Proof. destruct s; reflexivity. Qed.

Lemma stamp_no_newline now : any_char is_newline (stamp now) = false.
Proof.
  unfold stamp. apply replace_all_char_any; [reflexivity|].
  apply replace_all_char_any; [reflexivity|]. apply toISOString_no_newline.
Qed.

Lemma stamp_truthy now : truthy (stamp now) = true.
Proof. unfold stamp. rewrite !replace_all_char_truthy. apply toISOString_truthy. Qed.

(** *** The pattern of restore on a name that createBackup made *)

Lemma bak_tail_stamp now : Restore.bak_tail (stamp now +:+ ".bak") = true.
Proof.
  unfold Restore.bak_tail. pose proof (stamp_truthy now) as Ht.
  repeat (apply andb_true_iff; split).
  - rewrite any_char_append, stamp_no_newline. reflexivity.
  - apply Nat.leb_le. rewrite length_append.
    destruct (stamp now); [discriminate|]. simpl. lia.
  - rewrite length_append.
    replace (String.length (stamp now) + String.length ".bak" - 4)
      with (String.length (stamp now)) by (simpl; lia).
    rewrite drop_append. reflexivity.
Qed.

Lemma scoped_created sc name now :
  variable_name name ->
  Restore.scoped sc
    (scope_name sc +:+ "-" +:+ name +:+ "-" +:+ stamp now +:+ ".bak")
  = Some (sc, name).
Proof.
  intros [Ht Hw]. unfold Restore.scoped.
  rewrite <- (append_assoc (scope_name sc) "-").
  rewrite startsWith_append, drop_append.
  rewrite (span_append is_word name ("-" +:+ stamp now +:+ ".bak") Hw eq_refl).
  rewrite append_cons, append_nil_l, Ht, bak_tail_stamp. reflexivity.
Qed.

Lemma backup_id_created sc name now :
  variable_name name ->
  Restore.backup_id
    (scope_name sc +:+ "-" +:+ name +:+ "-" +:+ stamp now +:+ ".bak")
  = Some (sc, name).
Proof.
  intros Hn. unfold Restore.backup_id.
  destruct sc.
  - rewrite (scoped_created session) by assumption. reflexivity.
  - rewrite (scoped_created user) by assumption. reflexivity.
  - rewrite (scoped_created system) by assumption. reflexivity.
Qed.

End BackupFacts.

Module RestoreFacts.
Import Js Re Async ExpandFacts EnvSpec BackupSpec BackupFacts.
Import Backup(Store, names, entries, dir_path, dir_exists, path_join).

Lemma find_absent dir id (es : list (string * string)) :
  ~ In id (map fst es) ->
  find (fun e => String.eqb (path_join dir (fst e)) (path_join dir id)) es = None.
Proof.
  induction es as [|[n c] es IH]; [reflexivity|]. simpl. intros H.
  rewrite path_join_eqb.
  destruct (String.eqb_spec n id) as [->|_]; [exfalso; apply H; left; reflexivity|].
  apply IH. tauto.
Qed.

Lemma content_of_absent id st : ~ In id (names st) -> content_of id st = Thrown "ENOENT".
Proof.
  intros H. unfold content_of, Restore.readFile.
  rewrite (find_absent _ _ _ H). reflexivity.
Qed.

Section Platform.
Context {W : Type}.
Variable store_of : W -> Store.
Variable restoreFromBackup : string -> Scope -> M W bool.

Lemma readFile_content id w :
  Restore.readFile store_of (path_join (dir_path (store_of w)) id) w
  = (content_of id (store_of w), w).
Proof.
  unfold content_of, Restore.readFile.
  destruct (find _ (entries (store_of w))) as [e|]; [|reflexivity].
  destruct (dir_exists (store_of w)); reflexivity.
Qed.

(** [restore] in the three ways it can go. *)
Lemma restore_unreadable id w e :
  content_of id (store_of w) = Thrown e ->
  Restore.restore store_of restoreFromBackup id w = (Returned false, w).
Proof.
  intros H. unfold Restore.restore, bind, gets, try_catch.
  rewrite readFile_content, H. reflexivity.
Qed.

Lemma restore_unmatched id w :
  Restore.backup_id id = None ->
  Restore.restore store_of restoreFromBackup id w = (Returned false, w).
Proof.
  intros H. unfold Restore.restore, bind, gets, try_catch.
  rewrite readFile_content, H.
  destruct (content_of id (store_of w)); reflexivity.
Qed.

Lemma restore_dispatch id w content sc n :
  content_of id (store_of w) = Returned content ->
  Restore.backup_id id = Some (sc, n) ->
  Restore.restore store_of restoreFromBackup id w
  = try_catch (restoreFromBackup content sc) (fun _ => ret false) w.
Proof.
  intros Hc Hm. unfold Restore.restore, bind, gets.
  unfold try_catch at 1. unfold bind. rewrite readFile_content, Hc, Hm. reflexivity.
Qed.
End Platform.

End RestoreFacts.

Module BackupLaws.
Import Js Re Async ExpandFacts EnvSpec BackupSpec BackupFacts RestoreFacts Fixtures.
Import Backup(Store, names, entries, dir_path, dir_exists, dir_writable, path_join).

(** X11: in a directory that can be written, createBackup for one of the
    three scopes and a variable name of word characters returns the path
    of a file named after scope, name and clock reading; afterwards list
    gives that name for the scope, the file holds the value, and the files
    of other names are there as before, with their content. *)
Theorem createBackup_listed (sc : Scope) (name value : string) (now : Z) (st : Store) :
  variable_name name -> dir_writable st = true ->
  let id := scope_name sc +:+ "-" +:+ name +:+ "-" +:+ stamp now +:+ ".bak" in
  let st' := snd (Backup.createBackup (scope_name sc) name value now st) in
  fst (Backup.createBackup (scope_name sc) name value now st)
  = Returned (path_join (dir_path st) id) /\
  In id (Backup.list (scope_name sc) st') /\
  content_of id st' = Returned value /\
  (forall f, In f (names st) -> In f (names st')) /\
  (forall f c, In (f, c) (entries st) -> f <> id -> In (f, c) (entries st')).
Proof.
  intros _ Hw. generalize (scope_name sc). intros scope id st'. subst st'.
  pose proof (createBackup_content scope name value now st Hw) as Hc.
  rewrite (createBackup_writable scope name value now st Hw) in Hc |- *.
  fold id in Hc |- *. cbn [fst snd] in Hc |- *.
  split; [reflexivity|]. split; [|split; [exact Hc|split]].
  - unfold Backup.list, Backup.readdir, names. cbn [dir_exists entries].
    apply filter_In. split; [apply MutationTheorems.put_file_In|].
    subst id. rewrite <- (append_assoc scope "-"). apply startsWith_append.
  - intros f Hf. unfold names. cbn [entries]. apply put_file_names. exact Hf.
  - intros f c Hf Hn. cbn [entries]. apply put_file_keeps; assumption.
Qed.

Lemma createBackup_listed_witness :
  let st' := snd (Backup.createBackup "user" "PATH" "/usr/bin" noon empty_store) in
  Backup.list "user" st' = ["user-PATH-2025-08-11T12-00-00-123Z.bak"] /\
  content_of "user-PATH-2025-08-11T12-00-00-123Z.bak" st' = Returned "/usr/bin".
Proof.
  intros st'.
  destruct (createBackup_listed user "PATH" "/usr/bin" noon empty_store
              (conj eq_refl eq_refl) eq_refl)
    as (_ & _ & H & _).
  split; [vm_compute; reflexivity|exact H].
Defined.

Section AnyRegistry.
Context {Registry : Type}.
Variable reg : list string -> Registry -> Outcome string * Registry.

(** X12: restore returns false, and changes nothing, when the id holds no
    path separator and the backup directory has no file of that name,
    when the id is not of the form scope-name-rest.bak with one of the
    three scopes, and when the scope is session; so on both platforms. *)
Theorem restore_refuses (id : string) :
  (forall w : Posix.World,
     (plain_name id /\ ~ In id (names (Posix.store w))) \/
     Restore.backup_id id = None \/
     (exists n, Restore.backup_id id = Some (session, n)) ->
     Restore.on_posix id w = (Returned false, w)) /\
  (forall w : Win.World Registry,
     (plain_name id /\ ~ In id (names (Win.store w))) \/
     Restore.backup_id id = None \/
     (exists n, Restore.backup_id id = Some (session, n)) ->
     Restore.on_win reg id w = (Returned false, w)).
Proof.
  split; intros w [[_ H]|[H|[n H]]].
  - eapply restore_unreadable. apply content_of_absent. exact H.
  - apply restore_unmatched. exact H.
  - unfold Restore.on_posix.
    destruct (content_of id (Posix.store w)) as [c|e] eqn:E.
    + rewrite (restore_dispatch _ _ _ _ _ _ _ E H). reflexivity.
    + eapply restore_unreadable. exact E.
  - eapply restore_unreadable. apply content_of_absent. exact H.
  - apply restore_unmatched. exact H.
  - unfold Restore.on_win.
    destruct (content_of id (Win.store w)) as [c|e] eqn:E.
    + rewrite (restore_dispatch _ _ _ _ _ _ _ E H). reflexivity.
    + eapply restore_unreadable. exact E.
Qed.

(** X14: on Windows restore of a backup of user or system scope writes
    the content of the backup to a file of the temporary directory, runs
    reg import on it once and returns whether the tool succeeded; when
    the file cannot be written it returns false and runs nothing.  It
    never throws, and touches neither the environment nor the backups. *)
Theorem win_restore_imports (id n content : string) (sc : Scope)
    (w : Win.World Registry) :
  Restore.backup_id id = Some (sc, n) -> sc <> session ->
  content_of id (Win.store w) = Returned content ->
  let tmp := Win.tmpdir w +:+ "\envm-restore-" +:+ Win.decimal (Win.clock w) +:+ ".reg" in
  let run := Restore.on_win reg id w in
  let tool := reg ["import"; tmp] (Win.registry w) in
  (Win.tmp_writable w = true ->
   fst run = Returned (match fst tool with Returned _ => true | Thrown _ => false end) /\
   Win.registry (snd run) = snd tool /\
   Win.tmpfiles (snd run) = <[tmp := content]> (Win.tmpfiles w) /\
   Win.calls (snd run) = Win.calls w ++ [["import"; tmp]] /\
   Win.env (snd run) = Win.env w /\ Win.store (snd run) = Win.store w) /\
  (Win.tmp_writable w = false -> run = (Returned false, w)).
Proof.
  intros Hm Hs Hc tmp run tool. subst run. unfold Restore.on_win.
  rewrite (restore_dispatch _ _ _ _ _ _ _ Hc Hm).
  unfold Win.restoreFromBackup.
  destruct sc; [congruence| |];
    unfold try_catch, bind, gets, Win.writeTmp, Win.execFile, ret;
    cbn [Win.clock Win.tmpdir Win.registry Win.env Win.calls Win.store Win.tmpfiles];
    fold tmp; (split; intros Hw; rewrite Hw; [|reflexivity]);
    cbn [Win.clock Win.tmpdir Win.registry Win.env Win.calls Win.store Win.tmpfiles];
    fold tool; destruct tool as [[out|e] g]; cbn; repeat split; reflexivity.
Qed.
End AnyRegistry.

(** X13: on POSIX a backup of user or system scope that createBackup
    wrote for a variable name is restored by its file name: restore
    writes the content back to the profile file or to /etc/environment
    and returns true, or returns false and changes nothing when the file
    refuses the write. *)
Theorem posix_backup_restore_roundtrip (sc : Scope) (name content : string)
    (w : Posix.World) :
  sc <> session -> variable_name name ->
  dir_writable (Posix.store w) = true ->
  let id := scope_name sc +:+ "-" +:+ name +:+ "-" +:+ stamp (Posix.clock w) +:+ ".bak" in
  let target := match sc with
                | user => path_join (Posix.homedir w) ".profile"
                | _ => "/etc/environment"
                end in
  let w1 := snd (Posix.createBackup sc name content w) in
  forall w2 : Posix.World,
    Posix.store w2 = Posix.store w1 -> Posix.homedir w2 = Posix.homedir w ->
    Restore.on_posix id w2
    = if Backup.mem target (Posix.readonly w2) then (Returned false, w2)
      else (Returned true, Posix.set_files (insert target content) w2).
Proof.
  intros Hs Hn Hw id target w1 w2 Hst Hh.
  pose proof (createBackup_content (scope_name sc) name content (Posix.clock w)
                (Posix.store w) Hw) as Hc.
  assert (Hc2 : content_of id (Posix.store w2) = Returned content).
  { rewrite Hst. subst w1. unfold Posix.createBackup.
    destruct (Backup.createBackup _ _ _ _ _) as [r s]. exact Hc. }
  unfold Restore.on_posix.
  rewrite (restore_dispatch _ _ _ _ _ _ _ Hc2 (backup_id_created sc name _ Hn)).
  subst target. destruct sc; [congruence| |];
    unfold Posix.restoreFromBackup, try_catch, bind, Posix.medium, gets, ret,
      Posix.writeFile; rewrite ?Hh;
    match goal with |- context [Backup.mem ?t ?l] => destruct (Backup.mem t l) end;
    reflexivity.
Qed.

Lemma posix_backup_restore_roundtrip_witness :
  let w1 := snd (Posix.createBackup user "PATH" "export A=1" posix_world) in
  Restore.on_posix "user-PATH-2025-08-11T12-00-00-123Z.bak" w1
  = (Returned true, Posix.set_files (insert "/home/u/.profile" "export A=1") w1).
Proof.
  intros w1.
  exact (posix_backup_restore_roundtrip user "PATH" "export A=1" posix_world
           ltac:(discriminate) (conj eq_refl eq_refl) eq_refl w1 eq_refl eq_refl).
Defined.

Lemma restore_refuses_witness :
  let w := snd (Posix.createBackup session "FOO" "bar" posix_world) in
  Backup.list "session" (Posix.store w) = ["session-FOO-2025-08-11T12-00-00-123Z.bak"] /\
  Restore.on_posix "session-FOO-2025-08-11T12-00-00-123Z.bak" w = (Returned false, w).
Proof.
  intros w. split; [vm_compute; reflexivity|].
  apply (proj1 (restore_refuses RegSim.reg
                  "session-FOO-2025-08-11T12-00-00-123Z.bak")).
  right. right. exists "FOO". vm_compute. reflexivity.
Defined.

Lemma win_restore_imports_witness :
  let w := snd (Win.set RegSim.reg "FOO" "bar" (defaults user) win_world) in
  let run := Restore.on_win RegSim.reg "user-FOO-2025-08-11T12-00-00-123Z.bak" w in
  fst run = Returned true /\
  Win.calls (snd run)
  = Win.calls w ++ [["import"; "C:\Temp\envm-restore-1754913600123.reg"]].
Proof.
  intros w run.
  destruct (win_restore_imports RegSim.reg
              "user-FOO-2025-08-11T12-00-00-123Z.bak" "FOO"
              ("HKEY_CURRENT_USER\Environment" +:+ RegSim.CRLF
               +:+ "    Path    REG_SZ    C:\bin" +:+ RegSim.CRLF) user w)
    as [H _].
  - vm_compute. reflexivity.
  - discriminate.
  - vm_compute. reflexivity.
  - destruct (H eq_refl) as (H1 & _ & _ & H4 & _). split; [exact H1|exact H4].
Defined.

End BackupLaws.

(* ------------------------------------------------------------------ *)
(** ** purge: count, bound and order                                  *)
(* ------------------------------------------------------------------ *)

Module RetentionFacts.
Import Js PurgeSpec PurgeFacts ExpandFacts.
Import Backup(Store, entries, locked, names, with_entries, mem, unlink, scope_of,
              purge_group, purge_groups, sort_desc, group_files, for_in, dir_exists).

(** *** The count that purge returns *)

Lemma length_filter_name f (es : list (string * string)) :
  NoDup (map fst es) -> In f (map fst es) ->
  S (length (filter (fun e => negb (String.eqb (fst e) f)) es)) = length es.
Proof.
  induction es as [|[n c] es IH]; [contradiction|]. simpl.
  intros Hnd Hin. inversion Hnd as [|? ? Hn Hes]; subst.
  destruct (String.eqb_spec n f) as [->|Hne]; simpl.
  - f_equal. clear IH Hin Hnd Hes. induction es as [|[m x] es IH]; [reflexivity|].
    simpl in *. destruct (String.eqb_spec m f) as [->|_]; [tauto|].
    simpl. f_equal. apply IH. tauto.
  - f_equal. apply IH; [assumption|]. destruct Hin; [congruence|assumption].
Qed.

Lemma NoDup_filter_names {A} (p : string * A -> bool) (es : list (string * A)) :
  NoDup (map fst es) -> NoDup (map fst (filter p es)).
Proof.
  induction es as [|e es IH]; simpl; [exact (fun H => H)|].
  intros H. inversion H as [|? ? Hn Hes]; subst.
  destruct (p e); simpl; [constructor|]; auto.
  intros Hin. apply Hn. apply in_map_iff in Hin as (x & Ex & Hx).
  apply in_map_iff. exists x. split; [exact Ex|]. apply filter_In in Hx. tauto.
Qed.

Lemma unlink_count f st :
  NoDup (names st) ->
  NoDup (names (fst (unlink f st))) /\
  length (entries st)
  = length (entries (fst (unlink f st))) + (if snd (unlink f st) then 1 else 0).
Proof.
  intros Hnd. unfold unlink.
  destruct (mem f (names st)) eqn:Em; cbn [andb]; [|split; [assumption|simpl; lia]].
  destruct (mem f (locked st)); cbn [negb fst snd]; [split; [assumption|lia]|].
  split.
  - unfold names, with_entries. cbn [entries]. apply NoDup_filter_names. exact Hnd.
  - unfold with_entries. cbn [entries].
    rewrite <- (length_filter_name f (entries st) Hnd); [lia|].
    apply mem_In. exact Em.
Qed.

Section Loops.
Variable lc : string -> string -> comparison.
Variables (mps mad now : Z).

Lemma purge_group_count group : forall i acc,
  NoDup (names (fst acc)) ->
  NoDup (names (fst (purge_group mps mad now i group acc))) /\
  length (entries (fst acc)) + snd acc
  = length (entries (fst (purge_group mps mad now i group acc)))
    + snd (purge_group mps mad now i group acc) /\
  snd acc <= snd (purge_group mps mad now i group acc).
Proof.
  induction group as [|f group IH]; intros i acc Hnd;
    [cbn [purge_group]; split; [assumption|lia]|].
  cbn [purge_group].
  destruct ((mps <=? Z.of_nat i)%Z || Backup.tooOld now mad f).
  - pose proof (unlink_count f (fst acc) Hnd) as [Hn Hl].
    destruct (unlink f (fst acc)) as [st' []]; cbn [fst snd] in *.
    + destruct (IH (S i) (st', S (snd acc)) Hn) as (H1 & H2 & H3).
      cbn [fst snd] in *. split; [exact H1|]. lia.
    + destruct (IH (S i) acc Hnd) as (H1 & H2 & H3). split; [exact H1|]. lia.
  - apply IH. exact Hnd.
Qed.

Lemma purge_groups_count gs : forall acc,
  NoDup (names (fst acc)) ->
  NoDup (names (fst (purge_groups lc mps mad now gs acc))) /\
  length (entries (fst acc)) + snd acc
  = length (entries (fst (purge_groups lc mps mad now gs acc)))
    + snd (purge_groups lc mps mad now gs acc) /\
  snd acc <= snd (purge_groups lc mps mad now gs acc).
Proof.
  induction gs as [|[k group] gs IH]; intros acc Hnd;
    [cbn [purge_groups]; split; [assumption|lia]|].
  cbn [purge_groups].
  destruct (purge_group_count (sort_desc lc group) 0 acc Hnd) as (H1 & H2 & H3).
  destruct (IH _ H1) as (H4 & H5 & H6). split; [exact H4|]. lia.
Qed.
End Loops.

(** *** What stays of a group *)

Section Kept.
Variables (mps mad now : Z).

Lemma kept_bound l : forall i,
  (Z.of_nat (length (kept mps mad now [] i l)) <= Z.max 0 (mps - Z.of_nat i))%Z.
Proof.
  induction l as [|f l IH]; intros i; [simpl; lia|].
  cbn [kept]. unfold attempt at 1.
  specialize (IH (S i)).
  destruct (mps <=? Z.of_nat i)%Z eqn:E; cbn [orb andb negb mem existsb].
  - apply Z.leb_le in E. lia.
  - apply Z.leb_gt in E.
    destruct (Backup.tooOld now mad f); cbn [andb]; [lia|]. simpl length. lia.
Qed.

Lemma doomed_all l : forall i,
  (mps <= Z.of_nat i)%Z -> doomed mps mad now [] i l = l.
Proof.
  induction l as [|f l IH]; intros i Hi; [reflexivity|].
  cbn [doomed]. unfold attempt at 1.
  apply Z.leb_le in Hi. rewrite Hi. cbn. f_equal. apply IH.
  apply Z.leb_le in Hi. lia.
Qed.

(** In a sorted group a file that goes stands behind every file that
    stays. *)
Lemma doomed_behind (R : string -> string -> Prop) l : forall i f g,
  StronglySorted R l ->
  In f (doomed mps mad now [] i l) -> In g l -> ~ In g (doomed mps mad now [] i l) ->
  R g f.
Proof.
  induction l as [|x l IH]; intros i f g Hs Hf Hg Hng; [contradiction|].
  inversion Hs as [|? ? Hs' Hx]; subst.
  cbn [doomed] in Hf, Hng. unfold attempt at 1 in Hf. unfold attempt at 1 in Hng.
  rewrite AgeFacts.tooOld_never, orb_false_r in Hf, Hng.
  destruct (mps <=? Z.of_nat i)%Z eqn:E; cbn [andb negb mem existsb] in Hf, Hng.
  - exfalso. apply Hng. apply Z.leb_le in E.
    rewrite (doomed_all l (S i)) by lia. exact Hg.
  - destruct Hg as [->|Hg].
    + rewrite Forall_forall in Hx. apply Hx. eapply doomed_In. exact Hf.
    + eapply IH; eassumption.
Qed.
End Kept.

Lemma startsWith_split p s : startsWith p s = true -> s = p +:+ drop (String.length p) s.
Proof.
  revert s. induction p as [|c p IH]; intros s H; [reflexivity|].
  destruct s as [|c' s]; [discriminate|]. simpl in H.
  apply andb_true_iff in H as [Hc H]. apply Ascii.eqb_eq in Hc. subst c'.
  rewrite append_cons. simpl. f_equal. apply IH. exact H.
Qed.

Lemma scope_of_lead k f :
  any_char (Ascii.eqb "-") k = false ->
  startsWith (k +:+ "-") f = true -> scope_of f = k.
Proof.
  intros Hk H. apply startsWith_split in H. rewrite H.
  rewrite append_assoc. unfold scope_of, str_split.
  rewrite (PathUtilsTheorems.split_from_first "-" k _ Hk). reflexivity.
Qed.

Lemma scope_name_plain sc : any_char (Ascii.eqb "-") (scope_name sc) = false.
Proof. destruct sc; reflexivity. Qed.

(** The groups of a directory whose names can be grouped. *)
Lemma groups_of (files : list string) :
  groupable files = true ->
  exists o, group_files files [] = Returned o /\ grouped o files.
Proof.
  intros Hg. destruct (group_files_returns files [] Hg) as [o Ho].
  exists o. split; [exact Ho|].
  apply (group_files_grouped files [] [] o grouped_nil Ho).
Qed.

Section Calls.
Variable lc : string -> string -> comparison.
Variables (mps mad now : Z).

(** A file that one call leaves, seen in the sorted group of its scope. *)
Lemma survivor st o f :
  NoDup (names st) ->
  group_files (names st) [] = Returned o -> grouped o (names st) ->
  In f (names st) ->
  let group := sort_desc lc (grp (scope_of f) (names st)) in
  NoDup group /\ In f group /\
  (In f (removed lc mps mad now (locked st) (for_in o))
   <-> In f (doomed mps mad now (locked st) 0 group)).
Proof.
  intros Hnd Ho (Hfs & Hk & Hcov & _) Hf group.
  assert (Hg : In f (grp (scope_of f) (names st))) by (apply grp_In; auto).
  split; [|split].
  - apply SortFacts.arr_sort_NoDup. apply NoDup_filter. exact Hnd.
  - apply sorted_In. exact Hg.
  - rewrite removed_In. split.
    + intros ([k fs] & Hin & Hd). cbn [snd] in Hd.
      apply (proj1 (for_in_In o (k, fs))) in Hin. pose proof (Hfs k fs Hin) as ->.
      pose proof (doomed_In _ _ _ _ _ _ _ Hd) as Hin'.
      apply (proj1 (sorted_In lc _ f)) in Hin'.
      apply (proj1 (grp_In k _ f)) in Hin'. destruct Hin' as [_ <-]. exact Hd.
    + intros Hd. specialize (Hcov f Hf). apply in_map_iff in Hcov as ([k fs] & Ek & Hin).
      cbn [fst] in Ek. subst k. exists (scope_of f, fs). split; [apply (proj2 (for_in_In o _)); exact Hin|].
      cbn [snd]. rewrite (Hfs _ _ Hin). exact Hd.
Qed.
End Calls.

End RetentionFacts.

Module RetentionLaws.
Import Js PurgeSpec PurgeFacts ExpandFacts RetentionFacts Fixtures StoreFixtures.
Import Backup(Store, entries, locked, names, with_entries, mem, unlink, scope_of,
              purge_group, purge_groups, sort_desc, group_files, for_in, dir_exists,
              inherited_keys).

Section OneCall.
Variable lc : string -> string -> comparison.
Variables (mps mad now : Z).
Local Abbreviation purge := (Backup.purge lc mps mad now).

(** A call that returns, on a directory of distinct names: either there
    is no directory and nothing changes, or the store afterwards is the
    store without the files the groups lose. *)
Lemma purge_outcome st n :
  NoDup (names st) -> fst (purge st) = Returned n ->
  (dir_exists st = false /\ snd (purge st) = st) \/
  (dir_exists st = true /\
   exists o, group_files (names st) [] = Returned o /\ grouped o (names st) /\
     snd (purge st)
     = without (removed lc mps mad now (locked st) (for_in o)) st).
Proof.
  intros Hnd Hr. destruct (dir_exists st) eqn:Ed.
  - right. split; [reflexivity|].
    destruct (groupable (names st)) eqn:Eg.
    + destruct (groups_of _ Eg) as (o & Ho & Hg). exists o.
      split; [exact Ho|]. split; [exact Hg|].
      rewrite (purge_returns lc mps mad now st Hnd Ed Eg). cbn [snd].
      unfold removed_from. rewrite Ho. reflexivity.
    + rewrite (purge_throws lc mps mad now st Ed Eg) in Hr. discriminate.
  - left. split; [reflexivity|]. rewrite (purge_no_dir lc mps mad now st Ed). reflexivity.
Qed.

Lemma names_after D st f :
  In f (names (without D st)) <-> In f (names st) /\ ~ In f D.
Proof.
  rewrite names_without, filter_In, negb_true_iff. rewrite mem_false. reflexivity.
Qed.

(** X15: on a directory of distinct names, the number purge returns is
    the number of files that are gone afterwards, and every file there
    afterwards was there before. *)
Theorem purge_count_exact (st : Store) (n : nat) :
  NoDup (names st) ->
  fst (purge st) = Returned n ->
  length (entries st) = length (entries (snd (purge st))) + n /\
  (forall f, In f (names (snd (purge st))) -> In f (names st)).
Proof.
  intros Hnd Hr. split.
  - revert Hr. unfold Backup.purge.
    destruct (Backup.readdir st) as [files|e]; [|intros [= <-]; simpl; lia].
    destruct (group_files files []) as [o|e]; [|discriminate].
    pose proof (purge_groups_count lc mps mad now (for_in o) (st, 0) Hnd) as (_ & H & _).
    destruct (purge_groups lc mps mad now (for_in o) (st, 0)) as [st' k].
    cbn [fst snd] in *. intros [= <-]. lia.
  - destruct (purge_outcome st n Hnd Hr) as [[_ ->]|(_ & o & _ & _ & ->)];
      [exact (fun f H => H)|].
    intros f Hf. apply names_after in Hf. tauto.
Qed.

(** X16: when every file can be deleted, a purge that returns leaves, for
    each of the three scopes, at most maxPerScope backups for list to
    find (none when maxPerScope is negative). *)
Theorem purge_retention_bound (st : Store) (n : nat) (sc : Scope) :
  NoDup (names st) -> locked st = [] ->
  fst (purge st) = Returned n ->
  (Z.of_nat (length (Backup.list (scope_name sc) (snd (purge st)))) <= Z.max 0 mps)%Z.
Proof.
  intros Hnd Hlk Hr.
  destruct (purge_outcome st n Hnd Hr) as [[Ed ->]|(Ed & o & Ho & Hg & ->)].
  - unfold Backup.list, Backup.readdir. rewrite Ed. simpl. lia.
  - set (k := scope_name sc).
    set (group := sort_desc lc (grp k (names st))).
    set (D := removed lc mps mad now (locked st) (for_in o)).
    assert (Hl : Backup.list k (without D st)
                 = filter (startsWith (k +:+ "-")) (names (without D st))).
    { unfold Backup.list, Backup.readdir. cbn [dir_exists without with_entries].
      rewrite Ed. reflexivity. }
    rewrite Hl.
    assert (Hin : incl (filter (startsWith (k +:+ "-")) (names (without D st)))
                       (kept mps mad now [] 0 group)).
    { intros f Hf. apply filter_In in Hf as [Hf Hs].
      apply names_after in Hf as [Hf HnD].
      pose proof (scope_of_lead k f (scope_name_plain sc) Hs) as Ek.
      destruct (survivor lc mps mad now st o f Hnd Ho Hg Hf) as (Hg1 & Hg2 & Hg3).
      rewrite Ek in Hg1, Hg2, Hg3. fold group in Hg1, Hg2, Hg3. fold D in Hg3.
      rewrite Hlk in Hg3.
      rewrite (kept_filter mps mad now [] 0 group Hg1). apply filter_In.
      split; [exact Hg2|]. apply negb_true_iff, mem_false. tauto. }
    assert (Hnd' : NoDup (filter (startsWith (k +:+ "-")) (names (without D st)))).
    { apply NoDup_filter. rewrite names_without. apply NoDup_filter. exact Hnd. }
    pose proof (NoDup_incl_length Hnd' Hin) as Hlen.
    pose proof (kept_bound mps mad now group 0) as Hb. simpl Z.of_nat in Hb. lia.
Qed.

(** X17: within a scope purge keeps the names that the collation puts
    last: when the comparison is consistent and every file can be
    deleted, a file that is removed never compares greater than a file of
    the same scope prefix that stays. *)
Theorem purge_keeps_highest (st : Store) (n : nat) (f g : string) :
  consistent lc -> NoDup (names st) -> locked st = [] ->
  fst (purge st) = Returned n ->
  In f (names st) -> ~ In f (names (snd (purge st))) ->
  In g (names (snd (purge st))) ->
  scope_of g = scope_of f ->
  lc f g <> Gt.
Proof.
  intros Hlc Hnd Hlk Hr Hf Hgone Hg Hsc.
  destruct (purge_outcome st n Hnd Hr) as [[_ E]|(Ed & o & Ho & Hgr & E)];
    rewrite E in Hgone, Hg; [contradiction|].
  set (D := removed lc mps mad now (locked st) (for_in o)) in *.
  apply names_after in Hg as [Hg HgD].
  assert (HfD : In f D).
  { destruct (in_dec string_dec f D) as [H|H]; [exact H|].
    exfalso. apply Hgone. apply names_after. tauto. }
  destruct (survivor lc mps mad now st o f Hnd Ho Hgr Hf) as (_ & _ & Hf3).
  destruct (survivor lc mps mad now st o g Hnd Ho Hgr Hg) as (_ & Hg2 & Hg3).
  rewrite Hsc in Hg2, Hg3. fold D in Hf3, Hg3. rewrite Hlk in Hf3, Hg3.
  apply (doomed_behind mps mad now (precedes (fun a b => lc b a))
           (sort_desc lc (grp (scope_of f) (names st))) 0 f g).
  - apply SortFacts.arr_sort_sorted. apply descending_consistent. exact Hlc.
  - apply Hf3. exact HfD.
  - exact Hg2.
  - intros H. apply HgD. apply Hg3. exact H.
Qed.

(** X18: purge throws a TypeError, and removes nothing, exactly when the
    directory exists and holds a file whose name begins, up to its first
    hyphen, with the name of a property that every object inherits
    (constructor, toString, ...); otherwise it returns a count. *)
Theorem purge_rejects_inherited_prefix (st : Store) :
  dir_exists st = true ->
  ((exists f, In f (names st) /\ mem (scope_of f) inherited_keys = true) ->
   purge st = (Thrown "TypeError: byScope[scope].push is not a function", st)) /\
  ((forall f, In f (names st) -> mem (scope_of f) inherited_keys = false) ->
   exists k st', purge st = (Returned k, st')).
Proof.
  intros Ed. split.
  - intros (f & Hf & Hm). apply (purge_throws lc mps mad now st Ed).
    unfold groupable. destruct (forallb _ (names st)) eqn:E; [|reflexivity].
    rewrite forallb_forall in E. specialize (E f Hf). rewrite Hm in E. discriminate.
  - intros H. assert (Hg : groupable (names st) = true).
    { unfold groupable. apply forallb_forall. intros f Hf. rewrite (H f Hf). reflexivity. }
    destruct (group_files_returns (names st) [] Hg) as [o Ho].
    unfold Backup.purge, Backup.readdir. rewrite Ed, Ho.
    destruct (purge_groups lc mps mad now (for_in o) (st, 0)) as [st' k]. eauto.
Qed.
End OneCall.

Lemma purge_count_exact_witness :
  length (entries busy_store)
  = length (entries (snd (Backup.purge codeUnitCompare 1 9999 noon busy_store))) + 2.
Proof.
  refine (proj1 (purge_count_exact codeUnitCompare 1 9999 noon busy_store 2
                   RetentionTheorems.busy_store_NoDup _)).
  vm_compute. reflexivity.
Defined.

Lemma plain_store_NoDup : NoDup (Backup.names plain_store).
Proof.
  unfold Backup.names. simpl.
  repeat (constructor; [simpl; intuition discriminate|]). constructor.
Qed.

Lemma purge_retention_bound_witness :
  (Z.of_nat (length (Backup.list "user"
                       (snd (Backup.purge codeUnitCompare 1 9999 noon plain_store))))
   <= 1)%Z.
Proof.
  refine (purge_retention_bound codeUnitCompare 1 9999 noon plain_store 3
            user plain_store_NoDup eq_refl _).
  vm_compute. reflexivity.
Defined.

Lemma purge_keeps_highest_witness :
  codeUnitCompare "user-HOME-2023-01-01T00-00-00-000Z.bak"
                  "user-PATH-2022-01-01T00-00-00-000Z.bak" <> Gt.
Proof.
  refine (purge_keeps_highest codeUnitCompare 1 9999 noon plain_store 3
            "user-HOME-2023-01-01T00-00-00-000Z.bak"
            "user-PATH-2022-01-01T00-00-00-000Z.bak"
            PurgeTheorems.codeUnitCompare_consistent plain_store_NoDup eq_refl
            _ _ _ _ _).
  - vm_compute. reflexivity.
  - vm_compute. tauto.
  - vm_compute. intuition discriminate.
  - vm_compute. tauto.
  - vm_compute. reflexivity.
Defined.

Lemma purge_rejects_inherited_prefix_witness :
  Backup.purge codeUnitCompare 20 30 noon odd_store
  = (Thrown "TypeError: byScope[scope].push is not a function", odd_store).
Proof.
  refine (proj1 (purge_rejects_inherited_prefix codeUnitCompare 20 30 noon
                   odd_store eq_refl) _).
  exists "toString-A-1.bak". split; [vm_compute; tauto|vm_compute; reflexivity].
Defined.

End RetentionLaws.

(* ------------------------------------------------------------------ *)
(** ** getExpanded: plain values and bound references                 *)
(* ------------------------------------------------------------------ *)

Module ExpandLaws.
Import Js Re Async ExpandFacts Spec Fixtures ReadTheorems.

Lemma posix_expand_literal name e val :
  any_char (Ascii.eqb "$") val = false -> Posix.expand name e val = val.
Proof.
  intros H. unfold Posix.expand. rewrite <- (append_nil_r val) at 1.
  rewrite (replace_matches_literal _ _ "$") by (auto using posix_ref_needs_dollar).
  apply append_nil_r.
Qed.

Lemma win_expand_literal name e val :
  any_char (Ascii.eqb "%") val = false -> Win.expand name e val = val.
Proof.
  intros H. unfold Win.expand. rewrite <- (append_nil_r val) at 1.
  rewrite (replace_matches_literal _ _ "%") by (auto using win_ref_needs_percent).
  apply append_nil_r.
Qed.

(** X19: a value without the reference character ([$] on POSIX, [%] on
    Windows) is returned by getExpanded as getRaw gives it, and an
    undefined value stays undefined. *)
Theorem reference_free_value_unchanged {Registry : Type}
    (reg : list string -> Registry -> Outcome string * Registry)
    (name : string) (sc : Scope) :
  (forall (w w' : Posix.World) (raw : Value),
     match raw with
     | Some val => any_char (Ascii.eqb "$") val = false
     | None => True
     end ->
     Posix.getRaw name sc w = (Returned (plain raw), w') ->
     Posix.getExpanded name sc w = (Returned raw, w')) /\
  (forall (w w' : Win.World Registry) (raw : Value),
     match raw with
     | Some val => any_char (Ascii.eqb "%") val = false
     | None => True
     end ->
     Win.getRaw reg name sc w = (Returned raw, w') ->
     Win.getExpanded reg name sc w = (Returned raw, w')).
Proof.
  split; intros w w' [val|] Hv H.
  - unfold Posix.getExpanded, bind. rewrite H.
    destruct (truthy val); [|reflexivity].
    cbn. rewrite posix_expand_literal by assumption. reflexivity.
  - unfold Posix.getExpanded, bind. rewrite H. reflexivity.
  - unfold Win.getExpanded, bind. rewrite H.
    destruct (truthy val); [|reflexivity].
    cbn. rewrite win_expand_literal by assumption. reflexivity.
  - unfold Win.getExpanded, bind. rewrite H. reflexivity.
Qed.

Lemma reference_free_value_unchanged_witness :
  Posix.getExpanded "HOME" session (ExpandFixtures.posix_env_world {[ "HOME" := "/home/u" ]})
  = (Returned (Some "/home/u"), ExpandFixtures.posix_env_world {[ "HOME" := "/home/u" ]}).
Proof.
  apply (proj1 (reference_free_value_unchanged RegSim.reg "HOME" session)).
  - reflexivity.
  - vm_compute. reflexivity.
Defined.

Lemma bound_value (e : gmap string string) v s : e !! v = Some s -> env_or_empty e v = s.
Proof. unfold env_or_empty. intros ->. reflexivity. Qed.

Lemma bound_text (e : gmap string string) v s : e !! v = Some s -> env_text e v = s.
Proof. unfold env_text, process_env. intros ->. reflexivity. Qed.

(** X20: in getExpanded a reference to another variable that the process
    environment binds is replaced by the value bound, as it stands:
    references inside that value are not expanded.  On POSIX the
    reference is [$v] or [${v}]; on Windows [%v%], looked up under the
    upper-case name. *)
Theorem bound_reference_replaced {Registry : Type}
    (reg : list string -> Registry -> Outcome string * Registry)
    (name lit v rest s : string) (sc : Scope) :
  truthy v = true -> all_chars is_word v = true ->
  (forall w w' : Posix.World,
     v <> name -> Posix.env w' !! v = Some s ->
     any_char (Ascii.eqb "$") lit = false ->
     (stops is_word rest = true ->
      Posix.getRaw name sc w
      = (Returned (plain (Some (lit +:+ String "$" v +:+ rest))), w') ->
      Posix.getExpanded name sc w
      = (Returned (Some (lit +:+ s +:+ Posix.expand name (Posix.env w') rest)), w')) /\
     (Posix.getRaw name sc w
      = (Returned (plain (Some (lit +:+ ("${" +:+ v +:+ "}") +:+ rest))), w') ->
      Posix.getExpanded name sc w
      = (Returned (Some (lit +:+ s +:+ Posix.expand name (Posix.env w') rest)), w'))) /\
  (forall w w' : Win.World Registry,
     Win.CASE_NORMALIZE v <> name ->
     Win.env w' !! Win.CASE_NORMALIZE v = Some s ->
     any_char (Ascii.eqb "%") lit = false ->
     Win.getRaw reg name sc w
     = (Returned (Some (lit +:+ ("%" +:+ v +:+ "%") +:+ rest)), w') ->
     Win.getExpanded reg name sc w
     = (Returned (Some (lit +:+ s +:+ Win.expand name (Win.env w') rest)), w')).
Proof.
  intros Hv Hw. split.
  - intros w w' Hn Hb Hl.
    assert (Hs : forall m, Posix.substitute name (Posix.env w') m v = s).
    { intros m. unfold Posix.substitute. apply String.eqb_neq in Hn. rewrite Hn.
      apply bound_text. exact Hb. }
    split.
    + intros Hr H.
      rewrite (posix_getExpanded_expand _ _ _ _ _ H) by apply truthy_append_cons.
      rewrite posix_expand_plain, Hs by assumption. reflexivity.
    + intros H.
      rewrite (posix_getExpanded_expand _ _ _ _ _ H)
        by (rewrite append_assoc; apply truthy_append_cons).
      rewrite posix_expand_braced, Hs by assumption. reflexivity.
  - intros w w' Hn Hb Hl H.
    rewrite (win_getExpanded_expand _ _ _ _ _ _ H)
      by (rewrite append_assoc; apply truthy_append_cons).
    rewrite win_expand_ref by assumption.
    unfold Win.substitute. apply String.eqb_neq in Hn. rewrite Hn.
    rewrite (bound_value _ _ _ Hb). reflexivity.
Qed.

Lemma bound_reference_replaced_witness :
  let w := ExpandFixtures.posix_env_world {[ "A" := "x$B/y"; "B" := "$C"; "C" := "c" ]} in
  Posix.getExpanded "A" session w = (Returned (Some "x$C/y"), w).
Proof.
  intros w.
  destruct (bound_reference_replaced RegSim.reg "A" "x" "B" "/y" "$C" session
              eq_refl eq_refl) as [HP _].
  refine (proj1 (HP w w _ _ _) _ _).
  - discriminate.
  - vm_compute. reflexivity.
  - reflexivity.
  - reflexivity.
  - vm_compute. reflexivity.
Defined.

End ExpandLaws.

(* ------------------------------------------------------------------ *)
(** ** set and unset at session scope                                 *)
(* ------------------------------------------------------------------ *)

Module SessionLaws.
Import Js Re Async ExpandFacts EnvSpec Spec Fixtures.

Section AnyRegistry.
Context {Registry : Type}.
Variable reg : list string -> Registry -> Outcome string * Registry.

(** X21: at session scope set, for a name of word characters and a value
    without NUL, returns a result with ok true that carries what
    process.env gave for the name before (on POSIX the former value or,
    for a name no variable has, the property every object inherits under
    it; on Windows the former value), and a getRaw that follows gives the
    new value; the other names read as before, and neither files, backups
    nor the registry are touched.  On Windows the variable is found under
    any spelling of its name that differs only in case. *)
Theorem session_set_then_getRaw (name value : string) (opts : Opts) :
  variable_name name -> storable value ->
  scope opts = session ->
  (forall w : Posix.World,
     let run := Posix.set name value opts w in
     (exists r, fst run = Returned r /\ ok r = true /\
                previous r = process_env (Posix.env w) name /\ next r = Some value) /\
     fst (Posix.getRaw name session (snd run)) = Returned (plain (Some value)) /\
     (forall n, n <> name ->
        fst (Posix.getRaw n session (snd run)) = fst (Posix.getRaw n session w)) /\
     Posix.files (snd run) = Posix.files w /\ Posix.store (snd run) = Posix.store w) /\
  (forall w : Win.World Registry,
     let run := Win.set reg name value opts w in
     (exists r, fst run = Returned r /\ ok r = true /\
                previous r = Win.env w !! toUpperCase name /\ next r = Some value) /\
     (forall n, toUpperCase n = toUpperCase name ->
        fst (Win.getRaw reg n session (snd run)) = Returned (Some value)) /\
     (forall n, toUpperCase n <> toUpperCase name ->
        fst (Win.getRaw reg n session (snd run)) = fst (Win.getRaw reg n session w)) /\
     Win.calls (snd run) = Win.calls w /\ Win.registry (snd run) = Win.registry w /\
     Win.store (snd run) = Win.store w).
Proof.
  intros _ _ Hs. split; intros w run; subst run.
  - unfold Posix.set. rewrite Hs. cbn.
    split; [eexists; repeat split; reflexivity|]. unfold process_env.
    split; [rewrite lookup_insert_eq; reflexivity|].
    split; [|split; reflexivity].
    intros n Hn. rewrite lookup_insert_ne by congruence. reflexivity.
  - unfold Win.set. rewrite Hs. cbn. unfold Win.CASE_NORMALIZE.
    split; [eexists; repeat split; reflexivity|].
    split; [intros n ->; rewrite lookup_insert_eq; reflexivity|].
    split; [|repeat split; reflexivity].
    intros n Hn. rewrite lookup_insert_ne by congruence. reflexivity.
Qed.

(** X22: at session scope unset after set, for a name of word characters
    and a value without NUL, on a variable that was not set before,
    leaves the world exactly as it was; the result of unset carries the
    value that set had put. *)
Theorem session_unset_undoes_set (name value : string) (opts opts' : Opts) :
  variable_name name -> storable value ->
  scope opts = session -> scope opts' = session ->
  (forall w : Posix.World,
     Posix.env w !! name = None ->
     let run := Posix.unset name opts' (snd (Posix.set name value opts w)) in
     snd run = w /\ exists r, fst run = Returned r /\ previous r = plain (Some value)) /\
  (forall w : Win.World Registry,
     Win.env w !! toUpperCase name = None ->
     let run := Win.unset reg name opts' (snd (Win.set reg name value opts w)) in
     snd run = w /\ exists r, fst run = Returned r /\ previous r = Some value).
Proof.
  intros _ _ Hs Hs'. split; intros w Hn run; subst run.
  - unfold Posix.unset, Posix.set. rewrite Hs, Hs'. cbn. unfold process_env.
    rewrite lookup_insert_eq. split; [|eexists; split; reflexivity].
    unfold Posix.set_env. cbn. rewrite delete_insert_id by exact Hn.
    destruct w; reflexivity.
  - unfold Win.unset, Win.set. rewrite Hs, Hs'. cbn. unfold Win.CASE_NORMALIZE.
    rewrite lookup_insert_eq. split; [|eexists; split; reflexivity].
    unfold Win.set_env. cbn. rewrite delete_insert_id by exact Hn.
    destruct w; reflexivity.
Qed.
End AnyRegistry.

Lemma session_set_then_getRaw_witness :
  (let run := Posix.set "constructor" "x" (defaults session) posix_world in
   (exists r, fst run = Returned r /\ previous r = inherited "constructor") /\
   fst (Posix.getRaw "constructor" session (snd run)) = Returned (plain (Some "x"))) /\
  fst (Win.getRaw RegSim.reg "path" session
         (snd (Win.set RegSim.reg "Path" "C:\bin" (defaults session) win_world)))
  = Returned (Some "C:\bin").
Proof.
  split.
  - destruct (proj1 (session_set_then_getRaw RegSim.reg "constructor" "x"
                       (defaults session) (conj eq_refl eq_refl) eq_refl eq_refl)
                posix_world) as ((r & Hr & _ & Hp & _) & Hg & _).
    split; [exists r; split; [exact Hr|rewrite Hp; vm_compute; reflexivity]|exact Hg].
  - destruct (proj2 (session_set_then_getRaw RegSim.reg "Path" "C:\bin" (defaults session)
                       (conj eq_refl eq_refl) eq_refl eq_refl) win_world) as (_ & H & _).
    apply H. reflexivity.
Defined.

Lemma session_unset_undoes_set_witness :
  snd (Posix.unset "FOO" (defaults session)
         (snd (Posix.set "FOO" "bar" (defaults session) posix_world)))
  = posix_world.
Proof.
  refine (proj1 (proj1 (session_unset_undoes_set RegSim.reg "FOO" "bar" (defaults session)
                          (defaults session) (conj eq_refl eq_refl) eq_refl
                          eq_refl eq_refl) posix_world _)).
  vm_compute. reflexivity.
Defined.

End SessionLaws.

(* ------------------------------------------------------------------ *)
(** ** set and unset in the registry                                  *)
(* ------------------------------------------------------------------ *)

Module RegistryFacts.
Import Js Re Async ExpandFacts Spec RegistrySpec MutationTheorems.

Section AnyRegistry.
Context {Registry : Type}.
Variable reg : list string -> Registry -> Outcome string * Registry.

Lemma execFile_frame args w :
  same_but_registry w (snd (Win.execFile reg args w)) [args].
Proof.
  unfold Win.execFile. destruct (reg args (Win.registry w)) as [r g].
  repeat split; reflexivity.
Qed.


Lemma import_backup_world sc path w : snd (Win.import_backup reg sc path w) = w.
Proof.
  unfold Win.import_backup, try_catch, bind, gets.
  destruct (Backup.list (scope_name sc) (Win.store w)); reflexivity.
Qed.

Lemma export_backup_frame sc name w :
  let w1 := snd (Win.export_backup reg sc name w) in
  Win.env w1 = Win.env w /\ Win.tmpfiles w1 = Win.tmpfiles w /\
  Win.calls w1 = Win.calls w ++ [["export"; Win.regPath sc; "-"; "/y"]].
Proof.
  unfold Win.export_backup, try_catch, bind.
  pose proof (execFile_frame ["export"; Win.regPath sc; "-"; "/y"] w) as (H1 & _ & H3 & _ & _ & H6).
  destruct (Win.execFile reg _ w) as [[stdout|e] w0]; cbn [snd] in *; [|auto].
  unfold Win.createBackup.
  destruct (Backup.createBackup _ _ _ _ _) as [[q|e] s]; cbn; auto.
Qed.

Lemma backup_step opts name w :
  exists p w1,
    (if backup opts then Win.export_backup reg (scope opts) name else ret None) w
    = (Returned p, w1) /\
    Win.env w1 = Win.env w /\ Win.tmpfiles w1 = Win.tmpfiles w /\
    Win.calls w1
    = Win.calls w ++ (if backup opts
                      then [["export"; Win.regPath (scope opts); "-"; "/y"]] else []) /\
    (backup opts = false -> w1 = w).
Proof.
  destruct (backup opts).
  - destruct (win_export_backup_returns reg (scope opts) name w) as (p & w1 & E).
    pose proof (export_backup_frame (scope opts) name w) as H. rewrite E in H.
    exists p, w1. split; [exact E|]. cbn [snd] in H. intuition discriminate.
  - exists None, w. split; [reflexivity|]. rewrite app_nil_r. auto.
Qed.

(** The two ways a mutation of the registry goes. *)
Lemma mutate_registry_cases name intended opts args w :
  exists p w1,
    (if backup opts then Win.export_backup reg (scope opts) name else ret None) w
    = (Returned p, w1) /\
    ((exists e w2,
        Win.execFile reg args w1 = (Thrown e, w2) /\
        Win.mutate_registry reg name intended opts args w
        = (Returned (failed (scope opts) name intended e), w2)) \/
     (exists out w2 raw w3 rb,
        Win.execFile reg args w1 = (Returned out, w2) /\
        Win.getRaw reg name (scope opts) w2 = (Returned raw, w3) /\
        rb <> rb_null /\
        Win.mutate_registry reg name intended opts args w
        = (Returned {| ok := same_value raw intended; r_scope := scope opts;
                       r_name := name; previous := None; next := intended;
                       verification := same_value raw intended; rollback := rb;
                       notes := [Win.regPath (scope opts)] |}, w3))).
Proof.
  destruct (backup_step opts name w) as (p & w1 & Hb & _).
  exists p, w1. split; [exact Hb|].
  destruct (Win.execFile reg args w1) as [[out|e] w2] eqn:Hx.
  2:{ left. exists e, w2. split; [reflexivity|].
      unfold Win.mutate_registry. unfold bind at 1. rewrite Hb.
      unfold bind at 1. unfold try_catch at 1. unfold bind at 1. rewrite Hx.
      reflexivity. }
  right.
  destruct (ReadTheorems.win_getRaw_returns reg name (scope opts) w2) as (raw & w3 & Hg).
  assert (Hi : forall path, exists rb,
             Win.import_backup reg (scope opts) path w3 = (Returned rb, w3) /\
             rb <> rb_null).
  { intros path.
    unfold Win.import_backup, try_catch, bind, gets.
    destruct (Backup.list (scope_name (scope opts)) (Win.store w3));
      cbn; eexists; (split; [reflexivity|discriminate]). }
  assert (Hrun :
             Win.mutate_registry reg name intended opts args w
             = bind (match p with
                     | Some path =>
                         if negb (same_value raw intended) && rollbackOnFail opts
                            && backup opts && truthy path
                         then Win.import_backup reg (scope opts) path
                         else ret rb_undefined
                     | None => ret rb_undefined
                     end)
                 (fun rb => ret {| ok := same_value raw intended; r_scope := scope opts;
                       r_name := name; previous := None; next := intended;
                       verification := same_value raw intended; rollback := rb;
                       notes := [Win.regPath (scope opts)] |}) w3).
  { unfold Win.mutate_registry. unfold bind at 1. rewrite Hb.
    unfold bind at 1. unfold try_catch at 1. unfold bind at 1. rewrite Hx.
    cbn [ret]. unfold bind at 1. rewrite Hg. reflexivity. }
  exists out, w2, raw, w3.
  destruct p as [path|].
  - destruct (negb (same_value raw intended) && rollbackOnFail opts
              && backup opts && truthy path).
    + destruct (Hi path) as (rb & Hrb & Hn). exists rb.
      split; [reflexivity|]. split; [exact Hg|]. split; [exact Hn|].
      rewrite Hrun. unfold bind. rewrite Hrb. reflexivity.
    + exists rb_undefined. split; [reflexivity|]. split; [exact Hg|].
      split; [discriminate|]. rewrite Hrun. reflexivity.
  - exists rb_undefined. split; [reflexivity|]. split; [exact Hg|].
    split; [discriminate|]. rewrite Hrun. reflexivity.
Qed.

Lemma set_registry name value opts w :
  scope opts <> session ->
  Win.set reg name value opts w
  = Win.mutate_registry reg (toUpperCase name) (Some value) opts
      ["add"; Win.regPath (scope opts); "/v"; toUpperCase name; "/d"; value; "/f"] w.
Proof.
  intros Hs. unfold Win.set, Win.CASE_NORMALIZE.
  destruct (scope opts); [congruence|reflexivity|reflexivity].
Qed.

Lemma unset_registry name opts w :
  scope opts <> session ->
  Win.unset reg name opts w
  = Win.mutate_registry reg (toUpperCase name) None opts
      ["delete"; Win.regPath (scope opts); "/v"; toUpperCase name; "/f"] w.
Proof.
  intros Hs. unfold Win.unset, Win.CASE_NORMALIZE.
  destruct (scope opts); [congruence|reflexivity|reflexivity].
Qed.


Lemma same_value_eq raw intended : same_value raw intended = true -> raw = intended.
Proof.
  destruct raw, intended; simpl; try discriminate; [|reflexivity].
  intros H. apply String.eqb_eq in H. congruence.
Qed.

Lemma getRaw_trimmed name sc w v w' :
  sc <> session -> Win.getRaw reg name sc w = (Returned (Some v), w') -> trim v = v.
Proof.
  intros Hs. unfold Win.getRaw. destruct sc; [congruence| |];
    unfold try_catch, bind;
    destruct (Win.execFile reg _ w) as [[stdout|e] w1]; cbn; try discriminate;
    destruct (Win.reg_value stdout false); cbn; try discriminate;
    intros [= <- _]; apply PathUtilsFacts.trim_idem.
Qed.

Lemma mutate_registry_verified name intended opts args w r w' :
  query_reads reg -> scope opts <> session ->
  Win.mutate_registry reg name intended opts args w = (Returned r, w') -> ok r = true ->
  fst (Win.getRaw reg name (scope opts) w') = Returned intended /\
  match intended with Some v => trim v = v | None => True end.
Proof.
  intros Hq Hs H Hok.
  destruct (mutate_registry_cases name intended opts args w)
    as (p & w1 & _ & [(e & w2 & _ & Hm)|(out & w2 & raw & w3 & rb & _ & Hg & _ & Hm)]);
    rewrite Hm in H; injection H as <- <-; [discriminate|].
  cbn [ok] in Hok. apply same_value_eq in Hok. subst raw.
  pose proof (win_getRaw_keeps_registry reg name (scope opts) w2 Hq) as Hk.
  rewrite Hg in Hk. cbn [snd] in Hk.
  split.
  - rewrite (win_getRaw_registry reg name (scope opts) w3 w2 Hs Hk), Hg. reflexivity.
  - destruct intended as [v|]; [|exact I].
    eapply getRaw_trimmed; eassumption.
Qed.
End AnyRegistry.

End RegistryFacts.

Module RegistryLaws.
Import Js Re Async ExpandFacts Spec RegistrySpec RegistryFacts MutationTheorems Fixtures.

Section AnyRegistry.
Context {Registry : Type}.
Variable reg : list string -> Registry -> Outcome string * Registry.


(** X24: when the registry command of set or unset fails, on the
    registry as the backup step left it, the call does not throw: it
    returns a result with ok and verification false, rollback null and
    the message of the tool as its only note. *)
Theorem win_failed_write_is_reported (name value : string) (opts : Opts)
    (w : Win.World Registry) (e : string) :
  scope opts <> session ->
  let sc := scope opts in
  let NAME := toUpperCase name in
  let add := ["add"; Win.regPath sc; "/v"; NAME; "/d"; value; "/f"] in
  let del := ["delete"; Win.regPath sc; "/v"; NAME; "/f"] in
  let w1 := snd ((if backup opts then Win.export_backup reg sc NAME else ret None) w) in
  (fst (reg add (Win.registry w1)) = Thrown e ->
   fst (Win.set reg name value opts w) = Returned (failed sc NAME (Some value) e)) /\
  (fst (reg del (Win.registry w1)) = Thrown e ->
   fst (Win.unset reg name opts w) = Returned (failed sc NAME None e)).
Proof.
  intros Hs sc NAME add del w1.
  assert (Hgen : forall intended args,
            fst (reg args (Win.registry w1)) = Thrown e ->
            fst (Win.mutate_registry reg NAME intended opts args w)
            = Returned (failed sc NAME intended e)).
  { intros intended args Hf.
    destruct (mutate_registry_cases reg NAME intended opts args w)
      as (p & w1' & Hb & Hcase).
    assert (Ew : w1' = w1) by (subst w1; fold sc in Hb; rewrite Hb; reflexivity).
    subst w1'.
    assert (Hx : fst (Win.execFile reg args w1) = Thrown e).
    { unfold Win.execFile. destruct (reg args (Win.registry w1)); exact Hf. }
    destruct Hcase as [(e' & w2 & Hx' & Hm)|(out & w2 & raw & w3 & rb & Hx' & _)];
      rewrite Hx' in Hx; cbn [fst] in Hx; [|discriminate].
    injection Hx as ->. rewrite Hm. reflexivity. }
  rewrite set_registry, unset_registry by assumption.
  split; apply Hgen.
Qed.

(** X25: with a registry tool whose queries leave the registry as it is,
    a set at user or system scope whose result has ok true is confirmed by
    the getRaw that follows, which returns the value; and whatever the
    tool, ok true is only reported for a value without white space at
    either end, since the value read back is trimmed. *)
Theorem win_set_ok_readable (name value : string) (opts : Opts)
    (w w' : Win.World Registry) (r : Result) :
  scope opts <> session ->
  Win.set reg name value opts w = (Returned r, w') -> ok r = true ->
  trim value = value /\
  (query_reads reg ->
   fst (Win.getRaw reg name (scope opts) w') = Returned (Some value)).
Proof.
  intros Hs H Hok. rewrite set_registry in H by assumption.
  pose proof H as Hm. clear H. split.
  - match type of Hm with
    | Win.mutate_registry _ ?n ?i ?o ?a _ = _ =>
        destruct (mutate_registry_cases reg n i o a w)
          as (p & w1 & _ &
              [(e & w2 & _ & Hm')|(out & w2 & raw & w3 & rb & _ & Hg & _ & Hm')])
    end; rewrite Hm' in Hm; injection Hm as <- <-; [discriminate|].
    cbn [ok] in Hok. apply same_value_eq in Hok. subst raw.
    eapply getRaw_trimmed; eassumption.
  - intros Hq. rewrite <- win_getRaw_normalized.
    apply (mutate_registry_verified reg _ _ _ _ _ _ _ Hq Hs Hm Hok).
Qed.
End AnyRegistry.


Lemma win_failed_write_is_reported_witness :
  fst (Win.set RegSim.reg "OS" "Linux" (defaults system) win_world)
  = Returned (failed system "OS" (Some "Linux") "ERROR: Access is denied.").
Proof.
  refine (proj1 (win_failed_write_is_reported RegSim.reg "OS" "Linux" (defaults system)
                   win_world "ERROR: Access is denied." _) _).
  - discriminate.
  - vm_compute. reflexivity.
Defined.

Lemma win_set_ok_readable_witness :
  let run := Win.set RegSim.reg "Foo" "bar" (defaults user) win_world in
  fst (Win.getRaw RegSim.reg "Foo" user (snd run)) = Returned (Some "bar").
Proof.
  intros run.
  refine (proj2 (win_set_ok_readable RegSim.reg "Foo" "bar" (defaults user) win_world
                   (snd run)
                   {| ok := true; r_scope := user; r_name := "FOO"; previous := None;
                      next := Some "bar"; verification := true; rollback := rb_undefined;
                      notes := ["HKCU\Environment"] |} _ _ eq_refl) RegSim_query_reads).
  - discriminate.
  - vm_compute. reflexivity.
Defined.

End RegistryLaws.

(* ------------------------------------------------------------------ *)
(** ** set and unset in the files of the POSIX adapter                *)
(* ------------------------------------------------------------------ *)

Module PosixFileFacts.
Import Js Re Async ExpandFacts Spec PathSpec PosixSpec EnvSpec BackupSpec BackupFacts.

(** *** index_of *)

Lemma startsWith_append_l a b s : startsWith (a +:+ b) s = true -> startsWith a s = true.
Proof.
  revert s. induction a as [|c a IH]; intros s; [reflexivity|].
  rewrite append_cons. destruct s as [|c' s]; simpl; [discriminate|].
  intros H. apply andb_true_iff in H as [-> H]. apply IH. exact H.
Qed.

Lemma index_of_Some_0 pat s : startsWith pat s = true -> index_of pat s = Some 0.
Proof. intros H. destruct s; simpl; rewrite H; reflexivity. Qed.

Lemma index_of_step pat c s :
  startsWith pat (String c s) = false ->
  index_of pat (String c s) = option_map S (index_of pat s).
Proof. intros H. cbn [index_of]. rewrite H. reflexivity. Qed.

Lemma index_of_nil pat : startsWith pat EmptyString = false -> index_of pat EmptyString = None.
Proof. intros H. cbn [index_of]. rewrite H. reflexivity. Qed.

Lemma index_of_longer a b s :
  match index_of (a +:+ b) s with
  | Some i' => exists i, index_of a s = Some i /\ i <= i'
  | None => True
  end.
Proof.
  induction s as [|c s IH].
  - destruct (startsWith (a +:+ b) EmptyString) eqn:E;
      [rewrite (index_of_Some_0 _ _ E)|rewrite (index_of_nil _ E); exact I].
    exists 0. rewrite (index_of_Some_0 a _ (startsWith_append_l _ _ _ E)). auto.
  - destruct (startsWith (a +:+ b) (String c s)) eqn:E.
    + rewrite (index_of_Some_0 _ _ E). exists 0.
      rewrite (index_of_Some_0 a _ (startsWith_append_l _ _ _ E)). auto.
    + rewrite (index_of_step _ _ _ E).
      destruct (index_of (a +:+ b) s) as [i'|]; [|exact I]. cbn [option_map].
      destruct IH as (i & Hi & Hle).
      destruct (startsWith a (String c s)) eqn:Ea.
      * exists 0. rewrite (index_of_Some_0 a _ Ea). split; [reflexivity|lia].
      * exists (S i). rewrite (index_of_step _ _ _ Ea), Hi. split; [reflexivity|lia].
Qed.

Lemma index_of_longer_none a b s : index_of a s = None -> index_of (a +:+ b) s = None.
Proof.
  intros H. pose proof (index_of_longer a b s) as Hl.
  destruct (index_of (a +:+ b) s); [|reflexivity].
  destruct Hl as (i & Hi & _). congruence.
Qed.

Lemma index_of_tail pat c s : index_of pat (String c s) = None -> index_of pat s = None.
Proof.
  cbn [index_of]. destruct (startsWith pat (String c s)); [discriminate|].
  destruct (index_of pat s); [discriminate|reflexivity].
Qed.

Lemma index_of_drop_none pat k : forall s,
  index_of pat s = None -> index_of pat (drop k s) = None.
Proof.
  induction k as [|k IH]; intros s H; [exact H|].
  destruct s as [|c s]; [exact H|]. simpl. apply IH. eapply index_of_tail. exact H.
Qed.

Lemma drop_drop a : forall b s, drop a (drop b s) = drop (b + a) s.
Proof.
  intros b. induction b as [|b IH]; intros s; [reflexivity|].
  destruct s as [|c s]; simpl; [destruct a; reflexivity|apply IH].
Qed.

(** *** The managed block of the profile file *)

Lemma begin_length : String.length (Posix.begin_marker +:+ Posix.LF)
                     = S (String.length Posix.begin_marker).
Proof. reflexivity. Qed.

(** No begin marker: there is no block, and the new block is added at the
    end. *)
Lemma no_block_lines old :
  index_of Posix.begin_marker old = None -> Posix.block_lines old = [].
Proof.
  intros H. unfold Posix.block_lines, between_delimiters.
  rewrite (index_of_longer_none _ Posix.LF _ H). reflexivity.
Qed.

Lemma with_block_fresh lines old :
  index_of Posix.begin_marker old = None ->
  Posix.with_block lines old
  = old +:+ Posix.LF +:+
    (Posix.begin_marker +:+ Posix.LF +:+ arr_join Posix.LF (filter truthy lines)
       +:+ Posix.LF +:+ Posix.end_marker) +:+ Posix.LF.
Proof.
  intros H. unfold Posix.with_block, replace_delimited. rewrite H, H. reflexivity.
Qed.

(** A begin marker that no end marker follows: there is no block, and
    the file is left as it is. *)
Lemma open_block_lines old i :
  index_of Posix.begin_marker old = Some i ->
  index_of Posix.end_marker (drop (i + String.length Posix.begin_marker) old) = None ->
  Posix.block_lines old = [].
Proof.
  intros Hb He. unfold Posix.block_lines, between_delimiters.
  pose proof (index_of_longer Posix.begin_marker Posix.LF old) as Hl.
  destruct (index_of (Posix.begin_marker +:+ Posix.LF) old) as [i'|]; [|reflexivity].
  destruct Hl as (j & Hj & Hle). rewrite Hb in Hj. injection Hj as <-.
  rewrite begin_length.
  replace (i' + S (String.length Posix.begin_marker))
    with ((i + String.length Posix.begin_marker) + (S i' - i)) by lia.
  rewrite <- drop_drop. rewrite (index_of_drop_none _ _ _ He). reflexivity.
Qed.

Lemma with_block_open lines old i :
  index_of Posix.begin_marker old = Some i ->
  index_of Posix.end_marker (drop (i + String.length Posix.begin_marker) old) = None ->
  Posix.with_block lines old = old.
Proof.
  intros Hb He. unfold Posix.with_block, replace_delimited. rewrite Hb, He, Hb. reflexivity.
Qed.

(** *** Lines *)

Lemma arr_join_cons (d : string) c h t :
  arr_join d (String c h :: t) = String c (arr_join d (h :: t)).
Proof. destruct t; reflexivity. Qed.

Lemma split_from_nonempty (d : ascii) s : split_from (String d EmptyString) s 0 <> [].
Proof.
  destruct s as [|c s]; [discriminate|]. cbn [split_from startsWith].
  destruct (Ascii.eqb d c); cbn [andb]; [discriminate|].
  destruct (split_from _ s 0); discriminate.
Qed.

Lemma join_split (d : ascii) s :
  arr_join (String d EmptyString) (split_from (String d EmptyString) s 0) = s.
Proof.
  induction s as [|c s IH]; [reflexivity|].
  cbn [split_from startsWith String.length Nat.sub].
  destruct (Ascii.eqb_spec d c) as [->|Hn]; cbn [andb].
  - pose proof (split_from_nonempty c s) as Hne.
    destruct (split_from (String c EmptyString) s 0) as [|h t] eqn:E; [congruence|].
    change (arr_join (String c EmptyString) (EmptyString :: h :: t))
      with (String c (arr_join (String c EmptyString) (h :: t))).
    rewrite IH. reflexivity.
  - destruct (split_from (String d EmptyString) s 0) as [|h t] eqn:E;
      [exfalso; eapply split_from_nonempty; exact E|].
    rewrite arr_join_cons, IH. reflexivity.
Qed.

Lemma split_join_lines (d : ascii) l :
  l <> [] -> Forall (free_of d) l ->
  split_from (String d EmptyString) (arr_join (String d EmptyString) l) 0 = l.
Proof.
  destruct l as [|s l]; [congruence|]. intros _. revert s.
  induction l as [|t l IH]; intros s H.
  - inversion H; subst. apply PathUtilsTheorems.split_from_whole. assumption.
  - inversion H as [|? ? Hs H']; subst.
    change (arr_join (String d EmptyString) (s :: t :: l))
      with (s +:+ String d EmptyString +:+ arr_join (String d EmptyString) (t :: l)).
    rewrite PathUtilsTheorems.split_from_first by assumption.
    rewrite (IH t H'). reflexivity.
Qed.

Lemma lines_free c : Forall (free_of lf) (lines c) /\ lines c <> [].
Proof.
  unfold lines, str_split, Posix.LF. fold lf. split.
  - apply (PathUtilsFacts.split_from_pieces lf c).
  - apply split_from_nonempty.
Qed.

Lemma lines_join l :
  l <> [] -> Forall (free_of lf) l -> lines (arr_join Posix.LF l) = l.
Proof. intros Hn Hf. unfold lines, str_split, Posix.LF. fold lf. apply split_join_lines; assumption. Qed.

Lemma join_lines c : arr_join Posix.LF (lines c) = c.
Proof. unfold lines, str_split, Posix.LF. fold lf. apply join_split. Qed.

Lemma free_of_append d a b : free_of d a -> free_of d b -> free_of d (a +:+ b).
Proof. unfold free_of. intros Ha Hb. rewrite any_char_append, Ha, Hb. reflexivity. Qed.

Lemma startsWith_nil_false a c b : startsWith (a +:+ String c b) EmptyString = false.
Proof. destruct a; reflexivity. Qed.

Lemma filter_idem {A} (p : A -> bool) l : filter p (filter p l) = filter p l.
Proof.
  induction l as [|x l IH]; simpl; [reflexivity|].
  destruct (p x) eqn:E; simpl; [rewrite E, IH|]; auto.
Qed.

Lemma filter_replace {A} (p : A -> bool) (x : A) l :
  p x = false ->
  filter p (map (fun l => if p l then l else x) l) = filter p l.
Proof.
  intros Hx. induction l as [|y l IH]; simpl; [reflexivity|].
  destruct (p y) eqn:E; simpl; [rewrite E, IH|rewrite Hx]; auto.
Qed.

End PosixFileFacts.

Module PosixFileLaws.
Import Js Re Async ExpandFacts Spec PathSpec PosixSpec EnvSpec BackupSpec BackupFacts
       PosixFileFacts Fixtures.

Lemma mutate_file_run name intended opts (content_fn : string -> string) w :
  scope opts <> session ->
  let sc := scope opts in
  let file := target sc w in
  let old := content file w in
  Backup.mem file (Posix.readonly w) = false ->
  (backup opts = true -> Backup.dir_writable (Posix.store w) = true) ->
  Posix.mutate_file name intended opts content_fn w
  = (Thrown ("Not implemented: getRaw " +:+ scope_name sc),
     Posix.set_files (insert file (content_fn old))
       (if backup opts
        then Posix.set_store
               (snd (Backup.createBackup (scope_name sc) name old (Posix.clock w)
                       (Posix.store w))) w
        else w)).
Proof.
  intros Hs sc file old Hro Hw.
  assert (Hm : Posix.medium sc w = (Returned file, w)).
  { subst file. unfold target. destruct sc; reflexivity. }
  assert (Hr : try_catch (Posix.readFile file) (fun _ => ret EmptyString) w
               = (Returned old, w)).
  { subst old. unfold content, try_catch, Posix.readFile.
    destruct (Posix.files w !! file); reflexivity. }
  assert (Hg : forall w', Posix.getRaw name sc w'
                          = (Thrown ("Not implemented: getRaw " +:+ scope_name sc), w')).
  { intros w'. destruct sc eqn:Esc; [exfalso; apply Hs; exact Esc| |]; reflexivity. }
  unfold Posix.mutate_file. fold sc.
  unfold bind at 1. rewrite Hm. unfold bind at 1. rewrite Hr.
  destruct (backup opts) eqn:Eb.
  - pose proof (f_equal fst (createBackup_writable (scope_name sc) name old
                               (Posix.clock w) (Posix.store w) (Hw eq_refl))) as Hp.
    unfold bind at 1. unfold Posix.createBackup at 1.
    destruct (Backup.createBackup (scope_name sc) name old (Posix.clock w) (Posix.store w))
      as [r s]. cbn [fst snd] in Hp |- *. subst r.
    unfold bind at 1. unfold Posix.writeFile at 1.
    cbn [Posix.readonly Posix.set_store]. rewrite Hro.
    unfold bind at 1. rewrite Hg. reflexivity.
  - unfold bind at 1. cbn [ret].
    unfold bind at 1. unfold Posix.writeFile at 1. rewrite Hro.
    unfold bind at 1. rewrite Hg. reflexivity.
Qed.

Lemma mutate_file_effect name intended opts (content_fn : string -> string) w :
  scope opts <> session ->
  let sc := scope opts in
  let file := target sc w in
  let old := content file w in
  let id := scope_name sc +:+ "-" +:+ name +:+ "-" +:+ stamp (Posix.clock w) +:+ ".bak" in
  Backup.mem file (Posix.readonly w) = false ->
  (backup opts = true -> Backup.dir_writable (Posix.store w) = true) ->
  let run := Posix.mutate_file name intended opts content_fn w in
  fst run = Thrown ("Not implemented: getRaw " +:+ scope_name sc) /\
  Posix.files (snd run) = <[file := content_fn old]> (Posix.files w) /\
  Posix.env (snd run) = Posix.env w /\
  (if backup opts then content_of id (Posix.store (snd run)) = Returned old
   else Posix.store (snd run) = Posix.store w).
Proof.
  intros Hs sc file old id Hro Hw run. subst run.
  rewrite (mutate_file_run name intended opts content_fn w Hs Hro Hw).
  fold sc file old. cbn [fst snd].
  destruct (backup opts) eqn:Eb; cbn; repeat split.
  apply (createBackup_content (scope_name sc) name old (Posix.clock w)
           (Posix.store w) (Hw eq_refl)).
Qed.

(** X26: on POSIX, set and unset at user or system scope of a variable
    with a name of word characters, on a file that accepts the write,
    throw the error of getRaw only after the work is done: the file holds
    the new content, the backup (when asked for) holds the former
    content, and nothing is rolled back. *)
Theorem posix_mutation_writes_then_throws (name value : string) (opts : Opts)
    (w : Posix.World) :
  variable_name name ->
  scope opts <> session ->
  let sc := scope opts in
  let file := target sc w in
  let old := content file w in
  let id := scope_name sc +:+ "-" +:+ name +:+ "-" +:+ stamp (Posix.clock w) +:+ ".bak" in
  let after (run : Outcome Posix.Result * Posix.World) (new : string) :=
    fst run = Thrown ("Not implemented: getRaw " +:+ scope_name sc) /\
    Posix.files (snd run) = <[file := new]> (Posix.files w) /\
    Posix.env (snd run) = Posix.env w /\
    (if backup opts then content_of id (Posix.store (snd run)) = Returned old
     else Posix.store (snd run) = Posix.store w) in
  Backup.mem file (Posix.readonly w) = false ->
  (backup opts = true -> Backup.dir_writable (Posix.store w) = true) ->
  after (Posix.set name value opts w)
        (match sc with
         | user => Posix.user_set_content name value old
         | _ => Posix.system_set_content name value old
         end) /\
  after (Posix.unset name opts w)
        (match sc with
         | user => Posix.user_unset_content name old
         | _ => Posix.system_unset_content name old
         end).
Proof.
  intros _ Hs sc file old id after Hro Hw. subst after. cbv beta.
  unfold Posix.set, Posix.unset. subst sc file old id.
  destruct (scope opts) eqn:Es; [congruence| |]; rewrite <- Es in *;
    (split; [pose proof (mutate_file_effect name (Some value) opts) as H
            |pose proof (mutate_file_effect name None opts) as H]);
    match goal with
    | |- context [Posix.mutate_file _ _ _ ?c w] => specialize (H c w Hs Hro Hw)
    end; cbv zeta in H; rewrite Es in H |- *; exact H.
Qed.

Lemma posix_mutation_writes_then_throws_witness :
  let w := ExpandFixtures.posix_env_world ∅ in
  let run := Posix.set "FOO" "bar" (defaults system) w in
  fst run = Thrown "Not implemented: getRaw system" /\
  Posix.files (snd run) = {[ "/etc/environment" := Posix.LF +:+ "FOO='bar'" ]}.
Proof.
  intros w run.
  destruct (proj1 (posix_mutation_writes_then_throws "FOO" "bar" (defaults system) w
                     (conj eq_refl eq_refl) ltac:(discriminate) eq_refl
                     (fun _ => eq_refl)))
    as (H1 & H2 & _).
  split; [exact H1|]. subst run. rewrite H2. vm_compute. reflexivity.
Defined.

(** *** /etc/environment *)

Section SystemFile.
Variable name : string.
Local Abbreviation lead := (name +:+ "=").
Local Abbreviation other := (fun l => negb (startsWith lead l)).

Lemma system_unset_lines old :
  Posix.system_unset_content name old = arr_join Posix.LF (filter other (lines old)).
Proof. reflexivity. Qed.

Lemma lines_of_filtered (L : list string) :
  Forall (free_of lf) L ->
  (filter other L <> [] /\ lines (arr_join Posix.LF (filter other L)) = filter other L) \/
  (filter other L = [] /\ lines (arr_join Posix.LF (filter other L)) = [EmptyString]).
Proof.
  intros Hf. destruct (filter other L) as [|x U] eqn:E; [right; split; reflexivity|].
  left. split; [discriminate|]. rewrite <- E. apply lines_join; [congruence|].
  rewrite Forall_forall in *. intros l Hl. apply filter_In in Hl. apply Hf. tauto.
Qed.

Lemma other_nil : other EmptyString = true.
Proof. cbv beta. rewrite startsWith_nil_false. reflexivity. Qed.

Lemma filter_other_lines (L : list string) :
  Forall (free_of lf) L ->
  filter other (lines (arr_join Posix.LF (filter other L))) = filter other L
  \/ (filter other L = [] /\
      filter other (lines (arr_join Posix.LF (filter other L))) = [EmptyString]).
Proof.
  intros Hf. destruct (lines_of_filtered L Hf) as [[_ ->]|[E ->]].
  - left. apply filter_idem.
  - right. split; [exact E|]. cbn [filter]. rewrite other_nil. reflexivity.
Qed.

(** X27: the rewriting of /etc/environment.  After unset no line begins
    with NAME=, the other lines are all there, and a second unset changes
    nothing.  After set, for a name and a value without line feed, the
    file has the line NAME='value', every line that began with NAME= has
    become that line, the other lines are all there, and an unset that
    follows gives the file that unset alone gives. *)
Theorem system_file_rewriting (value old : string) :
  let text := name +:+ "='" +:+ value +:+ "'" in
  let unset := Posix.system_unset_content name in
  let set := Posix.system_set_content name value in
  (forall l, In l (lines (unset old)) -> startsWith lead l = false) /\
  (forall l, In l (lines old) -> startsWith lead l = false -> In l (lines (unset old))) /\
  unset (unset old) = unset old /\
  (free_of lf name -> free_of lf value ->
   In text (lines (set old)) /\
   (forall l, In l (lines (set old)) -> startsWith lead l = true -> l = text) /\
   (forall l, In l (lines old) -> startsWith lead l = false -> In l (lines (set old))) /\
   unset (set old) = unset old).
Proof.
  intros text unset set. subst unset set.
  destruct (lines_free old) as [Hf Hne].
  split; [|split; [|split]].
  - intros l Hl. rewrite system_unset_lines in Hl.
    destruct (lines_of_filtered (lines old) Hf) as [[_ E]|[_ E]]; rewrite E in Hl.
    + apply filter_In in Hl as [_ Hl]. apply negb_true_iff in Hl. exact Hl.
    + destruct Hl as [<- | []]. apply startsWith_nil_false.
  - intros l Hl Hs. rewrite system_unset_lines.
    assert (Hin : In l (filter other (lines old))).
    { apply filter_In. split; [exact Hl|]. rewrite Hs. reflexivity. }
    destruct (lines_of_filtered (lines old) Hf) as [[_ E]|[E _]];
      [rewrite E; exact Hin|rewrite E in Hin; contradiction].
  - rewrite !system_unset_lines.
    destruct (filter_other_lines (lines old) Hf) as [->|[E ->]]; [reflexivity|].
    rewrite E. reflexivity.
  - intros Hn Hv.
    assert (Ht : free_of lf text).
    { subst text. repeat apply free_of_append; try assumption; reflexivity. }
    assert (Hst : startsWith lead text = true).
    { subst text.
      change (name +:+ "='" +:+ value +:+ "'")
        with (name +:+ "=" +:+ ("'" +:+ value +:+ "'")).
      rewrite <- (append_assoc name "=" ("'" +:+ value +:+ "'")).
      apply startsWith_append. }
    set (L' := map (fun l => if startsWith lead l then text else l) (lines old)).
    set (S := if existsb (startsWith lead) (lines old) then L' else L' ++ [text]).
    assert (Hset : Posix.system_set_content name value old = arr_join Posix.LF S)
      by reflexivity.
    assert (HfL' : Forall (free_of lf) L').
    { subst L'. rewrite Forall_forall in *. intros l Hl.
      apply in_map_iff in Hl as (l0 & <- & Hl0).
      destruct (startsWith lead l0); [exact Ht|apply Hf; exact Hl0]. }
    assert (HfS : Forall (free_of lf) S).
    { subst S. destruct (existsb _ _); [exact HfL'|].
      apply Forall_app. split; [exact HfL'|]. constructor; [exact Ht|constructor]. }
    assert (HneS : S <> []).
    { subst S L'. destruct (existsb _ _).
      - destruct (lines old); [congruence|discriminate].
      - intros E. apply app_eq_nil in E as [_ E]. discriminate. }
    rewrite Hset, (lines_join S HneS HfS).
    assert (HinL' : forall l, In l L' <->
              (exists l0, In l0 (lines old) /\
                 l = if startsWith lead l0 then text else l0)).
    { intros l. subst L'. rewrite in_map_iff. split; intros (l0 & H1 & H2); eauto. }
    split; [|split; [|split]].
    + subst S. destruct (existsb (startsWith lead) (lines old)) eqn:Ex.
      * apply existsb_exists in Ex as (l0 & Hl0 & Hs0). apply HinL'.
        exists l0. rewrite Hs0. auto.
      * apply in_or_app. right. left. reflexivity.
    + intros l Hl Hs.
      assert (Hl' : In l L' \/ l = text).
      { subst S. destruct (existsb _ _); [left; exact Hl|].
        apply in_app_or in Hl as [Hl | [<- | []]]; auto. }
      destruct Hl' as [Hl' | ->]; [|reflexivity].
      apply HinL' in Hl' as (l0 & _ & E).
      destruct (startsWith lead l0) eqn:E0; [exact E|]. subst l0. congruence.
    + intros l Hl Hs.
      assert (Hl' : In l L').
      { apply HinL'. exists l. rewrite Hs. auto. }
      subst S. destruct (existsb _ _); [exact Hl'|apply in_or_app; left; exact Hl'].
    + rewrite system_unset_lines, (lines_join S HneS HfS), system_unset_lines. f_equal.
      assert (EL' : filter other L' = filter other (lines old)).
      { subst L'. clear -Hst. induction (lines old) as [|l L IH]; [reflexivity|].
        cbn [map filter].
        destruct (startsWith lead l) eqn:E.
        - rewrite Hst. exact IH.
        - rewrite E. cbn [negb]. rewrite IH. reflexivity. }
      subst S. destruct (existsb _ _); [exact EL'|].
      rewrite filter_app, EL'. cbn [filter]. rewrite Hst. apply app_nil_r.
Qed.
End SystemFile.

Lemma system_file_rewriting_witness :
  Posix.system_unset_content "FOO" (Posix.system_set_content "FOO" "bar" "LANG='C'")
  = Posix.system_unset_content "FOO" "LANG='C'".
Proof.
  destruct (system_file_rewriting "FOO" "bar" "LANG='C'") as (_ & _ & _ & H).
  destruct (H eq_refl eq_refl) as (_ & _ & _ & E). exact E.
Defined.

(** *** The managed block of the profile file *)

(** X28: the rewriting of the profile file by its markers.  A file
    without the begin marker gets a new block at its end: with the export
    line in set, empty in unset.  A file that has the begin marker but no
    end marker behind it is left as it is by set and by unset: the
    variable is not written. *)
Theorem user_profile_markers (name value old : string) :
  (index_of Posix.begin_marker old = None ->
   Posix.user_set_content name value old
   = old +:+ Posix.LF +:+ "# envm-begin" +:+ Posix.LF +:+ Posix.export_text name value
       +:+ Posix.LF +:+ "# envm-end" +:+ Posix.LF /\
   Posix.user_unset_content name old
   = old +:+ Posix.LF +:+ "# envm-begin" +:+ Posix.LF +:+ Posix.LF +:+ "# envm-end"
       +:+ Posix.LF) /\
  (forall i,
     index_of Posix.begin_marker old = Some i ->
     index_of Posix.end_marker (drop (i + String.length Posix.begin_marker) old) = None ->
     Posix.user_set_content name value old = old /\
     Posix.user_unset_content name old = old).
Proof.
  split.
  - intros H. unfold Posix.user_set_content, Posix.user_unset_content.
    rewrite (no_block_lines old H), !with_block_fresh by assumption.
    cbn [existsb map app filter].
    replace (truthy (Posix.export_text name value)) with true by reflexivity.
    cbn [arr_join]. unfold Posix.begin_marker, Posix.end_marker.
    rewrite !append_assoc. split; reflexivity.
  - intros i Hb He. unfold Posix.user_set_content, Posix.user_unset_content.
    rewrite !(with_block_open _ old i Hb He). split; reflexivity.
Qed.

Lemma user_profile_markers_witness :
  Posix.user_set_content "FOO" "bar" ("# envm-begin" +:+ Posix.LF +:+ "export A='1'")
  = "# envm-begin" +:+ Posix.LF +:+ "export A='1'".
Proof.
  refine (proj1 (proj2 (user_profile_markers "FOO" "bar"
                          ("# envm-begin" +:+ Posix.LF +:+ "export A='1'")) 0 _ _)).
  - vm_compute. reflexivity.
  - vm_compute. reflexivity.
Defined.

Lemma space_not_s c : is_space c = true -> forall tail r, Posix.after_s tail (String c r) false = false.
Proof.
  intros H tail r.
  destruct c as [[] [] [] [] [] [] [] []]; try reflexivity; discriminate H.
Qed.

Lemma export_line_spaced l :
  Posix.export_line l <> None ->
  startsWith "export" l = true /\
  exists c r, drop 6 l = String c r /\ is_space c = true.
Proof.
  unfold Posix.export_line. destruct (startsWith "export" l); [|congruence].
  intros H. split; [reflexivity|].
  destruct (drop 6 l) as [|c r]; [exfalso; apply H; reflexivity|].
  exists c, r. split; [reflexivity|].
  cbn [span] in H. destruct (is_space c); [reflexivity|].
  exfalso. apply H. cbn [truthy andb].
  destruct (span is_word (String c r)) as [wd r2]. destruct r2 as [|c2 r3]; [reflexivity|].
  destruct c2 as [[] [] [] [] [] [] [] []]; reflexivity.
Qed.

(** X29: unset at user scope, for a name of word characters, removes no
    assignment from the managed block.  Its pattern asks for the letter s
    where set writes, and recognises, white space, so that it matches
    neither a line that set recognises as an assignment nor the line that
    set writes; on a block of such lines and empty lines the file after
    unset is the same whatever the name. *)
Theorem user_unset_keeps_assignments (name : string) :
  all_chars is_word name = true ->
  (forall l, Posix.export_line l <> None -> Posix.unset_pattern name l = false) /\
  (forall n value, Posix.unset_pattern name (Posix.export_text n value) = false) /\
  (forall name' old,
     all_chars is_word name' = true ->
     (forall l, In l (Posix.block_lines old) ->
                l = EmptyString \/ Posix.export_line l <> None) ->
     Posix.user_unset_content name old = Posix.user_unset_content name' old).
Proof.
  intros _.
  assert (H1 : forall n l, Posix.export_line l <> None -> Posix.unset_pattern n l = false).
  { intros n l H. destruct (export_line_spaced l H) as (Hs & c & r & Ed & Hc).
    unfold Posix.unset_pattern. rewrite Hs, Ed, (space_not_s c Hc). reflexivity. }
  split; [apply H1|]. split; [intros n value; reflexivity|].
  intros name' old _ H. unfold Posix.user_unset_content. f_equal.
  induction (Posix.block_lines old) as [|l L IH]; [reflexivity|].
  assert (Hl : forall n, Posix.unset_pattern n l = false).
  { intros n. destruct (H l (or_introl eq_refl)) as [->|Hx]; [reflexivity|].
    apply H1. exact Hx. }
  cbn [filter]. rewrite !Hl. cbn [negb]. f_equal. apply IH.
  intros l' Hl'. apply H. right. exact Hl'.
Qed.

Lemma user_unset_keeps_assignments_witness :
  Posix.unset_pattern "FOO" "export FOO='bar'" = false.
Proof.
  apply (proj1 (user_unset_keeps_assignments "FOO" eq_refl)). vm_compute. discriminate.
Defined.

End PosixFileLaws.

(* ------------------------------------------------------------------ *)
(** ** The output of reg query                                        *)
(* ------------------------------------------------------------------ *)

Module QueryFacts.
Import Js Re Async ExpandFacts QuerySpec PosixFileFacts.

Lemma startsWith_before_space p : forall a c r,
  any_char is_space p = false -> is_space c = true ->
  startsWith p (a +:+ String c r) = startsWith p a.
Proof.
  induction p as [|x p IH]; intros a c r Hp Hc; [reflexivity|].
  simpl in Hp. apply orb_false_iff in Hp as [Hx Hp].
  destruct a as [|y a].
  - rewrite append_nil_l. simpl.
    destruct (Ascii.eqb_spec x c) as [->|_]; [congruence|reflexivity].
  - rewrite append_cons. simpl. rewrite (IH a c r Hp Hc). reflexivity.
Qed.

Lemma value_after_space_none s : startsWith "REG_" s = false -> Win.value_after_space s = None.
Proof. unfold Win.value_after_space. intros ->. reflexivity. Qed.

(** Text without REG_ in front of white space is passed over. *)
Lemma reg_value_skip pre : forall b c r,
  index_of "REG_" pre = None -> is_space c = true ->
  Win.reg_value (pre +:+ String c r) b = Win.reg_value r true.
Proof.
  induction pre as [|x pre IH]; intros b c r Hp Hc.
  - rewrite append_nil_l. cbn [Win.reg_value]. rewrite Hc, andb_false_r. reflexivity.
  - rewrite append_cons. cbn [Win.reg_value].
    assert (Hs : startsWith "REG_" (String x (pre +:+ String c r)) = false).
    { rewrite <- append_cons, (startsWith_before_space "REG_" _ c r eq_refl Hc).
      destruct (startsWith "REG_" (String x pre)) eqn:E; [|reflexivity].
      rewrite (index_of_Some_0 _ _ E) in Hp. discriminate. }
    rewrite (value_after_space_none _ Hs).
    destruct (_ && _); apply IH; try assumption; eapply index_of_tail; exact Hp.
Qed.

Lemma begins_black_stops data rest : begins_black data -> stops is_space (data +:+ rest) = true.
Proof.
  destruct data as [|c data]; [contradiction|]. simpl. intros ->. reflexivity.
Qed.

Lemma line_end_stops e : line_end e -> stops (fun c => negb (is_newline c)) e = true.
Proof. destruct e as [|c e]; [reflexivity|]. simpl. intros ->. reflexivity. Qed.

Lemma no_newline_all data :
  any_char is_newline data = false -> all_chars (fun c => negb (is_newline c)) data = true.
Proof.
  induction data as [|c data IH]; [reflexivity|]. simpl.
  intros H. apply orb_false_iff in H as [-> H]. apply IH. exact H.
Qed.

(** The value line of a query: type and data behind white space. *)
Lemma value_after_space_line ty data e :
  truthy ty = true -> all_chars is_word ty = true ->
  begins_black data -> any_char is_newline data = false -> line_end e ->
  Win.value_after_space ("REG_" +:+ ty +:+ "    " +:+ data +:+ e) = Some data.
Proof.
  intros Ht Hw Hb Hn He. unfold Win.value_after_space.
  rewrite startsWith_append.
  change (drop 4 ("REG_" +:+ ty +:+ "    " +:+ data +:+ e))
    with (ty +:+ "    " +:+ data +:+ e).
  rewrite (span_append is_word ty ("    " +:+ data +:+ e) Hw eq_refl).
  rewrite (span_append is_space "    " (data +:+ e) eq_refl (begins_black_stops _ _ Hb)).
  rewrite Ht. cbn [truthy andb]. unfold Win.value_group.
  destruct data as [|c data]; [contradiction|]. rewrite append_cons.
  rewrite <- append_cons.
  rewrite (span_append _ (String c data) e (no_newline_all _ Hn) (line_end_stops _ He)).
  reflexivity.
Qed.

Lemma reg_value_line pre ty data e :
  index_of "REG_" pre = None ->
  truthy ty = true -> all_chars is_word ty = true ->
  begins_black data -> any_char is_newline data = false -> line_end e ->
  Win.reg_value (pre +:+ "    REG_" +:+ ty +:+ "    " +:+ data +:+ e) false = Some data.
Proof.
  intros Hp Ht Hw Hb Hn He.
  change (pre +:+ "    REG_" +:+ ty +:+ "    " +:+ data +:+ e)
    with (pre +:+ String " " ("   " +:+ "REG_" +:+ ty +:+ "    " +:+ data +:+ e)).
  rewrite (reg_value_skip pre false " " _ Hp eq_refl).
  change ("   " +:+ "REG_" +:+ ty +:+ "    " +:+ data +:+ e)
    with (String " " (String " " (String " "
            ("REG_" +:+ ty +:+ "    " +:+ data +:+ e)))).
  cbn [Win.reg_value is_space between code andb orb negb].
  replace (Win.reg_value (String " " (String " " (String " "
             ("REG_" +:+ ty +:+ "    " +:+ data +:+ e)))) true)
    with (Win.reg_value ("REG_" +:+ ty +:+ "    " +:+ data +:+ e) true) by reflexivity.
  change ("REG_" +:+ ty +:+ "    " +:+ data +:+ e)
    with (String "R" ("EG_" +:+ ty +:+ "    " +:+ data +:+ e)).
  cbn [Win.reg_value].
  change (String "R" ("EG_" +:+ ty +:+ "    " +:+ data +:+ e))
    with ("REG_" +:+ ty +:+ "    " +:+ data +:+ e).
  rewrite (value_after_space_line ty data e Ht Hw Hb Hn He). reflexivity.
Qed.

End QueryFacts.

Module QueryLaws.
Import Js Re Async ExpandFacts QuerySpec QueryFacts PosixFileFacts Fixtures.

Section AnyRegistry.
Context {Registry : Type}.
Variable reg : list string -> Registry -> Outcome string * Registry.

Lemma getRaw_of_stdout name sc w stdout g :
  sc <> session ->
  reg ["query"; Win.regPath sc; "/v"; toUpperCase name] (Win.registry w)
  = (Returned stdout, g) ->
  fst (Win.getRaw reg name sc w) = Returned (option_map trim (Win.reg_value stdout false)).
Proof.
  intros Hs H. unfold Win.getRaw, Win.CASE_NORMALIZE.
  destruct sc; [congruence| |];
    unfold try_catch, bind, Win.execFile; rewrite H; reflexivity.
Qed.

(** X30: getRaw at user and at system scope reads the data from the line
    of the query output that gives the type and the data of the value:
    when the tool prints, after text without REG_, the type and the data
    behind runs of blanks, getRaw returns the data up to the end of the
    line, trimmed.  The name stands in that text: for a variable whose
    name is REG_ followed by word characters the name is taken for the
    type, and getRaw returns the type and the data. *)
Theorem win_getRaw_reads_value_line (name : string) (sc : Scope)
    (w : Win.World Registry) (g : Registry) (pre ty data e : string) :
  sc <> session ->
  index_of "REG_" pre = None ->
  truthy ty = true -> all_chars is_word ty = true ->
  begins_black data -> any_char is_newline data = false -> line_end e ->
  (reg ["query"; Win.regPath sc; "/v"; toUpperCase name] (Win.registry w)
   = (Returned (pre +:+ "    REG_" +:+ ty +:+ "    " +:+ data +:+ e), g) ->
   fst (Win.getRaw reg name sc w) = Returned (Some (trim data))) /\
  (forall x,
     truthy x = true -> all_chars is_word x = true ->
     reg ["query"; Win.regPath sc; "/v"; toUpperCase name] (Win.registry w)
     = (Returned (pre +:+ "    REG_" +:+ x +:+ "    REG_" +:+ ty +:+ "    " +:+ data +:+ e),
        g) ->
     fst (Win.getRaw reg name sc w)
     = Returned (Some (trim ("REG_" +:+ ty +:+ "    " +:+ data)))).
Proof.
  intros Hs Hp Ht Hw Hb Hn He. split.
  - intros H. rewrite (getRaw_of_stdout name sc w _ g Hs H).
    rewrite reg_value_line by assumption. reflexivity.
  - intros x Hx Hxw H. rewrite (getRaw_of_stdout name sc w _ g Hs H).
    replace (pre +:+ "    REG_" +:+ x +:+ "    REG_" +:+ ty +:+ "    " +:+ data +:+ e)
      with (pre +:+ "    REG_" +:+ x +:+ "    " +:+ ("REG_" +:+ ty +:+ "    " +:+ data) +:+ e).
    + rewrite reg_value_line; try assumption; [reflexivity|reflexivity|].
      rewrite !BackupFacts.any_char_append, Hn.
      assert (Hty : any_char is_newline ty = false).
      { clear -Hw. induction ty as [|c t IH]; [reflexivity|]. simpl in *.
        apply andb_true_iff in Hw as [Hc Hw]. rewrite (IH Hw), orb_false_r.
        destruct c as [[] [] [] [] [] [] [] []]; try reflexivity; discriminate Hc. }
      rewrite Hty. reflexivity.
    + rewrite !append_assoc. reflexivity.
Qed.
End AnyRegistry.

Lemma win_getRaw_reads_value_line_witness :
  fst (Win.getRaw RegSim.reg "Path" user win_world) = Returned (Some "C:\bin").
Proof.
  refine (proj1 (win_getRaw_reads_value_line RegSim.reg "Path" user win_world registry0
                   (RegSim.CRLF +:+ "HKEY_CURRENT_USER\Environment" +:+ RegSim.CRLF
                    +:+ "    Path")
                   "SZ" "C:\bin" (RegSim.CRLF +:+ RegSim.CRLF) _ _ _ _ _ _ _) _).
  - discriminate.
  - vm_compute. reflexivity.
  - reflexivity.
  - reflexivity.
  - reflexivity.
  - reflexivity.
  - reflexivity.
  - vm_compute. reflexivity.
Defined.

End QueryLaws.
